(** * whisper_streaming: the real-time transport between the streaming server
      and the replay client

    Shallow embedding of [whisper_online_server.py] (module [Server]) and of
    [generate_raw_realtime.py] (module [Client]).

    Conventions of the embedding:
    - a Python [int] is a [Z]; a Python [float] (seconds, milliseconds) is an
      exact rational [Q];
    - [bytes] is a list of [byte]; a decoded [str] is a [string];
    - sockets, the transcoder's pipe and the recognizer are external: they are
      modelled by the data they will deliver, which the code consumes;
    - a [while] loop is a [Fixpoint] on a bound of iterations, together with
      a lemma that the bound is never reached. *)

From Stdlib Require Import ZArith QArith Qround List String Ascii Bool Lia.
From Stdlib Require Import DecimalString.
From Stdlib Require DecimalN DecimalPos.
From Stdlib.Strings Require Import Byte.
Import ListNotations.
Local Open Scope Z_scope.

(** ** Python values shared by both programs *)

Definition bytes := list byte.

(** [len(x)] *)
Definition len {A : Type} (l : list A) : Z := Z.of_nat (List.length l).

(** Truth value of a sequence: [if x:] holds when [x] is not empty. *)
Definition truthy {A : Type} (l : list A) : bool :=
  match l with [] => false | _ :: _ => true end.

(** Truth value of a [str]. *)
Definition nonempty (s : string) : bool :=
  match s with EmptyString => false | String _ _ => true end.

Definition LF : ascii := "010"%char.

(** The string ["\n"]. *)
Definition newline : string := String LF EmptyString.

(** [a < b] on rationals, as a boolean. *)
Definition Qlt_bool (a b : Q) : bool := negb (Qle_bool b a).

(** The built-in [max(a, b)]: the first argument unless the second is larger. *)
Definition py_max (a b : Q) : Q := if Qlt_bool a b then b else a.

(** [int(x)] of a float: truncation towards zero. *)
Definition int (q : Q) : Z := Z.quot (Qnum q) (Z.pos (Qden q)).

(** [s.replace(a, b)] for single characters. *)
Fixpoint replace (a b : ascii) (s : string) : string :=
  match s with
  | EmptyString => EmptyString
  | String c s => String (if Ascii.eqb c a then b else c) (replace a b s)
  end.

(** [c in s] for a single character. *)
Fixpoint occurs (c : ascii) (s : string) : bool :=
  match s with
  | EmptyString => false
  | String c' s => Ascii.eqb c' c || occurs c s
  end.

(** ** ["%1.0f" % x]

    The nearest integer, ties to even, in decimal; a negative [x] keeps its
    sign even when it rounds to zero. *)
Definition round_half_even (q : Q) : Z :=
  let f := Qfloor q in
  match (q - inject_Z f ?= 1 # 2)%Q with
  | Lt => f
  | Gt => f + 1
  | Eq => if Z.even f then f else f + 1
  end.

Definition digits (z : Z) : string :=
  NilZero.string_of_uint (N.to_uint (Z.to_N z)).

Definition format_1_0f (q : Q) : string :=
  if Qle_bool 0 q then digits (round_half_even q)
  else ("-" ++ digits (round_half_even (- q)))%string.

(** * The server: [whisper_online_server.py] *)

Module Server.

Definition SAMPLING_RATE : Z := 16000.

(** ** The TCP socket

    What the peer does is given in advance: the segments it writes, in order,
    and then either a close (the list ends) or an abortive event.  A blocking
    [recv(bufsize)] hands over at most [bufsize] bytes of the oldest segment
    and leaves the rest of it queued; once the peer has closed, every [recv]
    returns [b'']. *)

Inductive arrival : Type :=
| Segment (data : bytes)
| Reset                      (* the peer resets the connection *)
| Failure.                   (* any other socket.error *)

Record socket : Type := {
  inbound : list arrival;      (* what the peer still sends *)
  outbound : list string;      (* what was written to the peer, oldest first *)
  write_faults : list bool     (* whether the next writes raise *)
}.

Definition with_inbound (s : socket) (l : list arrival) : socket :=
  {| inbound := l; outbound := outbound s; write_faults := write_faults s |}.

Inductive recv_result : Type :=
| Fragment (fragment : bytes)
| ConnectionResetError
| SocketError.

Definition recv (s : socket) (bufsize : Z) : recv_result * socket :=
  match inbound s with
  | [] => (Fragment [], s)
  | Segment data :: rest =>
      let n := Z.to_nat bufsize in
      (Fragment (firstn n data),
       with_inbound s match skipn n data with
                      | [] => rest
                      | more => Segment more :: rest
                      end)
  | Reset :: rest => (ConnectionResetError, with_inbound s rest)
  | Failure :: rest => (SocketError, with_inbound s rest)
  end.

(** ** class Connection *)

Record Connection : Type := {
  conn : socket;
  last_line : string
}.

Definition PACKET_SIZE : Z := 2 * SAMPLING_RATE * 2.

Definition with_conn (self : Connection) (s : socket) : Connection :=
  {| conn := s; last_line := last_line self |}.

(** The [while len(buffer) < self.PACKET_SIZE] loop of
    [non_blocking_receive_audio], with its three loop variables.  The result
    is the returned value ([None] or a buffer) and the socket afterwards. *)
Fixpoint receive_loop (fuel : nat) (buffer : bytes) (bytes_needed : Z)
    (s : socket) : option (option bytes * socket) :=
  match fuel with
  | O => None
  | S fuel =>
      if len buffer <? PACKET_SIZE then
        match recv s bytes_needed with
        | (Fragment fragment, s) =>
            if negb (truthy fragment) then
              if negb (truthy buffer) then Some (None, s)
              else Some (Some buffer, s)
            else
              let buffer := buffer ++ fragment in
              let bytes_needed := PACKET_SIZE - len buffer in
              receive_loop fuel buffer bytes_needed s
        | (ConnectionResetError, s) => Some (None, s)
        | (SocketError, s) => Some (None, s)
        end
      else Some (Some buffer, s)
  end.

(** Every iteration that does not return adds a byte to [buffer], so the loop
    body runs at most [PACKET_SIZE] times before the final test (see
    [receive_loop_total]). *)
Definition receive_fuel : nat := S (Z.to_nat PACKET_SIZE).

Definition non_blocking_receive_audio (self : Connection)
    : option bytes * Connection :=
  match receive_loop receive_fuel [] PACKET_SIZE (conn self) with
  | Some (r, s) => (r, with_conn self s)
  | None => (None, self)
  end.

(** Modelled from the spec: [line_packet.send_one_line], which is not among
    the sources.  "Each outbound message is UTF-8 text terminated by a single
    newline": the line and one newline are written as one message; a failing
    write raises. *)
Definition send_one_line (s : socket) (line : string) : option socket :=
  match write_faults s with
  | true :: faults => None
  | faults =>
      Some {| inbound := inbound s;
              outbound := outbound s ++ [(line ++ newline)%string];
              write_faults := tl faults |}
  end.

(** [Connection.send]; [None] when the write raises. *)
Definition send (self : Connection) (line : string) : option Connection :=
  match send_one_line (conn self) line with
  | Some s => Some {| conn := s; last_line := line |}
  | None => None
  end.

(** ** Draining a connection frame by frame

    The frames a caller obtains by calling [non_blocking_receive_audio] until
    it answers [None]. *)
Fixpoint receive_frames (fuel : nat) (self : Connection) : option (list bytes) :=
  match fuel with
  | O => None
  | S fuel =>
      match non_blocking_receive_audio self with
      | (None, _) => Some []
      | (Some frame, self) =>
          match receive_frames fuel self with
          | Some frames => Some (frame :: frames)
          | None => None
          end
      end
  end.

(** ** The recognizer and the audio parser (external collaborators) *)

(** The value of [process_iter()]: [(None, None, '')] when there is no new
    text, else [(beg, end, text)] with the two times in seconds. *)
Inductive transcript : Type :=
| NoText
| Text (beg end_ : Q) (text : string).

(** [OnlineASRProcessor], of which only the interface is used. *)
Class OnlineASRProcessor (R : Type) : Type := {
  init : R -> R;
  insert_audio_chunk : R -> list Q -> R;
  process_iter : R -> transcript * R
}.

(** One little-endian signed 16-bit sample, scaled to [-1, 1). *)
Definition sample (lo hi : byte) : Q :=
  let u := Z.of_N (Byte.to_N lo) + 256 * Z.of_N (Byte.to_N hi) in
  (if u <? 32768 then u else u - 65536) # 32768.

(** [librosa.load] of a [soundfile.SoundFile] over raw mono PCM_16 at the
    sampling rate of the recognizer: one sample per two bytes, an odd last
    byte is dropped. *)
Fixpoint load (raw_bytes : bytes) : list Q :=
  match raw_bytes with
  | lo :: hi :: rest => sample lo hi :: load rest
  | _ => []
  end.

(** ** class ServerProcessor *)

Section ServerProcessor.

Context {R : Type} `{OnlineASRProcessor R}.

Record ServerProcessor : Type := {
  connection : Connection;
  online_asr_proc : R;
  min_chunk : Q;
  last_end : option Q;
  is_first : bool;
  chunk_num : Z
}.

Definition with_connection (self : ServerProcessor) (c : Connection) :=
  {| connection := c; online_asr_proc := online_asr_proc self;
     min_chunk := min_chunk self; last_end := last_end self;
     is_first := is_first self; chunk_num := chunk_num self |}.

Definition with_online_asr_proc (self : ServerProcessor) (r : R) :=
  {| connection := connection self; online_asr_proc := r;
     min_chunk := min_chunk self; last_end := last_end self;
     is_first := is_first self; chunk_num := chunk_num self |}.

Definition with_last_end (self : ServerProcessor) (e : Q) :=
  {| connection := connection self; online_asr_proc := online_asr_proc self;
     min_chunk := min_chunk self; last_end := Some e;
     is_first := is_first self; chunk_num := chunk_num self |}.

(** [self.is_first = False; self.chunk_num += 1] *)
Definition count_chunk (self : ServerProcessor) :=
  {| connection := connection self; online_asr_proc := online_asr_proc self;
     min_chunk := min_chunk self; last_end := last_end self;
     is_first := false; chunk_num := chunk_num self + 1 |}.

(** [ServerProcessor(c, online_asr_proc, min_chunk)] *)
Definition new (c : Connection) (r : R) (min_chunk : Q) : ServerProcessor :=
  {| connection := c; online_asr_proc := r; min_chunk := min_chunk;
     last_end := None; is_first := true; chunk_num := 0 |}.

Definition receive_audio_chunk (self : ServerProcessor)
    : option (list Q) * ServerProcessor :=
  let out := [] in
  let minlimit := (min_chunk self * inject_Z SAMPLING_RATE)%Q in
  let (raw_bytes, c) := non_blocking_receive_audio (connection self) in
  let self := with_connection self c in
  match raw_bytes with
  | None => (None, self)
  | Some raw_bytes =>
      if negb (truthy raw_bytes) then (None, self)
      else
        let audio := load raw_bytes in
        let out := out ++ [audio] in
        if negb (truthy out) then (None, self)
        else
          let conc := List.concat out in
          if is_first self && Qlt_bool (inject_Z (len conc)) minlimit
          then (None, self)
          else (Some (List.concat out), count_chunk self)
  end.

Definition format_output_transcript (self : ServerProcessor) (o : transcript)
    : string * ServerProcessor :=
  match o with
  | Text o0 o1 o2 =>
      let beg := (o0 * 1000)%Q in
      let end_ := (o1 * 1000)%Q in
      let beg := match last_end self with
                 | Some last_end => py_max beg last_end
                 | None => beg
                 end in
      let self := with_last_end self end_ in
      ((format_1_0f beg ++ " " ++ format_1_0f end_ ++ " " ++ o2)%string, self)
  | NoText => ("No input"%string, self)
  end.

(** [send_result]: [inl] when it returns, [inr] when the write raises. *)
Definition send_result (self : ServerProcessor) (o : transcript)
    : ServerProcessor + ServerProcessor :=
  let (msg, self) := format_output_transcript self o in
  let msg := replace LF " " msg in
  match send (connection self) msg with
  | Some c => inl (with_connection self c)
  | None => inr self
  end.

Inductive iteration : Type :=
| Break (self : ServerProcessor)
| Continue (self : ServerProcessor).

(** The body of the [while True] loop of [process]. *)
Definition process_body (self : ServerProcessor) : iteration :=
  let (a, self) := receive_audio_chunk self in
  match a with
  | None => Break self
  | Some a =>
      let self :=
        with_online_asr_proc self (insert_audio_chunk (online_asr_proc self) a) in
      let (o, r) := process_iter (online_asr_proc self) in
      let self := with_online_asr_proc self r in
      match send_result self o with
      | inl self => Continue self
      | inr self => Break self
      end
  end.

Fixpoint process_loop (fuel : nat) (self : ServerProcessor)
    : option ServerProcessor :=
  match fuel with
  | O => None
  | S fuel =>
      match process_body self with
      | Break self => Some self
      | Continue self => process_loop fuel self
      end
  end.

(** What the peer still has to deliver: every iteration of [process] that
    goes on has taken some of it (see [process_loop_total]). *)
Fixpoint backlog (l : list arrival) : nat :=
  match l with
  | [] => O
  | Segment data :: rest => S (List.length data + backlog rest)
  | _ :: rest => S (backlog rest)
  end.

(** [process]: the session of one client, from accept to close. *)
Definition process (self : ServerProcessor) : ServerProcessor :=
  let self := with_online_asr_proc self (init (online_asr_proc self)) in
  match process_loop (S (backlog (inbound (conn (connection self))))) self with
  | Some self => self
  | None => self
  end.

(** The intervals of a session, as numbers: what [format_output_transcript]
    prints for [o], before the rounding of ["%1.0f"]. *)
Definition emitted_interval (self : ServerProcessor) (o : transcript)
    : option (Q * Q) :=
  match o with
  | Text o0 o1 _ =>
      Some (match last_end self with
            | Some last_end => py_max (o0 * 1000) last_end
            | None => (o0 * 1000)%Q
            end, (o1 * 1000)%Q)
  | NoText => None
  end.

(** The intervals emitted for the successive outputs of the recognizer. *)
Fixpoint emitted_intervals (self : ServerProcessor) (os : list transcript)
    : list (Q * Q) :=
  match os with
  | [] => []
  | o :: os =>
      let self' := snd (format_output_transcript self o) in
      match emitted_interval self o with
      | Some i => i :: emitted_intervals self' os
      | None => emitted_intervals self' os
      end
  end.

(** ** Notions used in the statements about a session *)

(** What the peer of the session still has to deliver. *)
Definition pending_input (self : ServerProcessor) : nat :=
  backlog (inbound (conn (connection self))).

(** The first interval of a session that has already emitted one begins at
    or after [last_end]. *)
Definition begins_after (previous : option Q) (l : list (Q * Q)) : Prop :=
  match previous, l with
  | Some e, i :: _ => (e <= fst i)%Q
  | _, _ => True
  end.

(** The test that lets a frame through to the recognizer. *)
Definition accepted (self : ServerProcessor) (frame : bytes) : Prop :=
  is_first self
  && Qlt_bool (inject_Z (len (load frame)))
       (min_chunk self * inject_Z SAMPLING_RATE) = false.

End ServerProcessor.

Arguments ServerProcessor R : clear implicits.

(** A recognizer for the examples: it answers from a script and counts the
    samples it was given. *)
Record scripted : Type := { script : list transcript; heard : Z }.

#[export] Instance scripted_asr : OnlineASRProcessor scripted := {
  init r := r;
  insert_audio_chunk r a := {| script := script r; heard := heard r + len a |};
  process_iter r :=
    match script r with
    | [] => (NoText, r)
    | o :: rest => (o, {| script := rest; heard := heard r |})
    end
}.

(** ** Notions used in the statements about the reassembler *)

(** The segments still queued when [more] is left of the oldest one. *)
Definition unread (more : bytes) (rest : list bytes) : list bytes :=
  match more with [] => rest | _ => more :: rest end.

(** The outcome of the loop: a full frame, or everything up to the close. *)
Inductive loop_outcome (buffer : bytes) (segs : list bytes)
  : option bytes -> list bytes -> Prop :=
| full_frame (frame : bytes) (segs' : list bytes) :
    len frame = PACKET_SIZE ->
    frame ++ List.concat segs' = buffer ++ List.concat segs ->
    loop_outcome buffer segs (Some frame) segs'
| short_frame :
    len (buffer ++ List.concat segs) < PACKET_SIZE ->
    buffer ++ List.concat segs <> [] ->
    loop_outcome buffer segs (Some (buffer ++ List.concat segs)) []
| end_of_stream :
    buffer ++ List.concat segs = [] ->
    loop_outcome buffer segs None [].

(** ** Connections and sessions for the examples *)

Definition example_connection (segs : list bytes) : Connection :=
  {| conn := {| inbound := map Segment segs; outbound := [];
                write_faults := [] |};
     last_line := EmptyString |}.

Definition example_session (segs : list bytes) (answers : list transcript)
    (min_chunk : Q) : ServerProcessor scripted :=
  new (example_connection segs) {| script := answers; heard := 0 |} min_chunk.

Definition two_seconds (b : byte) : bytes := repeat b (Z.to_nat 64000).

Definition streaming_session : ServerProcessor scripted :=
  with_last_end (count_chunk (example_session [] [] 1)) 2000.

Definition short_session : ServerProcessor scripted :=
  example_session [[x01; x02]] [Text 0 1 "a"] 0.

Definition example_fragments : list bytes :=
  [[x01]; [x02; x03]; [x04]].

(** Three bytes of a frame and then a reset. *)
Definition aborted_connection : Connection :=
  {| conn := {| inbound := [Segment [x01; x02]; Segment [x03]; Reset];
                outbound := []; write_faults := [] |};
     last_line := EmptyString |}.

(** A session past its first frame, with three bytes on the way. *)
Definition late_session : ServerProcessor scripted :=
  count_chunk (example_session [[x01]; [x02; x03]] [Text 0 1 "a"] 1).


End Server.

(** * The client: [generate_raw_realtime.py] *)

Module Client.

(** ** [str] methods *)

(** [c.isspace()], for the code points below 256. *)
Definition isspace (c : ascii) : bool :=
  let n := N_of_ascii c in
  (((9 <=? n) && (n <=? 13)) || ((28 <=? n) && (n <=? 32))
   || (n =? 133) || (n =? 160))%N.

Fixpoint lstrip (s : string) : string :=
  match s with
  | EmptyString => EmptyString
  | String c s' => if isspace c then lstrip s' else s
  end.

Fixpoint rstrip (s : string) : string :=
  match s with
  | EmptyString => EmptyString
  | String c s' =>
      let r := rstrip s' in
      if isspace c && negb (nonempty r) then EmptyString else String c r
  end.

(** [s.strip()] *)
Definition strip (s : string) : string := rstrip (lstrip s).

(** [s.split(sep)] for a one-character separator: never an empty list. *)
Fixpoint split (sep : ascii) (s : string) : list string :=
  match s with
  | EmptyString => [EmptyString]
  | String c s' =>
      if Ascii.eqb c sep then EmptyString :: split sep s'
      else match split sep s' with
           | piece :: pieces => String c piece :: pieces
           | [] => [String c EmptyString]
           end
  end.

(** ** The non-blocking socket

    What the socket holds at each poll is given in advance: nothing, or the
    payload the next [recv(4096)] returns, or a failure of that [recv].  A
    payload stands for its own decoding
    ([response.decode('utf-8', errors='replace')]), which is empty exactly
    when the payload is.  Once the list is used up the peer has closed: the
    socket stays readable and every [recv] returns [b''].

    What becomes of each [sendall] is given in advance too: the call returns
    once all its bytes are out, or it raises (the send buffer is full and the
    socket does not block, the peer has reset the connection) after at most
    so many of its bytes have gone out.  Once that list is used up every
    call returns. *)

Inductive readiness : Type :=
| Idle
| Data (response : string)
| Broken.

Record socket : Type := {
  incoming : list readiness;
  recv_calls : nat;            (* how many times recv was called *)
  sent : list bytes;           (* what each sendall put on the wire, oldest first *)
  send_faults : list (option nat)
                               (* the next calls of sendall: [None] returns,
                                  [Some n] raises with at most n bytes out *)
}.

Definition with_incoming (s : socket) (l : list readiness) : socket :=
  {| incoming := l; recv_calls := recv_calls s; sent := sent s;
     send_faults := send_faults s |}.

(** [readable, _, _ = select.select([sock], [], [], 0)] *)
Definition select (s : socket) : bool * socket :=
  match incoming s with
  | Idle :: rest => (false, with_incoming s rest)
  | _ => (true, s)
  end.

(** [sock.recv(4096)]; [None] when it raises. *)
Definition recv (s : socket) : option string * socket :=
  let s := {| incoming := incoming s; recv_calls := S (recv_calls s);
              sent := sent s; send_faults := send_faults s |} in
  match incoming s with
  | [] => (Some EmptyString, s)
  | Data response :: rest => (Some response, with_incoming s rest)
  | Broken :: rest => (None, with_incoming s rest)
  | Idle :: rest => (None, with_incoming s rest)
  end.

(** The socket after a call of [sendall] that has put [wire] on the wire. *)
Definition after_send (s : socket) (wire : bytes) : socket :=
  {| incoming := incoming s; recv_calls := recv_calls s;
     sent := sent s ++ [wire]; send_faults := tl (send_faults s) |}.

(** [sock.sendall(data)]; [false] when it raises. *)
Definition sendall (s : socket) (data : bytes) : bool * socket :=
  match send_faults s with
  | Some n :: _ => (false, after_send s (firstn n data))
  | _ => (true, after_send s data)
  end.

(** ** The correlation queue and what is printed about it *)

(** A Pending Send Record: [(chunk_count, send_time)]. *)
Definition pending : Type := Z * Q.

Inductive printed : Type :=
| ResponseFor (chunk_num : Z) (send_time : Q) (content : string)
| NoResponse (chunk_num : Z) (send_time : Q)
| ErrorReceiving
| Error.

(** The [for message in messages] loop of [try_receive_response]. *)
Fixpoint for_messages (messages : list string) (chunk_timestamps : list pending)
    : list pending * list printed :=
  match messages with
  | [] => (chunk_timestamps, [])
  | message :: messages =>
      match nonempty message, chunk_timestamps with
      | true, (chunk_num, send_time) :: chunk_timestamps =>
          let (q, log) := for_messages messages chunk_timestamps in
          (q, ResponseFor chunk_num send_time message :: log)
      | _, _ => for_messages messages chunk_timestamps
      end
  end.

Definition try_receive_response (sock : socket) (chunk_timestamps : list pending)
    : socket * list pending * list printed :=
  if negb (truthy chunk_timestamps) then (sock, chunk_timestamps, [])
  else
    let (readable, sock) := select sock in
    if readable then
      match recv sock with
      | (Some response, sock) =>
          if nonempty response then
            let messages := split LF (strip response) in
            let (q, log) := for_messages messages chunk_timestamps in
            (sock, q, log)
          else (sock, chunk_timestamps, [])
      | (None, sock) => (sock, chunk_timestamps, [ErrorReceiving])
      end
    else (sock, chunk_timestamps, []).

(** [check_for_additional_responses]: every iteration that goes on pops a
    record, so the loop is a recursion on the queue. *)
Fixpoint check_for_additional_responses (sock : socket)
    (chunk_timestamps : list pending) : socket * list pending * list printed :=
  match chunk_timestamps with
  | [] => (sock, [], [])
  | (chunk_num, send_time) :: rest =>
      let (readable, sock) := select sock in
      if negb readable then (sock, chunk_timestamps, [])
      else
        match recv sock with
        | (Some response, sock) =>
            if negb (nonempty response) then (sock, chunk_timestamps, [])
            else
              let '(sock, q, log) := check_for_additional_responses sock rest in
              (sock, q, ResponseFor chunk_num send_time response :: log)
        | (None, sock) => (sock, chunk_timestamps, [Error])
        end
  end.

(** A loop that runs while the clock allows:
    [while time.time() < end_time and chunk_timestamps] in
    [wait_for_final_responses], where [polls] is the number of times the
    clock test holds. *)
Fixpoint wait_loop (polls : nat) (sock : socket) (chunk_timestamps : list pending)
    : socket * list pending * list printed :=
  match polls with
  | O => (sock, chunk_timestamps, [])
  | S polls =>
      if truthy chunk_timestamps then
        let '(sock, q, log) := try_receive_response sock chunk_timestamps in
        let '(sock, q, log') := wait_loop polls sock q in
        (sock, q, log ++ log')
      else (sock, chunk_timestamps, [])
  end.

Definition wait_for_final_responses (polls : nat) (sock : socket)
    (chunk_timestamps : list pending) : socket * list pending * list printed :=
  if negb (truthy chunk_timestamps) then (sock, chunk_timestamps, [])
  else wait_loop polls sock chunk_timestamps.

(** [while time.time() - start_time < chunk_seconds] in the pacing sleep of
    [send_audio_in_chunks]. *)
Fixpoint sleep_loop (polls : nat) (sock : socket) (chunk_timestamps : list pending)
    : socket * list pending * list printed :=
  match polls with
  | O => (sock, chunk_timestamps, [])
  | S polls =>
      let '(sock, q, log) := try_receive_response sock chunk_timestamps in
      let '(sock, q, log') := sleep_loop polls sock q in
      (sock, q, log ++ log')
  end.

(** ** [send_audio_in_chunks] *)

(** The wall clock, as far as the program observes it. *)
Record timing : Type := {
  time_of_send : Z -> Q;       (* [time.time()] before chunk n is sent *)
  polls_after : Z -> nat;      (* polls that fit in the sleep after chunk n *)
  polls_at_end : nat           (* polls that fit in the final wait *)
}.

(** [ffmpeg_process.stdout.read(size)] on the pipe holding [stdout]: the
    bytes read and the bytes left; [None] for the [ValueError] of a size
    below -1. *)
Definition read (stdout : bytes) (size : Z) : option (bytes * bytes) :=
  if size <? -1 then None
  else if size =? -1 then Some (stdout, [])
  else Some (firstn (Z.to_nat size) stdout, skipn (Z.to_nat size) stdout).

(** The local variables of [send_audio_in_chunks] that change. *)
Record locals : Type := {
  stdout : bytes;
  sock : socket;
  chunk_timestamps : list pending;
  total_bytes_sent : Z;
  chunk_count : Z;
  log : list printed
}.

Inductive flow : Type :=
| Next (l : locals)
| Stop (l : locals)
| Raised (l : locals).

(** The body of the [while True] loop; [Raised] when the read or one of
    the two calls of [sendall] raises, with the local variables as the
    exception finds them. *)
Definition send_chunk (clock : timing) (chunk_seconds : Q)
    (bytes_per_second chunk_size : Z) (l : locals) : flow :=
  match read (stdout l) chunk_size with
  | None => Raised l
  | Some (data, rest) =>
      if negb (truthy data) then
        Stop {| stdout := rest; sock := sock l;
                chunk_timestamps := chunk_timestamps l;
                total_bytes_sent := total_bytes_sent l;
                chunk_count := chunk_count l; log := log l |}
      else
        let send_time := time_of_send clock (chunk_count l + 1) in
        match sendall (sock l) data with
        | (false, sock) =>
            Raised {| stdout := rest; sock := sock;
                      chunk_timestamps := chunk_timestamps l;
                      total_bytes_sent := total_bytes_sent l;
                      chunk_count := chunk_count l; log := log l |}
        | (true, sock) =>
            let chunk_count := chunk_count l + 1 in
            let chunk_timestamps :=
              chunk_timestamps l ++ [(chunk_count, send_time)] in
            let total_bytes_sent := total_bytes_sent l + len data in
            let chunk_duration :=
              (inject_Z (len data) / inject_Z bytes_per_second)%Q in
            let padded :=
              if (len data <? chunk_size)
                 && Qlt_bool chunk_duration chunk_seconds
              then
                let silence_bytes_needed := chunk_size - len data in
                let silence_padding :=
                  repeat x00 (Z.to_nat silence_bytes_needed) in
                match sendall sock silence_padding with
                | (true, sock) =>
                    (true, sock, total_bytes_sent + silence_bytes_needed)
                | (false, sock) => (false, sock, total_bytes_sent)
                end
              else (true, sock, total_bytes_sent) in
            match padded with
            | (false, sock, total_bytes_sent) =>
                Raised {| stdout := rest; sock := sock;
                          chunk_timestamps := chunk_timestamps;
                          total_bytes_sent := total_bytes_sent;
                          chunk_count := chunk_count; log := log l |}
            | (true, sock, total_bytes_sent) =>
                let '(sock, chunk_timestamps, log1) :=
                  try_receive_response sock chunk_timestamps in
                let '(sock, chunk_timestamps, log2) :=
                  if truthy rest
                  then sleep_loop (polls_after clock chunk_count) sock
                         chunk_timestamps
                  else (sock, chunk_timestamps, []) in
                Next {| stdout := rest; sock := sock;
                        chunk_timestamps := chunk_timestamps;
                        total_bytes_sent := total_bytes_sent;
                        chunk_count := chunk_count;
                        log := log l ++ log1 ++ log2 |}
            end
        end
  end.

Fixpoint send_loop (fuel : nat) (clock : timing) (chunk_seconds : Q)
    (bytes_per_second chunk_size : Z) (l : locals) : option flow :=
  match fuel with
  | O => None
  | S fuel =>
      match send_chunk clock chunk_seconds bytes_per_second chunk_size l with
      | Next l => send_loop fuel clock chunk_seconds bytes_per_second chunk_size l
      | done => Some done
      end
  end.

(** [send_audio_in_chunks], from the moment the socket is connected and the
    transcoder started; [pcm] is what the transcoder writes to its pipe.
    Every iteration that goes on has read a byte of the pipe (see
    [send_loop_total]).  An exception of the loop goes to the handler, which
    prints it: the final wait and the report of the chunks without a
    response are skipped. *)
Definition send_audio_in_chunks (clock : timing) (pcm : bytes) (s : socket)
    (chunk_seconds : Q) : locals :=
  let bytes_per_second := 16000 * 2 in
  let chunk_size := int (inject_Z bytes_per_second * chunk_seconds) in
  let l := {| stdout := pcm; sock := s; chunk_timestamps := [];
              total_bytes_sent := 0; chunk_count := 0; log := [] |} in
  match send_loop (S (List.length pcm)) clock chunk_seconds
          bytes_per_second chunk_size l with
  | Some (Stop l) =>
      let '(sock, q, log1) :=
        wait_for_final_responses (polls_at_end clock) (sock l)
          (chunk_timestamps l) in
      {| stdout := stdout l; sock := sock; chunk_timestamps := q;
         total_bytes_sent := total_bytes_sent l; chunk_count := chunk_count l;
         log := log l ++ log1 ++ map (fun r => NoResponse (fst r) (snd r)) q |}
  | Some (Raised l) | Some (Next l) =>
      {| stdout := stdout l; sock := sock l;
         chunk_timestamps := chunk_timestamps l;
         total_bytes_sent := total_bytes_sent l; chunk_count := chunk_count l;
         log := log l ++ [Error] |}
  | None => l
  end.

(** ** Notions used in the statements about the correlator *)

Local Open Scope string_scope.

(** The payload made of [lines], each line but the last followed by a
    newline. *)
Definition join (lines : list string) : string :=
  String.concat newline lines.

(** A string of whitespace only. *)
Fixpoint blank (s : string) : bool :=
  match s with
  | EmptyString => true
  | String c s => isspace c && blank s
  end.

(** What [strip] leaves of the lines of a payload: the first line without
    its leading whitespace and the last without its trailing whitespace. *)
Definition lstrip_first (lines : list string) : list string :=
  match lines with
  | [] => []
  | l :: ls => lstrip l :: ls
  end.

Fixpoint rstrip_last (lines : list string) : list string :=
  match lines with
  | [] => []
  | [l] => [rstrip l]
  | l :: ls => l :: rstrip_last ls
  end.

(** What is printed when [content] is matched to the record [r]. *)
Definition report (r : pending) (content : string) : printed :=
  ResponseFor (fst r) (snd r) content.

(** The lines that [try_receive_response] sees are one line each and are
    not empty. *)
Definition message (l : string) : Prop :=
  nonempty l = true /\ occurs LF l = false.

(** The socket after a [recv] that took the payload at the head. *)
Definition received (s : socket) (rest : list readiness) : socket :=
  {| incoming := rest; recv_calls := S (recv_calls s); sent := sent s;
     send_faults := send_faults s |}.

(** A socket whose peer has closed, after [calls] calls of [recv]. *)
Definition closed_socket (calls : nat) (out : list bytes)
    (faults : list (option nat)) : socket :=
  {| incoming := []; recv_calls := calls; sent := out; send_faults := faults |}.

(** The records for which a response is printed, in the order of printing. *)
Fixpoint answered (log : list printed) : list pending :=
  match log with
  | [] => []
  | ResponseFor chunk_num send_time _ :: log =>
      (chunk_num, send_time) :: answered log
  | _ :: log => answered log
  end.

(** The records printed as left without a response. *)
Fixpoint unanswered (log : list printed) : list pending :=
  match log with
  | [] => []
  | NoResponse chunk_num send_time :: log =>
      (chunk_num, send_time) :: unanswered log
  | _ :: log => unanswered log
  end.

(** The records of the chunks 1 to n, as the send loop creates them. *)
Definition records (clock : timing) (n : nat) : list pending :=
  map (fun i => (Z.of_nat i, time_of_send clock (Z.of_nat i))) (seq 1 n).

(** The messages of a payload for which a record is popped. *)
Definition messages_of (response : string) : list string :=
  filter nonempty (split LF (strip response)).

(** The socket after [calls] more calls of [recv], holding [rest]. *)
Definition after_recvs (s : socket) (calls : nat) (rest : list readiness)
    : socket :=
  {| incoming := rest; recv_calls := (recv_calls s + calls)%nat;
     sent := sent s; send_faults := send_faults s |}.

(** What a draining step may do: pop records from the front of the queue,
    print a response for each, read at most [polls] times, send nothing. *)
Definition drains (polls : nat) (s : socket) (q : list pending)
    (r : socket * list pending * list printed) : Prop :=
  let '(s', q', log) := r in
  (answered log ++ q')%list = q
  /\ unanswered log = []
  /\ sent s' = sent s
  /\ (recv_calls s <= recv_calls s' <= recv_calls s + polls)%nat
  /\ send_faults s' = send_faults s.

(** The next [n] calls of [sendall] return. *)
Definition accepts (n : nat) (s : socket) : Prop :=
  Forall (fun f => f = None) (firstn n (send_faults s)).

(** Every call of [sendall] returns. *)
Definition reliable (s : socket) : Prop :=
  Forall (fun f => f = None) (send_faults s).

Local Open Scope Z_scope.

(** The bookkeeping of the send loop whatever becomes of the sends, against
    the socket [s0] it started with: the chunks counted so far are those
    with a printed response followed by those still in the queue, and the
    bytes counted in [total_bytes_sent] have gone out. *)
Definition tallies (clock : timing) (s0 : socket) (l : locals) : Prop :=
  exists k : nat,
    chunk_count l = Z.of_nat k
    /\ (answered (log l) ++ chunk_timestamps l)%list = records clock k
    /\ unanswered (log l) = []
    /\ total_bytes_sent l + len (List.concat (sent s0))
       <= len (List.concat (sent (sock l))).

(** The bookkeeping of the send loop as long as no send raises:
    [total_bytes_sent] is then exactly what went through [sendall]. *)
Definition accounts (clock : timing) (s0 : socket) (l : locals) : Prop :=
  exists k : nat,
    chunk_count l = Z.of_nat k
    /\ (answered (log l) ++ chunk_timestamps l)%list = records clock k
    /\ unanswered (log l) = []
    /\ total_bytes_sent l + len (List.concat (sent s0))
       = len (List.concat (sent (sock l)))
    /\ reliable (sock l).

(** The padding that follows [data] on the wire. *)
Definition padding_of (chunk_seconds : Q) (bytes_per_second chunk_size : Z)
    (data : bytes) : list bytes :=
  if (len data <? chunk_size)
     && Qlt_bool (inject_Z (len data) / inject_Z bytes_per_second) chunk_seconds
  then [repeat x00 (Z.to_nat (chunk_size - len data))]
  else [].

(** What an iteration that sends a chunk leaves behind when its sends
    return. *)
Definition sent_chunk (clock : timing) (chunk_seconds : Q)
    (bytes_per_second chunk_size : Z) (l : locals) (data rest : bytes)
    (l1 : locals) : Prop :=
  stdout l1 = rest
  /\ reliable (sock l1)
  /\ chunk_count l1 = chunk_count l + 1
  /\ sent (sock l1)
     = (sent (sock l)
       ++ data :: padding_of chunk_seconds bytes_per_second chunk_size data)%list
  /\ total_bytes_sent l1
     = total_bytes_sent l
       + len (List.concat
                (data :: padding_of chunk_seconds bytes_per_second chunk_size data))
  /\ exists log1,
      log l1 = (log l ++ log1)%list
      /\ (answered log1 ++ chunk_timestamps l1)%list
         = (chunk_timestamps l
           ++ [(chunk_count l + 1, time_of_send clock (chunk_count l + 1))])%list
      /\ unanswered log1 = [].

(** The local variables an iteration ends with. *)
Definition locals_of (f : flow) : locals :=
  match f with Next l | Stop l | Raised l => l end.

(** ** Sockets, queues and clocks for the examples *)

Definition example_socket (responses : list string) : socket :=
  {| incoming := map Data responses; recv_calls := 0; sent := [];
     send_faults := [] |}.

Definition three_records : list pending := [(1, 10%Q); (2, 12%Q); (3, 14%Q)].

Definition three_lines : list string :=
  ["0 1720 Takhle to je"; "No input"; "1720 2400 dobre "].

Definition steady_clock : timing :=
  {| time_of_send := fun n => inject_Z (2 * n);
     polls_after := fun _ => 3%nat;
     polls_at_end := 5%nat |}.

Definition last_slice : locals :=
  {| stdout := [x01; x02; x03]; sock := example_socket [];
     chunk_timestamps := []; total_bytes_sent := 0; chunk_count := 0;
     log := [] |}.

Definition two_payloads : list string :=
  [("0 1720 Takhle" ++ newline ++ "No input" ++ newline)%string;
   " 1720 2400 dobre"].

(** A socket that holds two payloads and then nothing. *)
Definition idle_after_two : socket :=
  {| incoming := map Data two_payloads ++ [Idle]; recv_calls := 0; sent := [];
     send_faults := [] |}.

(** A socket whose second [sendall] raises before a byte is out. *)
Definition full_after_one : socket :=
  {| incoming := []; recv_calls := 0; sent := [];
     send_faults := [None; Some 0%nat] |}.

End Client.

(** * Splitting a recording: [split_wav_file.py] *)

Module SplitWav.

(** [s.zfill(width)] for a string of digits. *)
Fixpoint zeros (n : nat) : string :=
  match n with
  | O => EmptyString
  | S n => String "0"%char (zeros n)
  end.

Definition zfill (width : nat) (s : string) : string :=
  (zeros (width - String.length s) ++ s)%string.

(** [f"{z:03d}"]: at least three characters, the sign included. *)
Definition format_03d (z : Z) : string :=
  if z <? 0 then ("-" ++ zfill 2 (digits (- z)))%string
  else zfill 3 (digits z).

(** [range(n)] *)
Definition range (n : Z) : list Z := map Z.of_nat (seq 0 (Z.to_nat n)).

(** One exported chunk: [audio[start_ms:end_ms]] written to
    [output_filename]. *)
Record export : Type := {
  output_filename : string;
  start_ms : Z;
  end_ms : Z
}.

(** [split_wav_file], for a recording of [total_duration_ms] milliseconds
    ([len(audio)]) whose file name without directory and extension is
    [base_filename]: the chunks it exports, in order; [None] for the
    [ZeroDivisionError] of a chunk length of zero.  The quotient is taken
    exactly: Python's float quotient has the same ceiling for every
    duration below 2^53 milliseconds. *)
Definition split_wav_file (base_filename : string)
    (total_duration_ms chunk_length : Z) : option (list export) :=
  let chunk_length_ms := chunk_length * 1000 in
  if chunk_length_ms =? 0 then None
  else
    let num_chunks :=
      Qceiling (inject_Z total_duration_ms / inject_Z chunk_length_ms) in
    Some (map (fun i =>
                 let start_ms := i * chunk_length_ms in
                 let end_ms :=
                   Z.min ((i + 1) * chunk_length_ms) total_duration_ms in
                 {| output_filename :=
                      (base_filename ++ "_chunk_" ++ format_03d (i + 1)
                       ++ ".wav")%string;
                    start_ms := start_ms;
                    end_ms := end_ms |})
            (range num_chunks)).

(** ** Notions used in the statements about the chunks *)

(** The chunks follow one another from [from] to [to] without gap or
    overlap. *)
Fixpoint tiling (from : Z) (chunks : list export) (to : Z) : Prop :=
  match chunks with
  | [] => from = to
  | c :: chunks => start_ms c = from /\ tiling (end_ms c) chunks to
  end.

(** Reading a string of digits as a number. *)
Definition number_of (s : string) : option N :=
  option_map N.of_uint (NilEmpty.uint_of_string s).

End SplitWav.

(** * Properties of the server *)

Module ServerProofs.

Import Server.

Lemma len_app {A : Type} (l1 l2 : list A) : len (l1 ++ l2) = len l1 + len l2.
Proof. unfold len. rewrite length_app. lia. Qed.

Lemma len_nonneg {A : Type} (l : list A) : 0 <= len l.
Proof. unfold len. lia. Qed.

Lemma truthy_false {A : Type} (l : list A) : truthy l = false <-> l = [].
Proof. destruct l; simpl; split; congruence. Qed.

Lemma truthy_true {A : Type} (l : list A) : truthy l = true <-> l <> [].
Proof. destruct l; simpl; split; congruence. Qed.

Lemma truthy_len {A : Type} (l : list A) : truthy l = true <-> 0 < len l.
Proof. unfold len. destruct l; simpl; split; intros; try congruence; lia. Qed.

Lemma PACKET_SIZE_value : PACKET_SIZE = 64000.
Proof. reflexivity. Qed.

Lemma with_inbound_same (s : socket) : with_inbound s (inbound s) = s.
Proof. destruct s; reflexivity. Qed.

(** ** The receive loop returns *)

Lemma receive_loop_total (fuel : nat) :
  forall buffer bytes_needed s,
    (Z.to_nat (PACKET_SIZE - len buffer) < fuel)%nat ->
    receive_loop fuel buffer bytes_needed s <> None.
Proof.
  induction fuel as [|fuel IH]; intros buffer n s Hfuel; [lia|].
  simpl. destruct (len buffer <? PACKET_SIZE) eqn:Hlt; [|discriminate].
  apply Z.ltb_lt in Hlt.
  destruct (recv s n) as [[fragment| |] s']; try discriminate.
  destruct (truthy fragment) eqn:Hfr; simpl.
  - apply IH. apply truthy_len in Hfr. rewrite len_app. lia.
  - destruct (truthy buffer); discriminate.
Qed.

Lemma non_blocking_receive_audio_fuel (self : Connection) :
  receive_loop receive_fuel [] PACKET_SIZE (conn self) <> None.
Proof.
  apply receive_loop_total. unfold receive_fuel. rewrite PACKET_SIZE_value.
  change (len (@nil byte)) with 0. lia.
Qed.

(** A read of zero bytes ends the loop at once: with [None] when nothing has
    accumulated, else with the buffer, which the loop test has found shorter
    than [PACKET_SIZE]. *)
Lemma zero_length_read_ends_loop (fuel : nat) (buffer : bytes) (n : Z)
    (s s' : socket) :
  len buffer < PACKET_SIZE ->
  recv s n = (Fragment [], s') ->
  receive_loop (S fuel) buffer n s
  = Some (if truthy buffer then Some buffer else None, s').
Proof.
  intros Hlt Hrecv. cbn [receive_loop].
  apply Z.ltb_lt in Hlt. rewrite Hlt, Hrecv. cbn [truthy negb].
  destruct (truthy buffer); reflexivity.
Qed.

(** ** The receive loop on a stream of non-empty segments *)

Lemma unread_inbound (more : bytes) (rest : list bytes) :
  match more with
  | [] => map Segment rest
  | _ => Segment more :: map Segment rest
  end = map Segment (unread more rest).
Proof. destruct more; reflexivity. Qed.

Lemma unread_concat (more : bytes) (rest : list bytes) :
  List.concat (unread more rest) = more ++ List.concat rest.
Proof. destruct more; reflexivity. Qed.

Lemma unread_nonempty (more : bytes) (rest : list bytes) :
  Forall (fun d => d <> []) rest -> Forall (fun d => d <> []) (unread more rest).
Proof. destruct more; simpl; auto. intros; constructor; [discriminate|assumption]. Qed.

Lemma recv_segment (s : socket) (data : bytes) (rest : list bytes) (n : Z) :
  inbound s = map Segment (data :: rest) ->
  recv s n =
  (Fragment (firstn (Z.to_nat n) data),
   with_inbound s (map Segment (unread (skipn (Z.to_nat n) data) rest))).
Proof.
  intros Hs. unfold recv. rewrite Hs. simpl. rewrite <- unread_inbound.
  destruct (skipn (Z.to_nat n) data); reflexivity.
Qed.

Lemma recv_closed (s : socket) (n : Z) :
  inbound s = [] -> recv s n = (Fragment [], s).
Proof. intros Hs. unfold recv. rewrite Hs. reflexivity. Qed.

Lemma receive_loop_segments (fuel : nat) :
  forall buffer segs s,
    inbound s = map Segment segs ->
    Forall (fun d => d <> []) segs ->
    len buffer <= PACKET_SIZE ->
    (Z.to_nat (PACKET_SIZE - len buffer) < fuel)%nat ->
    exists r segs',
      receive_loop fuel buffer (PACKET_SIZE - len buffer) s
      = Some (r, with_inbound s (map Segment segs'))
      /\ Forall (fun d => d <> []) segs'
      /\ loop_outcome buffer segs r segs'.
Proof.
  induction fuel as [|fuel IH]; intros buffer segs s Hs Hne Hle Hfuel; [lia|].
  cbn [receive_loop]. destruct (len buffer <? PACKET_SIZE) eqn:Hlt.
  - apply Z.ltb_lt in Hlt. destruct segs as [|data rest].
    + rewrite recv_closed by assumption. cbn [truthy negb].
      exists (if truthy buffer then Some buffer else None), [].
      rewrite <- Hs, with_inbound_same.
      destruct (truthy buffer) eqn:Hb; cbn [negb];
        (split; [reflexivity|split; [constructor|]]).
      * replace (Some buffer) with (Some (buffer ++ List.concat (@nil bytes)))
          by (simpl; rewrite app_nil_r; reflexivity).
        apply short_frame; simpl; rewrite app_nil_r; auto.
        apply truthy_true; assumption.
      * apply end_of_stream. simpl. rewrite app_nil_r.
        apply truthy_false; assumption.
    + rewrite (recv_segment s data rest) by assumption.
      inversion Hne as [|? ? Hdata Hrest]; subst.
      set (n := Z.to_nat (PACKET_SIZE - len buffer)).
      assert (Hn : (0 < n)%nat) by (unfold n; lia).
      assert (Hfrag : truthy (firstn n data) = true).
      { destruct data; [congruence|]. destruct n; [lia|reflexivity]. }
      rewrite Hfrag. cbn [negb].
      assert (Hlen : len (firstn n data) <= PACKET_SIZE - len buffer).
      { unfold len in *. rewrite length_firstn. unfold n. lia. }
      destruct (IH (buffer ++ firstn n data)
                  (unread (skipn n data) rest)
                  (with_inbound s (map Segment (unread (skipn n data) rest))))
        as (r & segs' & Hrun & Hne' & Hout).
      * reflexivity.
      * apply unread_nonempty; assumption.
      * rewrite len_app. lia.
      * rewrite len_app. apply truthy_len in Hfrag. lia.
      * exists r, segs'. split; [exact Hrun|]. split; [exact Hne'|].
        assert (Hcat : (buffer ++ firstn n data)
                       ++ List.concat (unread (skipn n data) rest)
                       = buffer ++ List.concat (data :: rest)).
        { rewrite unread_concat. simpl. rewrite <- app_assoc.
          rewrite (app_assoc (firstn n data)), firstn_skipn. reflexivity. }
        destruct Hout as [frame segs' Hf Heq | Hshort Hnz | Hnil].
        -- apply full_frame; [assumption|]. rewrite <- Hcat. assumption.
        -- rewrite Hcat in *. apply short_frame; assumption.
        -- rewrite Hcat in *. apply end_of_stream; assumption.
  - apply Z.ltb_ge in Hlt. exists (Some buffer), segs.
    rewrite <- Hs, with_inbound_same. repeat split; auto.
    apply full_frame; [lia|reflexivity].
Qed.

Lemma non_blocking_receive_audio_segments (self : Connection) (segs : list bytes) :
  inbound (conn self) = map Segment segs ->
  Forall (fun d => d <> []) segs ->
  exists r segs',
    non_blocking_receive_audio self
    = (r, with_conn self (with_inbound (conn self) (map Segment segs')))
    /\ Forall (fun d => d <> []) segs'
    /\ loop_outcome [] segs r segs'.
Proof.
  intros Hs Hne.
  destruct (receive_loop_segments receive_fuel [] segs (conn self) Hs Hne)
    as (r & segs' & Hrun & Hne' & Hout).
  - change (len (@nil byte)) with 0. rewrite PACKET_SIZE_value. lia.
  - unfold receive_fuel. rewrite PACKET_SIZE_value.
    change (len (@nil byte)) with 0. lia.
  - exists r, segs'. unfold non_blocking_receive_audio.
    change (len (@nil byte)) with 0 in Hrun. rewrite Z.sub_0_r in Hrun.
    rewrite Hrun. auto.
Qed.

Lemma receive_frames_segments (fuel : nat) :
  forall segs self,
    inbound (conn self) = map Segment segs ->
    Forall (fun d => d <> []) segs ->
    (List.length (List.concat segs) < fuel)%nat ->
    exists frames,
      receive_frames fuel self = Some frames
      /\ List.concat frames = List.concat segs
      /\ Forall (fun f => f <> []) frames
      /\ (forall pre f post,
            frames = pre ++ f :: post -> post <> [] -> len f = PACKET_SIZE).
Proof.
  induction fuel as [|fuel IH]; intros segs self Hs Hne Hfuel; [lia|].
  destruct (non_blocking_receive_audio_segments self segs Hs Hne)
    as (r & segs' & Hcall & Hne' & Hout).
  cbn [receive_frames]. rewrite Hcall.
  set (self' := with_conn self (with_inbound (conn self) (map Segment segs'))).
  assert (Hs' : inbound (conn self') = map Segment segs') by reflexivity.
  destruct Hout as [frame segs' Hlen Hcat | Hshort Hnz | Hnil];
    cbn [app] in *.
  - assert (Hpos : (0 < List.length frame)%nat)
      by (unfold len in Hlen; rewrite PACKET_SIZE_value in Hlen; lia).
    destruct (IH segs' self' Hs' Hne') as (frames & Hrun & Hcat' & Hnz & Hfull).
    { apply (f_equal (@List.length byte)) in Hcat.
      rewrite length_app in Hcat. lia. }
    rewrite Hrun. exists (frame :: frames). repeat split.
    + cbn [List.concat]. rewrite Hcat'. exact Hcat.
    + constructor; [|exact Hnz]. intros ->. simpl in Hpos. lia.
    + intros [|a pre] f post Heq Hpost; cbn [app] in Heq;
        injection Heq as -> ->; [exact Hlen|].
      apply (Hfull pre f post); auto.
  - destruct (IH [] self' Hs' (Forall_nil _)) as (frames & Hrun & Hcat' & Hnz' & _).
    { destruct (List.concat segs); [congruence|]. simpl in *. lia. }
    assert (frames = []) as ->.
    { destruct frames as [|f frames]; [reflexivity|].
      inversion Hnz' as [|? ? Hf _]; subst. simpl in Hcat'.
      destruct f; [congruence|discriminate]. }
    rewrite Hrun. exists [List.concat segs]. repeat split.
    + simpl. apply app_nil_r.
    + constructor; [assumption|constructor].
    + intros [|a pre] f post Heq Hpost; cbn [app] in Heq.
      * injection Heq as _ <-. elim Hpost. reflexivity.
      * destruct pre; discriminate.
  - exists []. repeat split; auto.
    intros [|a pre] f post Heq; discriminate.
Qed.

(** C1. Framing idempotence: when the peer's byte stream arrives as any
    sequence of non-empty fragments and then the close, calling
    [non_blocking_receive_audio] until it answers [None] terminates, the
    returned frames concatenate to the concatenation of the fragments, and
    every returned frame but the last is exactly [PACKET_SIZE] long. *)
Theorem framing_idempotence (self : Connection) (fragments : list bytes) :
  inbound (conn self) = map Segment fragments ->
  Forall (fun fragment => fragment <> []) fragments ->
  exists frames,
    receive_frames (S (List.length (List.concat fragments))) self = Some frames
    /\ List.concat frames = List.concat fragments
    /\ (forall pre frame post,
          frames = pre ++ frame :: post -> post <> [] ->
          len frame = PACKET_SIZE).
Proof.
  intros Hs Hne.
  destruct (receive_frames_segments (S (List.length (List.concat fragments)))
              fragments self Hs Hne) as (frames & Hrun & Hcat & _ & Hfull).
  - lia.
  - exists frames. auto.
Qed.

Lemma framing_idempotence_witness :
  inbound (conn (example_connection example_fragments))
  = map Segment example_fragments
  /\ Forall (fun fragment => fragment <> []) example_fragments
  /\ exists frames,
       receive_frames (S (List.length (List.concat example_fragments)))
         (example_connection example_fragments) = Some frames
       /\ List.concat frames = List.concat example_fragments
       /\ (forall pre frame post,
             frames = pre ++ frame :: post -> post <> [] ->
             len frame = PACKET_SIZE).
Proof.
  assert (Hne : Forall (fun fragment : bytes => fragment <> []) example_fragments)
    by (repeat constructor; discriminate).
  split; [reflexivity|]. split; [exact Hne|].
  apply (framing_idempotence (example_connection example_fragments)
           example_fragments); [reflexivity|exact Hne].
Defined.

(** Two seconds and a bit, arriving in three uneven segments: two calls
    return, the second with the short rest. *)
Example frames_of_uneven_segments :
  option_map (map (@len byte))
    (receive_frames 3
       (example_connection
          [repeat x01 (Z.to_nat 40000); repeat x02 (Z.to_nat 30000);
           [x03; x04]]))
  = Some [64000; 6002].
Proof. vm_compute. reflexivity. Qed.

(** When the peer closes before a full frame is there, the call returns what
    has accumulated, or [None] if that is nothing. *)
Lemma non_blocking_receive_audio_short (self : Connection) (segs : list bytes) :
  inbound (conn self) = map Segment segs ->
  Forall (fun d => d <> []) segs ->
  len (List.concat segs) < PACKET_SIZE ->
  non_blocking_receive_audio self
  = (if truthy (List.concat segs) then Some (List.concat segs) else None,
     with_conn self (with_inbound (conn self) [])).
Proof.
  intros Hs Hne Hshort.
  destruct (non_blocking_receive_audio_segments self segs Hs Hne)
    as (r & segs' & Hcall & _ & Hout).
  rewrite Hcall.
  destruct Hout as [frame segs' Hlen Hcat | _ Hnz | Hnil]; cbn [app] in *.
  - rewrite <- Hcat, len_app in Hshort.
    pose proof (len_nonneg (List.concat segs')). lia.
  - apply truthy_true in Hnz. rewrite Hnz. reflexivity.
  - apply truthy_false in Hnil. rewrite Hnil. reflexivity.
Qed.

(** ** Receiving leaves the outgoing direction alone *)

Lemma recv_channel (s s' : socket) (n : Z) (r : recv_result) :
  recv s n = (r, s') ->
  outbound s' = outbound s /\ write_faults s' = write_faults s.
Proof.
  unfold recv. destruct (inbound s) as [|[data| |] rest];
    intros [= <- <-]; split; reflexivity.
Qed.

Lemma receive_loop_channel (fuel : nat) :
  forall buffer n s r s',
    receive_loop fuel buffer n s = Some (r, s') ->
    outbound s' = outbound s /\ write_faults s' = write_faults s.
Proof.
  induction fuel as [|fuel IH]; intros buffer n s r s' Hrun; [discriminate|].
  cbn [receive_loop] in Hrun.
  destruct (len buffer <? PACKET_SIZE); [|injection Hrun as <- <-; auto].
  destruct (recv s n) as [[fragment| |] s1] eqn:Hrecv;
    apply recv_channel in Hrecv; destruct Hrecv as [Ho Hw];
    try (injection Hrun as <- <-; split; assumption).
  destruct (truthy fragment); cbn [negb] in Hrun.
  - apply IH in Hrun. destruct Hrun as [Ho' Hw']. split; congruence.
  - destruct (truthy buffer); cbn [negb] in Hrun;
      injection Hrun as <- <-; split; assumption.
Qed.

Lemma non_blocking_receive_audio_channel (self self' : Connection)
    (r : option bytes) :
  non_blocking_receive_audio self = (r, self') ->
  outbound (conn self') = outbound (conn self)
  /\ write_faults (conn self') = write_faults (conn self).
Proof.
  unfold non_blocking_receive_audio.
  destruct (receive_loop receive_fuel [] PACKET_SIZE (conn self))
    as [[r0 s]|] eqn:Hrun.
  - intros [= <- <-]. apply receive_loop_channel in Hrun. exact Hrun.
  - intros [= <- <-]. split; reflexivity.
Qed.

Lemma replace_occurs (a b : ascii) (s : string) :
  a <> b -> occurs a (replace a b s) = false.
Proof.
  intros Hab. induction s as [|c s IH]; [reflexivity|].
  cbn [replace occurs]. rewrite IH, orb_false_r.
  destruct (Ascii.eqb c a) eqn:Hc.
  - apply Ascii.eqb_neq. congruence.
  - exact Hc.
Qed.

(** ** [process] returns *)

Lemma recv_backlog (s s' : socket) (n : Z) (r : recv_result) :
  recv s n = (r, s') ->
  (backlog (inbound s') <= backlog (inbound s))%nat
  /\ (forall fragment, r = Fragment fragment -> fragment <> [] ->
       (backlog (inbound s') < backlog (inbound s))%nat).
Proof.
  unfold recv. destruct (inbound s) as [|[data| |] rest] eqn:Hs;
    intros Heq; injection Heq as <- <-; cbn [with_inbound inbound backlog];
    try (split; [lia|intros ? [=]; congruence]).
  - rewrite Hs. split; [cbn [backlog]; lia|]. intros ? [= <-]. congruence.
  - assert (Hskip := length_skipn (Z.to_nat n) data).
    split.
    + destruct (skipn (Z.to_nat n) data); cbn [backlog List.length] in *; lia.
    + intros fragment [= <-] Hne.
      assert (0 < Z.to_nat n)%nat
        by (destruct (Z.to_nat n); [simpl in Hne; congruence|lia]).
      assert (0 < List.length data)%nat
        by (destruct data; [rewrite firstn_nil in Hne; congruence|simpl; lia]).
      destruct (skipn (Z.to_nat n) data); cbn [backlog List.length] in *; lia.
Qed.

Lemma receive_loop_backlog (fuel : nat) :
  forall buffer n s r s',
    receive_loop fuel buffer n s = Some (r, s') ->
    (backlog (inbound s') <= backlog (inbound s))%nat
    /\ (buffer = [] -> r <> None ->
        (backlog (inbound s') < backlog (inbound s))%nat).
Proof.
  induction fuel as [|fuel IH]; intros buffer n s r s' Hrun; [discriminate|].
  cbn [receive_loop] in Hrun.
  destruct (len buffer <? PACKET_SIZE) eqn:Hlt.
  - destruct (recv s n) as [[fragment| |] s1] eqn:Hrecv;
      destruct (recv_backlog _ _ _ _ Hrecv) as [Hle Hstrict];
      try (injection Hrun as <- <-; split; [exact Hle|congruence]).
    destruct (truthy fragment) eqn:Hfr; cbn [negb] in Hrun.
    + apply IH in Hrun. destruct Hrun as [Hle' _].
      assert (backlog (inbound s1) < backlog (inbound s))%nat
        by (apply (Hstrict fragment); [reflexivity|apply truthy_true; assumption]).
      split; intros; lia.
    + destruct (truthy buffer) eqn:Hb; cbn [negb] in Hrun;
        injection Hrun as <- <-; split; try exact Hle; try congruence.
      intros ->. discriminate.
  - injection Hrun as <- <-. split; [lia|]. intros -> _.
    change (len (@nil byte)) with 0 in Hlt. rewrite PACKET_SIZE_value in Hlt.
    discriminate.
Qed.

Lemma non_blocking_receive_audio_backlog (self self' : Connection) (frame : bytes) :
  non_blocking_receive_audio self = (Some frame, self') ->
  (backlog (inbound (conn self')) < backlog (inbound (conn self)))%nat.
Proof.
  unfold non_blocking_receive_audio.
  destruct (receive_loop receive_fuel [] PACKET_SIZE (conn self))
    as [[r s]|] eqn:Hrun; [|discriminate].
  intros [= -> <-]. apply receive_loop_backlog in Hrun.
  cbn [with_conn conn]. apply Hrun; [reflexivity|discriminate].
Qed.

Section Session.

Context {R : Type} `{OnlineASRProcessor R}.

Lemma receive_audio_chunk_backlog (self self' : ServerProcessor R) (a : list Q) :
  receive_audio_chunk self = (Some a, self') ->
  (pending_input self' < pending_input self)%nat.
Proof.
  unfold receive_audio_chunk, pending_input.
  destruct (non_blocking_receive_audio (connection self)) as [[raw|] c] eqn:Hcall;
    [|discriminate].
  apply non_blocking_receive_audio_backlog in Hcall.
  destruct (negb (truthy raw)); [discriminate|].
  cbn [app truthy negb].
  destruct (is_first _ && _); [discriminate|].
  intros [= _ <-]. exact Hcall.
Qed.

Lemma send_result_inbound (self self' : ServerProcessor R) (o : transcript) :
  send_result self o = inl self' -> pending_input self' = pending_input self.
Proof.
  unfold send_result, pending_input.
  destruct (format_output_transcript self o) as [msg self1] eqn:Hfmt.
  assert (connection self1 = connection self) as Hc.
  { unfold format_output_transcript in Hfmt. destruct o;
      injection Hfmt as _ <-; reflexivity. }
  unfold send, send_one_line. rewrite Hc.
  destruct (write_faults (conn (connection self))) as [|[|] faults];
    intros [= <-]; reflexivity.
Qed.

Lemma process_body_backlog (self self' : ServerProcessor R) :
  process_body self = Continue self' ->
  (pending_input self' < pending_input self)%nat.
Proof.
  unfold process_body.
  destruct (receive_audio_chunk self) as [[a|] self1] eqn:Hrecv; [|discriminate].
  apply receive_audio_chunk_backlog in Hrecv.
  destruct (process_iter _) as [o r].
  destruct (send_result _ o) as [self2|self2] eqn:Hsend; [|discriminate].
  intros [= <-]. apply send_result_inbound in Hsend.
  unfold pending_input in *. cbn [with_online_asr_proc connection] in Hsend. lia.
Qed.

Lemma process_loop_total (fuel : nat) :
  forall self : ServerProcessor R,
    (pending_input self < fuel)%nat -> process_loop fuel self <> None.
Proof.
  induction fuel as [|fuel IH]; intros self Hfuel; [lia|].
  cbn [process_loop].
  destruct (process_body self) as [self'|self'] eqn:Hbody; [discriminate|].
  apply process_body_backlog in Hbody. apply IH. lia.
Qed.

(** The bound of [process] is never reached: the session ends with a state
    the loop has returned. *)
Lemma process_returns (self : ServerProcessor R) :
  let self0 := with_online_asr_proc self (init (online_asr_proc self)) in
  process_loop (S (pending_input self0)) self0 = Some (process self).
Proof.
  intros self0. unfold process. fold self0. unfold pending_input.
  destruct (process_loop _ self0) eqn:Hrun; [reflexivity|].
  exfalso. revert Hrun. apply process_loop_total. unfold pending_input. lia.
Qed.

Lemma receive_audio_chunk_closed (self : ServerProcessor R) :
  inbound (conn (connection self)) = [] ->
  receive_audio_chunk self
  = (None, with_connection self
             (with_conn (connection self)
                (with_inbound (conn (connection self)) []))).
Proof.
  intros Hs. unfold receive_audio_chunk.
  rewrite (non_blocking_receive_audio_short (connection self) [] Hs
             (Forall_nil _)) by (rewrite PACKET_SIZE_value; reflexivity).
  reflexivity.
Qed.

Lemma process_closed (self : ServerProcessor R) :
  inbound (conn (connection self)) = [] ->
  outbound (conn (connection (process self))) = outbound (conn (connection self))
  /\ online_asr_proc (process self) = init (online_asr_proc self).
Proof.
  intros Hs. unfold process.
  cbn [with_online_asr_proc connection]. rewrite Hs. cbn [backlog process_loop].
  unfold process_body. rewrite receive_audio_chunk_closed by exact Hs.
  split; reflexivity.
Qed.

(** C6. End of stream in the reassembler: when the peer closes before a full
    frame has arrived, the read that returns zero bytes makes
    [non_blocking_receive_audio] answer [None] if nothing has accumulated and
    else the accumulated buffer, which is shorter than [PACKET_SIZE] and not
    empty; a close before any byte gives [None] at once and [process] sends
    no line. *)
Theorem reassembler_end_of_stream (self : ServerProcessor R) (segs : list bytes) :
  inbound (conn (connection self)) = map Segment segs ->
  Forall (fun d => d <> []) segs ->
  len (List.concat segs) < PACKET_SIZE ->
  let buffer := List.concat segs in
  (buffer = [] -> fst (non_blocking_receive_audio (connection self)) = None)
  /\ (buffer <> [] ->
      fst (non_blocking_receive_audio (connection self)) = Some buffer
      /\ 0 < len buffer < PACKET_SIZE)
  /\ (segs = [] ->
      fst (non_blocking_receive_audio (connection self)) = None
      /\ outbound (conn (connection (process self)))
         = outbound (conn (connection self))).
Proof.
  intros Hs Hne Hshort buffer.
  pose proof (non_blocking_receive_audio_short _ segs Hs Hne Hshort) as Hcall.
  fold buffer in Hcall. rewrite Hcall. cbn [fst].
  split; [|split].
  - intros ->. reflexivity.
  - intros Hb. apply truthy_true in Hb. rewrite Hb.
    split; [reflexivity|]. split; [|exact Hshort].
    apply truthy_len. exact Hb.
  - intros Hnil. subst segs. split; [reflexivity|].
    apply process_closed. exact Hs.
Qed.

(** ** The interval rewriting of [format_output_transcript] *)

Example format_1_0f_rounds :
  map format_1_0f [1720 # 1; 5 # 2; 7 # 2; 1 # 2; 12345678 # 1000; - 3 # 10]
  = ["1720"; "2"; "4"; "0"; "12346"; "-0"]%string.
Proof. vm_compute. reflexivity. Qed.

Lemma Qlt_bool_iff (a b : Q) : Qlt_bool a b = true <-> (a < b)%Q.
Proof.
  unfold Qlt_bool. rewrite negb_true_iff. split.
  - intros Hle. apply Qnot_le_lt. intros Hba.
    apply Qle_bool_iff in Hba. congruence.
  - intros Hlt. destruct (Qle_bool b a) eqn:Hle; [|reflexivity].
    apply Qle_bool_iff in Hle. exfalso. exact (Qlt_not_le _ _ Hlt Hle).
Qed.

Lemma py_max_lt (a b : Q) : (a < b)%Q -> py_max a b = b.
Proof. intros Hlt. unfold py_max. apply Qlt_bool_iff in Hlt. rewrite Hlt. reflexivity. Qed.

Lemma py_max_ge_r (a b : Q) : (b <= py_max a b)%Q.
Proof.
  unfold py_max, Qlt_bool. destruct (Qle_bool b a) eqn:Hle; cbn [negb].
  - apply Qle_bool_iff. exact Hle.
  - apply Qle_refl.
Qed.

Lemma py_max_ge_l (a b : Q) : (a <= py_max a b)%Q.
Proof.
  unfold py_max. destruct (Qlt_bool a b) eqn:Hlt.
  - apply Qlt_le_weak. apply Qlt_bool_iff. exact Hlt.
  - apply Qle_refl.
Qed.

(** The printed line is the formatting of the emitted interval. *)
Lemma format_output_transcript_line (self : ServerProcessor R)
    (beg end_ : Q) (text : string) :
  exists b e,
    emitted_interval self (Text beg end_ text) = Some (b, e)
    /\ format_output_transcript self (Text beg end_ text)
       = ((format_1_0f b ++ " " ++ format_1_0f e ++ " " ++ text)%string,
          with_last_end self e).
Proof.
  unfold emitted_interval, format_output_transcript.
  destruct (last_end self); eexists; eexists; split; reflexivity.
Qed.

Lemma emitted_intervals_ordered (os : list transcript) :
  forall self : ServerProcessor R,
    begins_after (last_end self) (emitted_intervals self os)
    /\ (forall pre i j post,
          emitted_intervals self os = pre ++ i :: j :: post ->
          (snd i <= fst j)%Q).
Proof.
  induction os as [|o os IH]; intros self.
  - split.
    + unfold begins_after. cbn [emitted_intervals]. destruct (last_end self); exact I.
    + intros [|a [|b pre]] i j post Heq; discriminate.
  - destruct o as [|beg end_ text].
    + cbn [emitted_intervals emitted_interval format_output_transcript snd].
      apply IH.
    + cbn [emitted_intervals emitted_interval format_output_transcript snd].
      destruct (IH (with_last_end self (end_ * 1000)%Q)) as [Hfirst Hchain].
      split.
      * unfold begins_after. destruct (last_end self) as [previous|]; [|exact I].
        cbn [fst]. apply py_max_ge_r.
      * intros [|a pre] i j post Heq; cbn [app] in Heq.
        -- injection Heq as <- Hrest. cbn [snd].
           rewrite Hrest in Hfirst. exact Hfirst.
        -- injection Heq as _ Hrest. exact (Hchain pre i j post Hrest).
Qed.

(** C2. Non-overlap clamp: when the recognizer's begin time, in milliseconds,
    lies before [last_end], the emitted interval begins at the previous
    [last_end] and ends at the recognizer's end time; and of two consecutive
    intervals emitted in one session the later begins at or after the end of
    the earlier. *)
Theorem non_overlap_clamp (self : ServerProcessor R)
    (beg end_ : Q) (text : string) (previous : Q) :
  last_end self = Some previous ->
  (beg * 1000 < previous)%Q ->
  format_output_transcript self (Text beg end_ text)
  = ((format_1_0f previous ++ " " ++ format_1_0f (end_ * 1000) ++ " "
      ++ text)%string,
     with_last_end self (end_ * 1000)%Q)
  /\ emitted_interval self (Text beg end_ text)
     = Some (previous, (end_ * 1000)%Q)
  /\ (forall os pre i j post,
        emitted_intervals self os = pre ++ i :: j :: post ->
        (snd i <= fst j)%Q).
Proof.
  intros Hlast Hlt. unfold format_output_transcript, emitted_interval.
  rewrite Hlast, (py_max_lt _ _ Hlt).
  split; [reflexivity|]. split; [reflexivity|].
  intros os. apply emitted_intervals_ordered.
Qed.

(** C10. [last_end] always becomes the recognizer's end time, whatever the
    begin was clamped to: hence an output that ends before the current
    [last_end] is emitted as an interval whose end lies before its begin,
    and [last_end] decreases. *)
Theorem last_end_is_raw_end (self : ServerProcessor R)
    (beg end_ : Q) (text : string) (previous : Q) :
  last_end self = Some previous ->
  (end_ * 1000 < previous)%Q ->
  (forall (self0 : ServerProcessor R) b0 e0 t0,
      last_end (snd (format_output_transcript self0 (Text b0 e0 t0)))
      = Some (e0 * 1000)%Q)
  /\ exists b,
      format_output_transcript self (Text beg end_ text)
      = ((format_1_0f b ++ " " ++ format_1_0f (end_ * 1000) ++ " "
          ++ text)%string,
         with_last_end self (end_ * 1000)%Q)
      /\ emitted_interval self (Text beg end_ text) = Some (b, (end_ * 1000)%Q)
      /\ (end_ * 1000 < b)%Q
      /\ exists e',
          last_end (snd (format_output_transcript self (Text beg end_ text)))
          = Some e'
          /\ (e' < previous)%Q.
Proof.
  intros Hlast Hlt. split; [reflexivity|].
  exists (py_max (beg * 1000) previous).
  unfold format_output_transcript, emitted_interval. rewrite Hlast.
  split; [reflexivity|]. split; [reflexivity|]. split.
  - apply Qlt_le_trans with previous; [assumption|apply py_max_ge_r].
  - exists (end_ * 1000)%Q. split; [reflexivity|assumption].
Qed.

(** ** One iteration of [process] *)

Lemma receive_audio_chunk_keeps (self self1 : ServerProcessor R)
    (a : option (list Q)) :
  receive_audio_chunk self = (a, self1) ->
  outbound (conn (connection self1)) = outbound (conn (connection self))
  /\ write_faults (conn (connection self1)) = write_faults (conn (connection self))
  /\ online_asr_proc self1 = online_asr_proc self
  /\ last_end self1 = last_end self.
Proof.
  unfold receive_audio_chunk.
  destruct (non_blocking_receive_audio (connection self)) as [raw c] eqn:Hcall.
  apply non_blocking_receive_audio_channel in Hcall. destruct Hcall as [Ho Hw].
  destruct raw as [raw|]; [|intros [= <- <-]; auto].
  destruct (negb (truthy raw)); [intros [= <- <-]; auto|].
  cbn [app truthy negb].
  destruct (is_first _ && _); intros [= <- <-]; auto.
Qed.

(** C7. One message per processed frame: an iteration of [process] that
    hands a frame to the recognizer writes, unless the write itself fails,
    exactly one message to the peer; the message is one line closed by a
    newline, the formatted interval when the recognizer returns one and
    [No input] when it returns none. *)
Theorem one_message_per_frame (self self1 : ServerProcessor R)
    (a : list Q) (o : transcript) (r : R) :
  receive_audio_chunk self = (Some a, self1) ->
  process_iter (insert_audio_chunk (online_asr_proc self1) a) = (o, r) ->
  hd false (write_faults (conn (connection self))) = false ->
  exists self' line,
    process_body self = Continue self'
    /\ outbound (conn (connection self'))
       = outbound (conn (connection self)) ++ [(line ++ newline)%string]
    /\ occurs LF line = false
    /\ line = replace LF " " (fst (format_output_transcript self1 o))
    /\ (o = NoText -> line = "No input"%string)
    /\ (forall beg end_ text, o = Text beg end_ text ->
        exists b e,
          emitted_interval self1 o = Some (b, e)
          /\ line = replace LF " "
                      (format_1_0f b ++ " " ++ format_1_0f e ++ " " ++ text)).
Proof.
  intros Hrecv Hiter Hwrite.
  destruct (receive_audio_chunk_keeps _ _ _ Hrecv) as (Ho & Hw & _ & _).
  set (self2 := with_online_asr_proc self1 r).
  assert (Hfmt : exists self3,
             format_output_transcript self2 o
             = (fst (format_output_transcript self1 o), self3)
             /\ connection self3 = connection self1).
  { destruct o; cbn [format_output_transcript fst];
      eexists; split; reflexivity. }
  destruct Hfmt as (self3 & Hfmt & Hc).
  set (line := replace LF " " (fst (format_output_transcript self1 o))) in *.
  assert (Hsend : exists c,
             send (connection self3) line = Some c
             /\ outbound (conn c)
                = outbound (conn (connection self)) ++ [(line ++ newline)%string]).
  { unfold send, send_one_line. rewrite Hc, Hw, Ho.
    destruct (write_faults (conn (connection self))) as [|[|] faults];
      [|discriminate|]; eexists; split; reflexivity. }
  destruct Hsend as (c & Hsend & Hout).
  exists (with_connection self3 c), line.
  split; [|split; [exact Hout|split; [|split; [reflexivity|split]]]].
  - unfold process_body. rewrite Hrecv.
    cbn [with_online_asr_proc online_asr_proc]. rewrite Hiter.
    change (with_online_asr_proc
              (with_online_asr_proc self1
                 (insert_audio_chunk (online_asr_proc self1) a)) r)
      with self2.
    unfold send_result. rewrite Hfmt. fold line. rewrite Hsend.
    reflexivity.
  - apply replace_occurs. discriminate.
  - intros ->. reflexivity.
  - intros beg end_ text ->.
    destruct (format_output_transcript_line self1 beg end_ text)
      as (b & e & Hem & Hline).
    exists b, e. split; [exact Hem|]. unfold line. rewrite Hline. reflexivity.
Qed.

(** When the write fails the iteration ends the session. *)
Lemma failed_write_ends_session (self self1 : ServerProcessor R)
    (a : list Q) (faults : list bool) :
  receive_audio_chunk self = (Some a, self1) ->
  write_faults (conn (connection self)) = true :: faults ->
  exists self', process_body self = Break self'
    /\ outbound (conn (connection self')) = outbound (conn (connection self)).
Proof.
  intros Hrecv Hwrite.
  destruct (receive_audio_chunk_keeps _ _ _ Hrecv) as (Ho & Hw & _ & _).
  unfold process_body. rewrite Hrecv.
  destruct (process_iter _) as [o r].
  unfold send_result, send, send_one_line.
  destruct o; cbn [format_output_transcript with_last_end with_online_asr_proc
                   connection]; rewrite Hw, Hwrite;
    eexists; (split; [reflexivity|exact Ho]).
Qed.

(** ** The first frame and [min_chunk] *)

(** A first frame with fewer samples than [min_chunk] seconds makes
    [receive_audio_chunk] return [None], on which [process] leaves its loop:
    nothing is kept for a later frame. *)
Lemma short_first_frame_ends_session (self : ServerProcessor R)
    (raw_bytes : bytes) (c : Connection) :
  non_blocking_receive_audio (connection self) = (Some raw_bytes, c) ->
  is_first self = true ->
  (inject_Z (len (load raw_bytes)) < min_chunk self * inject_Z SAMPLING_RATE)%Q ->
  process_body self = Break (with_connection self c).
Proof.
  intros Hcall Hfirst Hshort. unfold process_body, receive_audio_chunk.
  rewrite Hcall. destruct (negb (truthy raw_bytes)); [reflexivity|].
  cbn [app truthy negb List.concat with_connection is_first min_chunk].
  rewrite app_nil_r, Hfirst. apply Qlt_bool_iff in Hshort. rewrite Hshort.
  reflexivity.
Qed.

End Session.

(** ** The statements on concrete sessions *)

Lemma reassembler_end_of_stream_witness :
  (let self := example_session [] [] 1 in
   let segs := @nil bytes in
   inbound (conn (connection self)) = map Segment segs
   /\ Forall (fun d => d <> []) segs
   /\ len (List.concat segs) < PACKET_SIZE
   /\ (segs = [] ->
       fst (non_blocking_receive_audio (connection self)) = None
       /\ outbound (conn (connection (process self)))
          = outbound (conn (connection self))))
  /\ (let self := example_session [[x01]; [x02; x03]] [] 1 in
      let segs := [[x01]; [x02; x03]] in
      inbound (conn (connection self)) = map Segment segs
      /\ Forall (fun d => d <> []) segs
      /\ len (List.concat segs) < PACKET_SIZE
      /\ (List.concat segs <> [] ->
          fst (non_blocking_receive_audio (connection self))
          = Some (List.concat segs)
          /\ 0 < len (List.concat segs) < PACKET_SIZE)).
Proof.
  split.
  - assert (Hne : Forall (fun d : bytes => d <> []) []) by constructor.
    split; [reflexivity|]. split; [exact Hne|]. split; [reflexivity|].
    apply (reassembler_end_of_stream (example_session [] [] 1) []
             eq_refl Hne eq_refl).
  - assert (Hne : Forall (fun d : bytes => d <> []) [[x01]; [x02; x03]])
      by (repeat constructor; discriminate).
    split; [reflexivity|]. split; [exact Hne|]. split; [reflexivity|].
    apply (reassembler_end_of_stream
             (example_session [[x01]; [x02; x03]] [] 1) [[x01]; [x02; x03]]
             eq_refl Hne eq_refl).
Defined.

Lemma non_overlap_clamp_witness :
  last_end streaming_session = Some 2000%Q
  /\ ((19 # 10) * 1000 < 2000)%Q
  /\ format_output_transcript streaming_session (Text (19 # 10) (5 # 2) "hello")
     = ((format_1_0f 2000 ++ " " ++ format_1_0f ((5 # 2) * 1000) ++ " "
         ++ "hello")%string,
        with_last_end streaming_session ((5 # 2) * 1000)%Q)
  /\ emitted_interval streaming_session (Text (19 # 10) (5 # 2) "hello")
     = Some (2000%Q, ((5 # 2) * 1000)%Q)
  /\ (forall os pre i j post,
        emitted_intervals streaming_session os = pre ++ i :: j :: post ->
        (snd i <= fst j)%Q).
Proof.
  assert (Hlt : ((19 # 10) * 1000 < 2000)%Q) by reflexivity.
  split; [reflexivity|]. split; [exact Hlt|].
  apply (non_overlap_clamp streaming_session (19 # 10) (5 # 2) "hello" 2000
           eq_refl Hlt).
Defined.

(** The line of the clamped interval, as it is written. *)
Example clamped_line :
  fst (format_output_transcript streaming_session (Text (19 # 10) (5 # 2) "hello"))
  = "2000 2500 hello"%string.
Proof. vm_compute. reflexivity. Qed.

Lemma last_end_is_raw_end_witness :
  last_end streaming_session = Some 2000%Q
  /\ ((3 # 2) * 1000 < 2000)%Q
  /\ (forall (self0 : ServerProcessor scripted) b0 e0 t0,
        last_end (snd (format_output_transcript self0 (Text b0 e0 t0)))
        = Some (e0 * 1000)%Q)
  /\ exists b,
      format_output_transcript streaming_session (Text 1 (3 # 2) "hello")
      = ((format_1_0f b ++ " " ++ format_1_0f ((3 # 2) * 1000) ++ " "
          ++ "hello")%string,
         with_last_end streaming_session ((3 # 2) * 1000)%Q)
      /\ emitted_interval streaming_session (Text 1 (3 # 2) "hello")
         = Some (b, ((3 # 2) * 1000)%Q)
      /\ ((3 # 2) * 1000 < b)%Q
      /\ exists e',
          last_end (snd (format_output_transcript streaming_session
                           (Text 1 (3 # 2) "hello")))
          = Some e'
          /\ (e' < 2000)%Q.
Proof.
  assert (Hlt : ((3 # 2) * 1000 < 2000)%Q) by reflexivity.
  split; [reflexivity|]. split; [exact Hlt|].
  apply (last_end_is_raw_end streaming_session 1 (3 # 2) "hello" 2000
           eq_refl Hlt).
Defined.

(** The line of the inverted interval, as it is written: it begins at 2000
    and ends at 1500. *)
Example inverted_line :
  format_output_transcript streaming_session (Text 1 (3 # 2) "hello")
  = ("2000 1500 hello"%string,
     with_last_end streaming_session ((3 # 2) * 1000)%Q).
Proof. vm_compute. reflexivity. Qed.

Lemma one_message_per_frame_witness :
  exists a self1 o r,
    receive_audio_chunk short_session = (Some a, self1)
    /\ process_iter (insert_audio_chunk (online_asr_proc self1) a) = (o, r)
    /\ hd false (write_faults (conn (connection short_session))) = false
    /\ exists self' line,
        process_body short_session = Continue self'
        /\ outbound (conn (connection self'))
           = outbound (conn (connection short_session))
             ++ [(line ++ newline)%string]
        /\ occurs LF line = false
        /\ line = replace LF " " (fst (format_output_transcript self1 o))
        /\ (o = NoText -> line = "No input"%string)
        /\ (forall beg end_ text, o = Text beg end_ text ->
            exists b e,
              emitted_interval self1 o = Some (b, e)
              /\ line = replace LF " "
                          (format_1_0f b ++ " " ++ format_1_0f e ++ " " ++ text)).
Proof.
  assert (Hrecv : receive_audio_chunk short_session
                  = (fst (receive_audio_chunk short_session),
                     snd (receive_audio_chunk short_session)))
    by apply surjective_pairing.
  assert (Ha : fst (receive_audio_chunk short_session) = Some [sample x01 x02])
    by (vm_compute; reflexivity).
  rewrite Ha in Hrecv.
  exists [sample x01 x02], (snd (receive_audio_chunk short_session)).
  eexists. eexists.
  assert (Hiter : process_iter
                    (insert_audio_chunk
                       (online_asr_proc (snd (receive_audio_chunk short_session)))
                       [sample x01 x02])
                  = (Text 0 1 "a", {| script := []; heard := 1 |}))
    by (vm_compute; reflexivity).
  split; [exact Hrecv|]. split; [exact Hiter|]. split; [reflexivity|].
  apply (one_message_per_frame short_session _ _ _ _ Hrecv Hiter eq_refl).
Defined.

(** The messages of a session of three frames, the second without text. *)
Example three_frames_three_messages :
  outbound (conn (connection (process
    (example_session [two_seconds x01; two_seconds x02; two_seconds x03]
       [Text 0 1 "a"; NoText; Text (1 # 2) (3 # 2) "b"] 1))))
  = [("0 1000 a" ++ newline)%string;
     ("No input" ++ newline)%string;
     ("1000 1500 b" ++ newline)%string].
Proof. vm_compute. reflexivity. Qed.

(** C4, on the code: with [min_chunk] at three seconds and three frames of
    two seconds on the way, [process] ends at the first frame: no line is
    sent, the recognizer has heard nothing, the session is still at its
    first frame and two frames are left unread. *)
Theorem warming_up_ends_session :
  let self := process
    (example_session [two_seconds x01; two_seconds x02; two_seconds x03]
       [Text 0 1 "a"; Text 2 3 "b"; Text 4 5 "c"] 3) in
  outbound (conn (connection self)) = []
  /\ heard (online_asr_proc self) = 0
  /\ is_first self = true
  /\ len (inbound (conn (connection self))) = 2.
Proof. vm_compute. repeat split; reflexivity. Qed.

(** * Further properties of the server *)

(** ** The size of a returned frame *)

Lemma recv_fragment_len (s s' : socket) (n : Z) (fragment : bytes) :
  recv s n = (Fragment fragment, s') -> 0 <= n -> len fragment <= n.
Proof.
  unfold recv. destruct (inbound s) as [|[data| |] rest]; intros [= <- <-] Hn.
  - exact Hn.
  - unfold len. rewrite length_firstn. lia.
Qed.

Lemma receive_loop_frame_len (fuel : nat) :
  forall buffer s frame s',
    len buffer <= PACKET_SIZE ->
    receive_loop fuel buffer (PACKET_SIZE - len buffer) s = Some (Some frame, s') ->
    0 < len frame <= PACKET_SIZE.
Proof.
  induction fuel as [|fuel IH]; intros buffer s frame s' Hle Hrun; [discriminate|].
  cbn [receive_loop] in Hrun.
  destruct (len buffer <? PACKET_SIZE) eqn:Hlt.
  - apply Z.ltb_lt in Hlt.
    destruct (recv s (PACKET_SIZE - len buffer)) as [[fragment| |] s1] eqn:Hrecv;
      try discriminate.
    apply recv_fragment_len in Hrecv; [|lia].
    destruct (truthy fragment) eqn:Hfr; cbn [negb] in Hrun.
    + apply IH in Hrun; [exact Hrun|]. rewrite len_app. lia.
    + destruct (truthy buffer) eqn:Hb; cbn [negb] in Hrun; [|discriminate].
      injection Hrun as <- <-. apply truthy_len in Hb. lia.
  - apply Z.ltb_ge in Hlt. injection Hrun as <- <-.
    rewrite PACKET_SIZE_value in *. lia.
Qed.

(** X1. Whatever the socket delivers (segments of any size, empty reads,
    resets), a frame returned by [non_blocking_receive_audio] is never empty
    and never longer than [PACKET_SIZE]: the call asks the socket for the
    missing bytes only. *)
Theorem returned_frame_size (self : Connection) :
  match fst (non_blocking_receive_audio self) with
  | Some frame => 0 < len frame <= PACKET_SIZE
  | None => True
  end.
Proof.
  unfold non_blocking_receive_audio.
  destruct (receive_loop receive_fuel [] PACKET_SIZE (conn self))
    as [[[frame|] s]|] eqn:Hrun; cbn [fst]; try exact I.
  apply (receive_loop_frame_len receive_fuel [] (conn self) frame s).
  - rewrite PACKET_SIZE_value. change (len (@nil byte)) with 0. lia.
  - change (len (@nil byte)) with 0. rewrite Z.sub_0_r. exact Hrun.
Qed.

(** ** A reset in the middle of a frame *)

Lemma recv_whole_segment (s : socket) (data : bytes) (rest : list arrival)
    (n : Z) :
  inbound s = Segment data :: rest ->
  len data <= n ->
  recv s n = (Fragment data, with_inbound s rest).
Proof.
  intros Hs Hle. unfold recv. rewrite Hs. unfold len in Hle.
  rewrite firstn_all2, skipn_all2 by lia. reflexivity.
Qed.

Lemma receive_loop_aborted (segs : list bytes) :
  forall fuel buffer s abort rest,
    inbound s = map Segment segs ++ abort :: rest ->
    abort = Reset \/ abort = Failure ->
    Forall (fun d => d <> []) segs ->
    len (buffer ++ List.concat segs) < PACKET_SIZE ->
    (List.length segs < fuel)%nat ->
    receive_loop fuel buffer (PACKET_SIZE - len buffer) s
    = Some (None, with_inbound s rest).
Proof.
  induction segs as [|data segs IH];
    intros fuel buffer s abort rest Hs Habort Hne Hshort Hfuel;
    (destruct fuel as [|fuel]; [simpl in Hfuel; lia|]);
    cbn [receive_loop]; rewrite len_app in Hshort;
    pose proof (len_nonneg buffer) as Hposb.
  - cbn [List.concat] in Hshort. change (len (@nil byte)) with 0 in Hshort.
    assert (Hlt : (len buffer <? PACKET_SIZE) = true) by (apply Z.ltb_lt; lia).
    rewrite Hlt. unfold recv. rewrite Hs. cbn [map app].
    destruct Habort as [-> | ->]; reflexivity.
  - cbn [List.concat] in Hshort. rewrite len_app in Hshort.
    pose proof (len_nonneg (List.concat segs)) as Hpos.
    pose proof (len_nonneg data) as Hposd.
    assert (Hlt : (len buffer <? PACKET_SIZE) = true) by (apply Z.ltb_lt; lia).
    rewrite Hlt.
    rewrite (recv_whole_segment s data (map Segment segs ++ abort :: rest))
      by (assumption || lia).
    inversion Hne as [|? ? Hdata Hrest]; subst.
    apply truthy_true in Hdata. rewrite Hdata. cbn [negb].
    rewrite (IH fuel (buffer ++ data)
               (with_inbound s (map Segment segs ++ abort :: rest)) abort rest);
      try assumption; try reflexivity.
    + rewrite <- app_assoc. rewrite !len_app. lia.
    + simpl in Hfuel. lia.
Qed.

(** X2. A connection reset, or any other socket error, in the middle of a
    frame makes [non_blocking_receive_audio] return [None]: the bytes it has
    already taken from the socket are dropped, where a close at the same
    place would have returned them as a short frame. *)
Theorem reset_drops_partial_frame (self : Connection) (segs : list bytes)
    (abort : arrival) (rest : list arrival) :
  inbound (conn self) = map Segment segs ++ abort :: rest ->
  abort = Reset \/ abort = Failure ->
  Forall (fun d => d <> []) segs ->
  len (List.concat segs) < PACKET_SIZE ->
  non_blocking_receive_audio self
  = (None, with_conn self (with_inbound (conn self) rest)).
Proof.
  intros Hs Habort Hne Hshort. unfold non_blocking_receive_audio.
  change PACKET_SIZE with (PACKET_SIZE - len (@nil byte)) at 1.
  rewrite (receive_loop_aborted segs receive_fuel [] (conn self) abort rest);
    try assumption; [reflexivity|].
  unfold receive_fuel. rewrite PACKET_SIZE_value.
  assert (Hlen : len segs <= len (List.concat segs)).
  { clear - Hne. induction Hne as [|d segs Hd _ IH]; [reflexivity|].
    cbn [List.concat]. rewrite len_app. unfold len in *. cbn [List.length].
    destruct d; [congruence|]. cbn [List.length]. lia. }
  rewrite PACKET_SIZE_value in Hshort. unfold len in *. lia.
Qed.

Lemma reset_drops_partial_frame_witness :
  let self := aborted_connection in
  inbound (conn self) = map Segment [[x01; x02]; [x03]] ++ Reset :: []
  /\ (Reset = Reset \/ Reset = Failure)
  /\ Forall (fun d => d <> []) [[x01; x02]; [x03]]
  /\ len (List.concat [[x01; x02]; [x03]]) < PACKET_SIZE
  /\ non_blocking_receive_audio self
     = (None, with_conn self (with_inbound (conn self) [])).
Proof.
  assert (Hne : Forall (fun d : bytes => d <> []) [[x01; x02]; [x03]])
    by (repeat constructor; discriminate).
  split; [reflexivity|]. split; [left; reflexivity|]. split; [exact Hne|].
  split; [reflexivity|].
  apply (reset_drops_partial_frame aborted_connection [[x01; x02]; [x03]] Reset []
           eq_refl (or_introl eq_refl) Hne eq_refl).
Defined.

(** ** A whole session *)

Lemma load_length (raw_bytes : bytes) :
  2 * len (load raw_bytes) <= len raw_bytes <= 2 * len (load raw_bytes) + 1.
Proof.
  assert (H : forall raw,
             (2 * len (load raw) <= len raw <= 2 * len (load raw) + 1)
             /\ forall b,
                 2 * len (load (b :: raw)) <= len (b :: raw)
                 <= 2 * len (load (b :: raw)) + 1).
  { induction raw as [|a raw [IH1 IH2]].
    - split; [|intros b]; unfold len; simpl; lia.
    - split; [apply IH2|]. intros b. cbn [load]. unfold len in *.
      cbn [List.length]. lia. }
  apply H.
Qed.

Lemma backlog_segments (segs : list bytes) :
  backlog (map Segment segs)
  = (List.length segs + List.length (List.concat segs))%nat.
Proof.
  induction segs as [|d segs IH]; [reflexivity|].
  cbn [map backlog List.concat List.length]. rewrite IH, length_app. lia.
Qed.

Section WholeSession.

Context {R : Type} `{OnlineASRProcessor R}.

Lemma full_frame_accepted (self : ServerProcessor R) (frame : bytes) :
  len frame = PACKET_SIZE -> (min_chunk self <= 2)%Q -> accepted self frame.
Proof.
  intros Hlen Hmin. unfold accepted.
  destruct (Qlt_bool _ _) eqn:Hlt; [|apply andb_false_r].
  exfalso. apply Qlt_bool_iff in Hlt. apply (Qlt_not_le _ _ Hlt).
  pose proof (load_length frame) as Hload.
  rewrite Hlen, PACKET_SIZE_value in Hload.
  assert (len (load frame) = 32000) as -> by lia.
  apply Qle_trans with (2 * inject_Z SAMPLING_RATE)%Q.
  - apply Qmult_le_compat_r; [exact Hmin|discriminate].
  - discriminate.
Qed.

Lemma process_body_frame (self : ServerProcessor R) (frame : bytes)
    (c : Connection) :
  non_blocking_receive_audio (connection self) = (Some frame, c) ->
  frame <> [] ->
  accepted self frame ->
  write_faults (conn c) = [] ->
  exists self',
    process_body self = Continue self'
    /\ inbound (conn (connection self')) = inbound (conn c)
    /\ write_faults (conn (connection self')) = []
    /\ len (outbound (conn (connection self'))) = len (outbound (conn c)) + 1
    /\ chunk_num self' = chunk_num self + 1
    /\ is_first self' = false
    /\ min_chunk self' = min_chunk self.
Proof.
  intros Hcall Hne Hacc Hw. unfold process_body, receive_audio_chunk.
  rewrite Hcall. apply truthy_true in Hne. rewrite Hne.
  cbn [negb app truthy List.concat with_connection is_first min_chunk].
  rewrite app_nil_r. unfold accepted in Hacc. rewrite Hacc.
  cbn [count_chunk with_online_asr_proc online_asr_proc].
  destruct (process_iter _) as [o r].
  unfold send_result, send, send_one_line.
  destruct o;
    cbn [format_output_transcript with_last_end with_online_asr_proc
         count_chunk with_connection connection];
    rewrite Hw; eexists; (split; [reflexivity|]);
    cbn [with_connection connection conn inbound write_faults outbound
         chunk_num is_first min_chunk tl];
    rewrite len_app; repeat split; reflexivity.
Qed.

Lemma process_loop_stream (fuel : nat) :
  forall (segs : list bytes) (self : ServerProcessor R),
    inbound (conn (connection self)) = map Segment segs ->
    Forall (fun d => d <> []) segs ->
    write_faults (conn (connection self)) = [] ->
    is_first self = false
    \/ ((min_chunk self <= 2)%Q
        /\ (List.concat segs = [] \/ PACKET_SIZE <= len (List.concat segs))) ->
    (List.length (List.concat segs) < fuel)%nat ->
    exists self',
      process_loop fuel self = Some self'
      /\ len (outbound (conn (connection self')))
         = len (outbound (conn (connection self)))
           + (len (List.concat segs) + PACKET_SIZE - 1) / PACKET_SIZE
      /\ chunk_num self'
         = chunk_num self
           + (len (List.concat segs) + PACKET_SIZE - 1) / PACKET_SIZE
      /\ inbound (conn (connection self')) = [].
Proof.
  induction fuel as [|fuel IH]; intros segs self Hs Hne Hw Hfirst Hfuel; [lia|].
  destruct (non_blocking_receive_audio_segments (connection self) segs Hs Hne)
    as (r & segs' & Hcall & Hne' & Hout).
  set (c := with_conn (connection self)
              (with_inbound (conn (connection self)) (map Segment segs'))) in *.
  assert (Hwc : write_faults (conn c) = []) by exact Hw.
  cbn [process_loop].
  destruct Hout as [frame segs' Hlen Hcat | Hshort Hnz | Hnil]; cbn [app] in *.
  - assert (Hframe : frame <> []).
    { intros ->. rewrite PACKET_SIZE_value in Hlen. discriminate. }
    assert (Hacc : accepted self frame).
    { destruct Hfirst as [Hf | [Hmin _]].
      - unfold accepted. rewrite Hf. reflexivity.
      - apply full_frame_accepted; assumption. }
    destruct (process_body_frame self frame c Hcall Hframe Hacc Hwc)
      as (self1 & Hbody & Hin & Hw1 & Hout1 & Hnum & Hf1 & _).
    rewrite Hbody.
    assert (Hsplit : len (List.concat segs) = PACKET_SIZE + len (List.concat segs'))
      by (rewrite <- Hcat, len_app, Hlen; reflexivity).
    destruct (IH segs' self1) as (self' & Hrun & Hout' & Hnum' & Hin');
      try assumption; [left; exact Hf1| |].
    { unfold len in Hsplit. rewrite PACKET_SIZE_value in Hsplit. lia. }
    exists self'. split; [exact Hrun|].
    pose proof (len_nonneg (List.concat segs')) as Hpos.
    rewrite Hout', Hnum', Hout1, Hnum, Hsplit. cbn [c with_conn conn with_inbound outbound].
    rewrite PACKET_SIZE_value. repeat split; try assumption;
      Z.div_mod_to_equations; lia.
  - assert (Hacc : accepted self (List.concat segs)).
    { destruct Hfirst as [Hf | [_ [Hnil | Hlong]]]; [|congruence|lia].
      unfold accepted. rewrite Hf. reflexivity. }
    destruct (process_body_frame self _ c Hcall Hnz Hacc Hwc)
      as (self1 & Hbody & Hin & Hw1 & Hout1 & Hnum & Hf1 & _).
    rewrite Hbody.
    destruct (IH [] self1) as (self' & Hrun & Hout' & Hnum' & Hin');
      try assumption; [left; exact Hf1| |].
    { destruct (List.concat segs); [congruence|]. simpl in *. lia. }
    exists self'. split; [exact Hrun|].
    apply truthy_true, truthy_len in Hnz.
    rewrite Hout', Hnum', Hout1, Hnum. cbn [c with_conn conn with_inbound outbound].
    cbn [List.concat]. change (len (@nil byte)) with 0.
    rewrite PACKET_SIZE_value in *. repeat split; try assumption;
      Z.div_mod_to_equations; lia.
  - unfold process_body, receive_audio_chunk. rewrite Hcall.
    eexists. split; [reflexivity|].
    cbn [with_connection connection c with_conn conn with_inbound outbound
         inbound chunk_num map].
    rewrite Hnil. change (len (@nil byte)) with 0. rewrite PACKET_SIZE_value.
    repeat split; Z.div_mod_to_equations; lia.
Qed.

(** X3. A whole session: when the peer's stream arrives in any non-empty
    segments and then closes, no write fails, and the first frame passes the
    [min_chunk] test (the stream holds a full frame and [min_chunk] is at
    most two seconds, or the session is past its first frame), [process]
    reads the stream to its end and sends one line for every frame, that is
    the length of the stream over [PACKET_SIZE], rounded up; [chunk_num]
    has counted the same. *)
Theorem process_answers_every_frame (self : ServerProcessor R)
    (segs : list bytes) :
  inbound (conn (connection self)) = map Segment segs ->
  Forall (fun d => d <> []) segs ->
  write_faults (conn (connection self)) = [] ->
  is_first self = false
  \/ (PACKET_SIZE <= len (List.concat segs) /\ (min_chunk self <= 2)%Q) ->
  let frames := (len (List.concat segs) + PACKET_SIZE - 1) / PACKET_SIZE in
  len (outbound (conn (connection (process self))))
  = len (outbound (conn (connection self))) + frames
  /\ chunk_num (process self) = chunk_num self + frames
  /\ inbound (conn (connection (process self))) = [].
Proof.
  intros Hs Hne Hw Hfirst frames.
  pose proof (process_returns self) as Hret. cbv zeta in Hret.
  set (self0 := with_online_asr_proc self (init (online_asr_proc self))) in *.
  destruct (process_loop_stream (S (pending_input self0)) segs self0)
    as (self' & Hrun & Hout & Hnum & Hin); try assumption.
  { destruct Hfirst as [Hf | [Hlong Hmin]]; [left; exact Hf|].
    right. split; [exact Hmin|right; exact Hlong]. }
  { unfold pending_input, self0. cbn [with_online_asr_proc connection].
    rewrite Hs, backlog_segments. lia. }
  rewrite Hrun in Hret. injection Hret as <-.
  split; [exact Hout|]. split; [exact Hnum|exact Hin].
Qed.

End WholeSession.

Lemma process_answers_every_frame_witness :
  inbound (conn (connection late_session)) = map Segment [[x01]; [x02; x03]]
  /\ Forall (fun d => d <> []) [[x01]; [x02; x03]]
  /\ write_faults (conn (connection late_session)) = []
  /\ (is_first late_session = false
      \/ (PACKET_SIZE <= len (List.concat [[x01]; [x02; x03]])
          /\ (min_chunk late_session <= 2)%Q))
  /\ let frames :=
       (len (List.concat [[x01]; [x02; x03]]) + PACKET_SIZE - 1) / PACKET_SIZE in
     len (outbound (conn (connection (process late_session))))
     = len (outbound (conn (connection late_session))) + frames
     /\ chunk_num (process late_session) = chunk_num late_session + frames
     /\ inbound (conn (connection (process late_session))) = [].
Proof.
  assert (Hne : Forall (fun d : bytes => d <> []) [[x01]; [x02; x03]])
    by (repeat constructor; discriminate).
  split; [reflexivity|]. split; [exact Hne|]. split; [reflexivity|].
  split; [left; reflexivity|].
  apply (process_answers_every_frame late_session [[x01]; [x02; x03]]
           eq_refl Hne eq_refl (or_introl eq_refl)).
Defined.


(** ** More on the intervals and on a failing write *)

Section SessionEdges.

Context {R : Type} `{OnlineASRProcessor R}.

Lemma py_max_ge (a b : Q) : (b <= a)%Q -> py_max a b = a.
Proof.
  intros Hle. unfold py_max. destruct (Qlt_bool a b) eqn:Hlt; [|reflexivity].
  apply Qlt_bool_iff in Hlt. exfalso. exact (Qlt_not_le _ _ Hlt Hle).
Qed.

(** X4. An interval that does not begin before [last_end] (or the first
    interval of the session) is emitted with the recognizer's own begin and
    end, in milliseconds; and in every case the emitted begin is at or after
    the recognizer's begin: the clamp only ever moves a begin later. *)
Theorem interval_passes_unclamped (self : ServerProcessor R)
    (beg end_ : Q) (text : string) :
  match last_end self with
  | Some previous => (previous <= beg * 1000)%Q
  | None => True
  end ->
  format_output_transcript self (Text beg end_ text)
  = ((format_1_0f (beg * 1000) ++ " " ++ format_1_0f (end_ * 1000) ++ " "
      ++ text)%string,
     with_last_end self (end_ * 1000)%Q)
  /\ emitted_interval self (Text beg end_ text)
     = Some ((beg * 1000)%Q, (end_ * 1000)%Q)
  /\ (forall (self0 : ServerProcessor R) b0 e0 t0,
        exists b,
          emitted_interval self0 (Text b0 e0 t0) = Some (b, (e0 * 1000)%Q)
          /\ (b0 * 1000 <= b)%Q).
Proof.
  intros Hlast. unfold format_output_transcript, emitted_interval.
  split; [|split].
  - destruct (last_end self); [rewrite py_max_ge by exact Hlast|]; reflexivity.
  - destruct (last_end self); [rewrite py_max_ge by exact Hlast|]; reflexivity.
  - intros self0 b0 e0 t0. destruct (last_end self0) as [previous|].
    + eexists. split; [reflexivity|]. apply py_max_ge_l.
    + eexists. split; [reflexivity|]. apply Qle_refl.
Qed.



End SessionEdges.

Lemma interval_passes_unclamped_witness :
  match last_end streaming_session with
  | Some previous => (previous <= (21 # 10) * 1000)%Q
  | None => True
  end
  /\ format_output_transcript streaming_session (Text (21 # 10) (5 # 2) "hello")
     = ((format_1_0f ((21 # 10) * 1000) ++ " " ++ format_1_0f ((5 # 2) * 1000)
         ++ " " ++ "hello")%string,
        with_last_end streaming_session ((5 # 2) * 1000)%Q)
  /\ emitted_interval streaming_session (Text (21 # 10) (5 # 2) "hello")
     = Some (((21 # 10) * 1000)%Q, ((5 # 2) * 1000)%Q)
  /\ (forall (self0 : ServerProcessor scripted) b0 e0 t0,
        exists b,
          emitted_interval self0 (Text b0 e0 t0) = Some (b, (e0 * 1000)%Q)
          /\ (b0 * 1000 <= b)%Q).
Proof.
  assert (Hle : match last_end streaming_session with
                | Some previous => (previous <= (21 # 10) * 1000)%Q
                | None => True
                end) by (cbn; discriminate).
  split; [exact Hle|].
  apply (interval_passes_unclamped streaming_session (21 # 10) (5 # 2) "hello" Hle).
Defined.


(** ** A stream of whole frames *)

Lemma receive_frames_whole (fuel : nat) :
  forall (segs : list bytes) (self : Connection) (n : Z),
    inbound (conn self) = map Segment segs ->
    Forall (fun d => d <> []) segs ->
    len (List.concat segs) = n * PACKET_SIZE ->
    (List.length (List.concat segs) < fuel)%nat ->
    exists frames,
      receive_frames fuel self = Some frames
      /\ Forall (fun f => len f = PACKET_SIZE) frames
      /\ len frames = n
      /\ List.concat frames = List.concat segs.
Proof.
  induction fuel as [|fuel IH]; intros segs self n Hs Hne Hlen Hfuel; [lia|].
  destruct (non_blocking_receive_audio_segments self segs Hs Hne)
    as (r & segs' & Hcall & Hne' & Hout).
  cbn [receive_frames]. rewrite Hcall.
  set (self' := with_conn self (with_inbound (conn self) (map Segment segs'))).
  pose proof (len_nonneg (List.concat segs)) as Hpos.
  rewrite PACKET_SIZE_value in *.
  destruct Hout as [frame segs' Hf Hcat | Hshort Hnz | Hnil]; cbn [app] in *;
    rewrite ?PACKET_SIZE_value in *.
  - assert (Hsplit : len (List.concat segs) = 64000 + len (List.concat segs'))
      by (rewrite <- Hcat, len_app, Hf; reflexivity).
    destruct (IH segs' self' (n - 1)) as (frames & Hrun & Hall & Hcount & Hcat');
      try assumption; try reflexivity; [lia|unfold len in *; lia|].
    rewrite Hrun. exists (frame :: frames).
    split; [reflexivity|]. split; [constructor; assumption|].
    split; [unfold len in *; cbn [List.length]; lia|].
    cbn [List.concat]. rewrite Hcat'. exact Hcat.
  - exfalso. apply truthy_true, truthy_len in Hnz. lia.
  - exists []. rewrite Hnil in *. change (len (@nil byte)) with 0 in Hlen.
    split; [reflexivity|]. split; [constructor|].
    split; [change (len (@nil bytes)) with 0; lia|reflexivity].
Qed.

End ServerProofs.

(** * Properties of the client *)

Module ClientProofs.

Import Client.

(** ** Lines and whitespace *)

Local Open Scope string_scope.

Lemma append_nil_r (s : string) : s ++ EmptyString = s.
Proof. induction s as [|c s IH]; cbn [append]; congruence. Qed.

Lemma append_assoc (s t u : string) : (s ++ t) ++ u = s ++ t ++ u.
Proof. induction s as [|c s IH]; cbn [append]; congruence. Qed.

Lemma isspace_LF : isspace LF = true.
Proof. reflexivity. Qed.

Lemma blank_append (s t : string) : blank (s ++ t) = blank s && blank t.
Proof.
  induction s as [|c s IH]; cbn [append blank]; [reflexivity|].
  rewrite IH. apply andb_assoc.
Qed.

Lemma nonempty_rstrip (s : string) : nonempty (rstrip s) = negb (blank s).
Proof.
  induction s as [|c s IH]; [reflexivity|].
  cbn [rstrip blank]. rewrite IH.
  destruct (isspace c), (blank s); reflexivity.
Qed.

Lemma blank_lstrip (s : string) : blank (lstrip s) = blank s.
Proof.
  induction s as [|c s IH]; [reflexivity|].
  cbn [lstrip blank]. destruct (isspace c) eqn:Hc; [exact IH|].
  cbn [blank]. rewrite Hc. reflexivity.
Qed.

Lemma lstrip_blank (s : string) : blank s = true -> lstrip s = EmptyString.
Proof.
  induction s as [|c s IH]; [reflexivity|].
  cbn [blank lstrip]. intros [Hc Hs]%andb_prop. rewrite Hc. auto.
Qed.

Lemma rstrip_blank (s : string) : blank s = true -> rstrip s = EmptyString.
Proof.
  intros Hb. pose proof (nonempty_rstrip s) as Hn. rewrite Hb in Hn.
  destruct (rstrip s); [reflexivity|discriminate].
Qed.

Lemma lstrip_append (s t : string) :
  blank s = false -> lstrip (s ++ t) = lstrip s ++ t.
Proof.
  induction s as [|c s IH]; [discriminate|].
  cbn [blank append lstrip]. destruct (isspace c); [exact IH|reflexivity].
Qed.

Lemma lstrip_append_blank (s t : string) :
  blank s = true -> lstrip (s ++ t) = lstrip t.
Proof.
  induction s as [|c s IH]; [reflexivity|].
  cbn [blank append lstrip]. intros [Hc Hs]%andb_prop. rewrite Hc. auto.
Qed.

Lemma rstrip_append (s t : string) :
  blank t = false -> rstrip (s ++ t) = s ++ rstrip t.
Proof.
  intros Ht. induction s as [|c s IH]; [reflexivity|].
  cbn [append rstrip]. rewrite IH.
  assert (Hn : nonempty (s ++ rstrip t) = true).
  { pose proof (nonempty_rstrip t) as Hr. rewrite Ht in Hr.
    destruct s; [exact Hr|reflexivity]. }
  rewrite Hn, andb_false_r. reflexivity.
Qed.

Lemma rstrip_append_blank (s t : string) :
  blank t = true -> rstrip (s ++ t) = rstrip s.
Proof.
  intros Ht. induction s as [|c s IH].
  - apply rstrip_blank. exact Ht.
  - cbn [append rstrip]. rewrite IH. reflexivity.
Qed.

(** A final newline makes no difference to [strip]. *)
Lemma strip_final_newline (s : string) :
  strip (s ++ newline) = strip s.
Proof.
  unfold strip. destruct (blank s) eqn:Hs.
  - rewrite lstrip_append_blank by exact Hs.
    rewrite (lstrip_blank s Hs). reflexivity.
  - rewrite lstrip_append by exact Hs.
    apply rstrip_append_blank. reflexivity.
Qed.

Lemma occurs_append (c : ascii) (s t : string) :
  occurs c (s ++ t) = occurs c s || occurs c t.
Proof.
  induction s as [|c' s IH]; cbn [append occurs]; [reflexivity|].
  rewrite IH. apply orb_assoc.
Qed.

Lemma occurs_lstrip (c : ascii) (s : string) :
  occurs c s = false -> occurs c (lstrip s) = false.
Proof.
  induction s as [|c' s IH]; [reflexivity|].
  cbn [lstrip]. destruct (isspace c'); [|auto].
  cbn [occurs]. intros [_ Hs]%orb_false_elim. auto.
Qed.

Lemma occurs_rstrip (c : ascii) (s : string) :
  occurs c s = false -> occurs c (rstrip s) = false.
Proof.
  induction s as [|c' s IH]; [reflexivity|].
  cbn [occurs rstrip]. intros [Hc Hs]%orb_false_elim.
  destruct (isspace c' && negb (nonempty (rstrip s))); [reflexivity|].
  cbn [occurs]. rewrite Hc. auto.
Qed.

Lemma split_single (sep : ascii) (s : string) :
  occurs sep s = false -> split sep s = [s].
Proof.
  induction s as [|c s IH]; [reflexivity|].
  cbn [occurs split]. intros [Hc Hs]%orb_false_elim.
  rewrite Hc, (IH Hs). reflexivity.
Qed.

Lemma split_append (sep : ascii) (s t : string) :
  occurs sep s = false ->
  split sep (s ++ String sep t) = s :: split sep t.
Proof.
  induction s as [|c s IH]; cbn [append occurs split].
  - intros _. rewrite Ascii.eqb_refl. reflexivity.
  - intros [Hc Hs]%orb_false_elim. rewrite Hc, (IH Hs). reflexivity.
Qed.

Lemma join_cons (l l' : string) (ls : list string) :
  join (l :: l' :: ls) = l ++ String LF (join (l' :: ls)).
Proof. reflexivity. Qed.

Lemma split_join (lines : list string) :
  lines <> [] ->
  Forall (fun l => occurs LF l = false) lines ->
  split LF (join lines) = lines.
Proof.
  induction lines as [|l [|l' ls] IH]; intros Hne Hall; [congruence| |].
  - inversion Hall; subst. apply split_single. assumption.
  - inversion Hall; subst. rewrite join_cons, split_append by assumption.
    rewrite IH; [reflexivity|discriminate|assumption].
Qed.

Lemma join_cons_nonempty (l : string) (ls : list string) :
  ls <> [] -> join (l :: ls) = l ++ String LF (join ls).
Proof. destruct ls; [congruence|reflexivity]. Qed.

Lemma blank_join (lines : list string) :
  blank (last lines EmptyString) = false -> blank (join lines) = false.
Proof.
  induction lines as [|l [|l' ls] IH]; intros Hlast; [discriminate|exact Hlast|].
  rewrite join_cons, blank_append. cbn [blank].
  rewrite IH by exact Hlast. rewrite !andb_false_r. reflexivity.
Qed.

Lemma rstrip_last_nonempty (lines : list string) :
  lines <> [] -> rstrip_last lines <> [].
Proof. destruct lines as [|l [|l' ls]]; cbn [rstrip_last]; congruence. Qed.

Lemma rstrip_join (lines : list string) :
  blank (last lines EmptyString) = false ->
  rstrip (join lines) = join (rstrip_last lines).
Proof.
  induction lines as [|l [|l' ls] IH]; intros Hlast; [reflexivity|reflexivity|].
  assert (Hrest : blank (join (l' :: ls)) = false) by (apply blank_join; exact Hlast).
  rewrite join_cons, rstrip_append by (cbn [blank]; rewrite Hrest; reflexivity).
  cbn [rstrip]. rewrite nonempty_rstrip, Hrest, andb_false_r.
  rewrite IH by exact Hlast.
  change (rstrip_last (l :: l' :: ls)) with (l :: rstrip_last (l' :: ls)).
  rewrite join_cons_nonempty by (apply rstrip_last_nonempty; discriminate).
  reflexivity.
Qed.

Lemma lstrip_join (lines : list string) (trail : string) :
  blank (hd EmptyString lines) = false ->
  lstrip (join lines ++ trail) = join (lstrip_first lines) ++ trail.
Proof.
  destruct lines as [|l [|l' ls]]; cbn [hd lstrip_first]; intros Hl;
    [discriminate| |].
  - apply lstrip_append. exact Hl.
  - rewrite !join_cons, !append_assoc. apply lstrip_append. exact Hl.
Qed.

Lemma last_lstrip_first (lines : list string) :
  blank (hd EmptyString lines) = false ->
  blank (last lines EmptyString) = false ->
  blank (last (lstrip_first lines) EmptyString) = false.
Proof.
  destruct lines as [|l [|l' ls]]; cbn [hd lstrip_first]; intros Hl Hlast;
    [discriminate| |exact Hlast].
  cbn [last]. rewrite blank_lstrip. exact Hl.
Qed.

(** [strip] on a payload of lines touches its first and its last line only,
    provided neither is blank. *)
Lemma strip_join (lines : list string) (trail : string) :
  blank (hd EmptyString lines) = false ->
  blank (last lines EmptyString) = false ->
  blank trail = true ->
  strip (join lines ++ trail) = join (rstrip_last (lstrip_first lines)).
Proof.
  intros Hfirst Hlast Htrail. unfold strip.
  rewrite lstrip_join by exact Hfirst.
  rewrite rstrip_append_blank by exact Htrail.
  apply rstrip_join. apply last_lstrip_first; assumption.
Qed.

Lemma blank_nonempty (s : string) : blank s = false -> nonempty s = true.
Proof. destruct s; [discriminate|reflexivity]. Qed.

Lemma rstrip_last_lines (P : string -> Prop) (lines : list string) :
  (forall l, P l -> blank l = false -> P (rstrip l)) ->
  blank (last lines EmptyString) = false ->
  Forall P lines -> Forall P (rstrip_last lines).
Proof.
  intros HP. induction lines as [|l [|l' ls] IH]; intros Hlast Hall;
    [constructor| |].
  - inversion Hall; subst. constructor; [|constructor]. apply HP; assumption.
  - inversion Hall; subst.
    change (rstrip_last (l :: l' :: ls)) with (l :: rstrip_last (l' :: ls)).
    constructor; [assumption|]. apply IH; assumption.
Qed.

Lemma lstrip_first_lines (P : string -> Prop) (lines : list string) :
  (forall l, P l -> blank l = false -> P (lstrip l)) ->
  blank (hd EmptyString lines) = false ->
  Forall P lines -> Forall P (lstrip_first lines).
Proof.
  intros HP. destruct lines as [|l ls]; intros Hl Hall; [constructor|].
  inversion Hall; subst. constructor; [|assumption]. apply HP; assumption.
Qed.

Lemma stripped_lines (lines : list string) :
  Forall (fun l => l <> EmptyString /\ occurs LF l = false) lines ->
  blank (hd EmptyString lines) = false ->
  blank (last lines EmptyString) = false ->
  Forall message (rstrip_last (lstrip_first lines)).
Proof.
  intros Hall Hfirst Hlast.
  apply rstrip_last_lines.
  - intros l [_ Hlf] Hb. split.
    + rewrite nonempty_rstrip, Hb. reflexivity.
    + apply occurs_rstrip. exact Hlf.
  - apply last_lstrip_first; assumption.
  - apply lstrip_first_lines.
    + intros l [_ Hlf] Hb. split.
      * apply blank_nonempty. rewrite blank_lstrip. exact Hb.
      * apply occurs_lstrip. exact Hlf.
    + exact Hfirst.
    + eapply Forall_impl; [|exact Hall]. intros l [Hne Hlf]. split; [|exact Hlf].
      destruct l; [congruence|reflexivity].
Qed.

Lemma length_rstrip_last (lines : list string) :
  List.length (rstrip_last lines) = List.length lines.
Proof.
  induction lines as [|l [|l' ls] IH]; [reflexivity|reflexivity|].
  change (rstrip_last (l :: l' :: ls)) with (l :: rstrip_last (l' :: ls)).
  cbn [List.length] in *. congruence.
Qed.

Lemma length_lstrip_first (lines : list string) :
  List.length (lstrip_first lines) = List.length lines.
Proof. destruct lines; reflexivity. Qed.

(** ** The correlation loop *)

(** With as many records as non-empty messages, the loop pairs them in
    order and empties the queue. *)
Lemma for_messages_paired (messages : list string) :
  forall records : list pending,
    List.length records = List.length messages ->
    Forall (fun m => nonempty m = true) messages ->
    for_messages messages records
    = ([], map (fun p => report (fst p) (snd p)) (combine records messages)).
Proof.
  induction messages as [|m messages IH]; intros [|[n t] records] Hlen Hall;
    try discriminate; [reflexivity|].
  inversion Hall as [|? ? Hm Hrest]; subst.
  cbn [for_messages]. rewrite Hm, IH by (cbn in Hlen; congruence || assumption).
  reflexivity.
Qed.

Lemma try_receive_response_payload (s : socket) (rest : list readiness)
    (response : string) (r : pending) (q : list pending) :
  incoming s = Data response :: rest ->
  try_receive_response s (r :: q)
  = if nonempty response
    then (received s rest,
          fst (for_messages (split LF (strip response)) (r :: q)),
          snd (for_messages (split LF (strip response)) (r :: q)))
    else (received s rest, r :: q, []).
Proof.
  intros Hs. unfold try_receive_response, select.
  cbn [truthy negb]. rewrite Hs. unfold recv. cbn [incoming]. rewrite Hs.
  destruct (nonempty response); [|reflexivity].
  destruct (for_messages _ _). reflexivity.
Qed.

(** C3, as amended. FIFO correlation: with N records in the queue and one
    receive that delivers N lines separated by newlines, each line non-empty,
    the first and the last line not made of whitespace only, the records are
    popped oldest first, the i-th oldest is reported with the i-th line (the
    first line without its leading and the last without its trailing
    whitespace) and the queue is left empty. *)
Theorem fifo_correlation (s : socket) (rest : list readiness)
    (records : list pending) (lines : list string) (trail : string) :
  incoming s = Data (join lines ++ trail) :: rest ->
  blank trail = true ->
  List.length records = List.length lines ->
  Forall (fun l => l <> EmptyString /\ occurs LF l = false) lines ->
  blank (hd EmptyString lines) = false ->
  blank (last lines EmptyString) = false ->
  try_receive_response s records
  = (received s rest, [],
     map (fun p => report (fst p) (snd p))
       (combine records (rstrip_last (lstrip_first lines)))).
Proof.
  intros Hs Htrail Hlen Hall Hfirst Hlast.
  destruct records as [|r q].
  { destruct lines; [discriminate Hfirst|discriminate Hlen]. }
  rewrite (try_receive_response_payload s rest _ r q Hs).
  assert (Hpayload : nonempty (join lines ++ trail) = true).
  { apply blank_nonempty. rewrite blank_append, blank_join by exact Hlast.
    reflexivity. }
  rewrite Hpayload, strip_join by assumption.
  pose proof (stripped_lines lines Hall Hfirst Hlast) as Hmsgs.
  rewrite split_join.
  - rewrite for_messages_paired; [reflexivity| |].
    + rewrite length_rstrip_last, length_lstrip_first. exact Hlen.
    + eapply Forall_impl; [|exact Hmsgs]. intros l [Hne _]. exact Hne.
  - apply rstrip_last_nonempty. destruct lines; [discriminate Hfirst|discriminate].
  - eapply Forall_impl; [|exact Hmsgs]. intros l [_ Hlf]. exact Hlf.
Qed.

Lemma fifo_correlation_witness :
  incoming (example_socket [join three_lines ++ newline])
  = Data (join three_lines ++ newline) :: []
  /\ blank (newline) = true
  /\ List.length three_records = List.length three_lines
  /\ Forall (fun l => l <> EmptyString /\ occurs LF l = false) three_lines
  /\ blank (hd EmptyString three_lines) = false
  /\ blank (last three_lines EmptyString) = false
  /\ try_receive_response (example_socket [join three_lines ++ newline])
       three_records
     = (received (example_socket [join three_lines ++ newline]) [], [],
        map (fun p => report (fst p) (snd p))
          (combine three_records (rstrip_last (lstrip_first three_lines)))).
Proof.
  assert (Hall : Forall (fun l => l <> EmptyString /\ occurs LF l = false) three_lines)
    by (repeat constructor; discriminate).
  repeat (split; [reflexivity || exact Hall|]).
  apply (fifo_correlation (example_socket [join three_lines ++ newline]) []
           three_records three_lines (newline)
           eq_refl eq_refl eq_refl Hall eq_refl eq_refl).
Defined.

(** The reports of that receive. *)
Example three_lines_three_reports :
  try_receive_response (example_socket [join three_lines ++ newline])
    three_records
  = (received (example_socket [join three_lines ++ newline]) [], [],
     [ResponseFor 1 10 "0 1720 Takhle to je"; ResponseFor 2 12 "No input";
      ResponseFor 3 14 "1720 2400 dobre"]).
Proof. vm_compute. reflexivity. Qed.

(** C3, as stated, fails: two records, one receive with two non-empty
    lines of which the first is a single space.  [strip] removes that line
    with the whitespace around the payload: the second line is reported for
    the oldest record and the second record stays in the queue. *)
Lemma blank_line_breaks_correlation :
  let lines := [" "; "0 1720 Takhle"] in
  let records := [(1, 10%Q); (2, 12%Q)] in
  let s := example_socket [join lines ++ newline] in
  Forall (fun l => l <> EmptyString) lines
  /\ List.length records = List.length lines
  /\ try_receive_response s records
     = (received s [], [(2, 12%Q)], [ResponseFor 1 10 "0 1720 Takhle"])
  /\ snd (fst (try_receive_response s records)) <> []
  /\ snd (try_receive_response s records)
     <> map (fun p => report (fst p) (snd p)) (combine records lines).
Proof.
  cbv zeta. split; [repeat constructor; discriminate|].
  split; [reflexivity|]. split; [vm_compute; reflexivity|].
  split; vm_compute; discriminate.
Qed.

Lemma fragment_is_reported (s : socket) (rest : list readiness)
    (fragment : string) (r : pending) (q : list pending) :
  incoming s = Data fragment :: rest ->
  occurs LF fragment = false ->
  blank fragment = false ->
  try_receive_response s (r :: q)
  = (received s rest, q, [report r (strip fragment)]).
Proof.
  intros Hs Hlf Hb.
  rewrite (try_receive_response_payload s rest fragment r q Hs).
  rewrite (blank_nonempty _ Hb).
  assert (Hstrip : nonempty (strip fragment) = true).
  { unfold strip. rewrite nonempty_rstrip, blank_lstrip, Hb. reflexivity. }
  rewrite split_single
    by (unfold strip; apply occurs_rstrip, occurs_lstrip; exact Hlf).
  destruct r as [n t]. cbn [for_messages]. rewrite Hstrip. reflexivity.
Qed.

Lemma final_newline_is_dropped (s : socket) (rest : list readiness)
    (payload : string) (r : pending) (q : list pending) :
  try_receive_response (with_incoming s (Data (payload ++ newline) :: rest))
    (r :: q)
  = try_receive_response (with_incoming s (Data payload :: rest)) (r :: q).
Proof.
  rewrite (try_receive_response_payload
             (with_incoming s (Data (payload ++ newline) :: rest))
             rest (payload ++ newline) r q eq_refl).
  rewrite (try_receive_response_payload
             (with_incoming s (Data payload :: rest)) rest payload r q eq_refl).
  rewrite strip_final_newline.
  destruct payload as [|c payload]; [|reflexivity].
  destruct r as [n t]. reflexivity.
Qed.

Lemma blank_line_is_dropped (s : socket) (rest : list readiness)
    (tail : string) (r : pending) (q : list pending) :
  incoming s = Data (tail ++ newline) :: rest ->
  blank tail = true ->
  try_receive_response s (r :: q) = (received s rest, r :: q, []).
Proof.
  intros Hs Hb.
  rewrite (try_receive_response_payload s rest (tail ++ newline) r q Hs).
  assert (Hne : nonempty (tail ++ newline) = true)
    by (destruct tail; reflexivity).
  rewrite Hne, strip_final_newline. unfold strip.
  rewrite (lstrip_blank tail Hb). destruct r as [n t]. reflexivity.
Qed.

(** C8, as amended. No partial message is kept between receives: a payload
    is handled the same with and without a final newline, and a fragment
    that no newline closes is a message of its own, which consumes the
    oldest record at once.  When the rest of that message comes with a later
    receive, it is one more message and consumes the next record if it holds
    a character that is not whitespace; if it is whitespace only (just the
    newline, for one) it is dropped and consumes no record.  In neither case
    is the message put together again. *)
Theorem trailing_fragment_is_a_message (s : socket) (rest : list readiness)
    (payload fragment tail : string) (r r' : pending) (q : list pending) :
  occurs LF fragment = false ->
  blank fragment = false ->
  occurs LF tail = false ->
  try_receive_response (with_incoming s (Data (payload ++ newline) :: rest))
    (r :: q)
  = try_receive_response (with_incoming s (Data payload :: rest)) (r :: q)
  /\ try_receive_response (with_incoming s (Data fragment :: rest)) (r :: q)
     = (received s rest, q, [report r (strip fragment)])
  /\ let later := Data (tail ++ newline) :: rest in
     let s1 := received s later in
     try_receive_response (with_incoming s (Data fragment :: later))
       (r :: r' :: q)
     = (s1, r' :: q, [report r (strip fragment)])
     /\ try_receive_response s1 (r' :: q)
        = if blank tail
          then (received s1 rest, r' :: q, [])
          else (received s1 rest, q, [report r' (strip tail)]).
Proof.
  intros Hlf Hb Htail. split; [apply final_newline_is_dropped|].
  split; [exact (fragment_is_reported
                   (with_incoming s (Data fragment :: rest)) rest fragment r q
                   eq_refl Hlf Hb)|].
  cbv zeta. split.
  - exact (fragment_is_reported
             (with_incoming s (Data fragment :: Data (tail ++ newline) :: rest))
             (Data (tail ++ newline) :: rest) fragment r (r' :: q)
             eq_refl Hlf Hb).
  - set (s1 := received s (Data (tail ++ newline) :: rest)).
    destruct (blank tail) eqn:Hbt.
    + exact (blank_line_is_dropped s1 rest tail r' q eq_refl Hbt).
    + change s1 with (with_incoming s1 (Data (tail ++ newline) :: rest)) at 1.
      rewrite final_newline_is_dropped.
      exact (fragment_is_reported (with_incoming s1 (Data tail :: rest))
               rest tail r' q eq_refl Htail Hbt).
Qed.

Lemma trailing_fragment_is_a_message_witness :
  occurs LF "0 17" = false
  /\ blank "0 17" = false
  /\ occurs LF "20 Takhle" = false
  /\ try_receive_response
       (with_incoming (example_socket [])
          (Data (("No input" ++ String LF "0 17") ++ newline) :: []))
       ((1, 10%Q) :: [(3, 14%Q)])
     = try_receive_response
         (with_incoming (example_socket [])
            (Data ("No input" ++ String LF "0 17") :: []))
         ((1, 10%Q) :: [(3, 14%Q)])
  /\ try_receive_response
       (with_incoming (example_socket []) (Data "0 17" :: []))
       ((1, 10%Q) :: [(3, 14%Q)])
     = (received (example_socket []) [], [(3, 14%Q)],
        [report (1, 10%Q) (strip "0 17")])
  /\ let later := Data ("20 Takhle" ++ newline) :: [] in
     let s1 := received (example_socket []) later in
     try_receive_response
       (with_incoming (example_socket []) (Data "0 17" :: later))
       ((1, 10%Q) :: (2, 12%Q) :: [(3, 14%Q)])
     = (s1, (2, 12%Q) :: [(3, 14%Q)], [report (1, 10%Q) (strip "0 17")])
     /\ try_receive_response s1 ((2, 12%Q) :: [(3, 14%Q)])
        = if blank "20 Takhle"
          then (received s1 [], (2, 12%Q) :: [(3, 14%Q)], [])
          else (received s1 [], [(3, 14%Q)],
                [report (2, 12%Q) (strip "20 Takhle")]).
Proof.
  split; [reflexivity|]. split; [reflexivity|]. split; [reflexivity|].
  apply (trailing_fragment_is_a_message (example_socket []) []
           ("No input" ++ String LF "0 17") "0 17" "20 Takhle"
           (1, 10%Q) (2, 12%Q) [(3, 14%Q)] eq_refl eq_refl eq_refl).
Defined.

(** When the rest of the message is the newline alone, the later receive
    consumes no record: the fragment stays the whole response of its
    chunk. *)
Example rest_is_only_the_newline :
  let s := example_socket ["0 17"; newline] in
  let '(s1, q1, log1) := try_receive_response s [(1, 10%Q); (2, 12%Q)] in
  let '(s2, q2, log2) := try_receive_response s1 q1 in
  q1 = [(2, 12%Q)]
  /\ log1 = [ResponseFor 1 10 "0 17"]
  /\ q2 = [(2, 12%Q)]
  /\ log2 = [].
Proof. vm_compute. repeat split; reflexivity. Qed.

(** C8, as stated, fails: the receive ends in the fragment [0 17] of a
    message whose rest comes later.  The fragment is reported for the second
    record, which leaves the queue; the rest of the message then takes the
    third record, whose own response has not arrived. *)
Lemma partial_message_consumes_record :
  let s := example_socket [("No input" ++ String LF "0 17");
                           ("20 Takhle" ++ newline)] in
  let '(s1, q1, log1) := try_receive_response s three_records in
  let '(s2, q2, log2) := try_receive_response s1 q1 in
  q1 = [(3, 14%Q)]
  /\ log1 = [ResponseFor 1 10 "No input"; ResponseFor 2 12 "0 17"]
  /\ q1 <> [(2, 12%Q); (3, 14%Q)]
  /\ q2 = []
  /\ log2 = [ResponseFor 3 14 "20 Takhle"].
Proof. vm_compute. repeat split; try reflexivity. discriminate. Qed.

(** ** A closed socket in the draining loops *)

Lemma try_receive_response_closed (calls : nat) (out : list bytes)
    (faults : list (option nat)) (r : pending) (q : list pending) :
  try_receive_response (closed_socket calls out faults) (r :: q)
  = (closed_socket (S calls) out faults, r :: q, []).
Proof. reflexivity. Qed.

(** C9, on the code: once the peer has closed, every poll of
    [wait_for_final_responses] finds the socket readable and reads zero
    bytes again; as long as a record is pending the loop goes on for all
    the polls its timeout allows and leaves the queue as it was. *)
Theorem drain_loop_reads_after_close (polls calls : nat) (out : list bytes)
    (faults : list (option nat)) (r : pending) (q : list pending) :
  wait_for_final_responses polls (closed_socket calls out faults) (r :: q)
  = (closed_socket (calls + polls) out faults, r :: q, []).
Proof.
  unfold wait_for_final_responses. cbn [truthy negb].
  revert calls. induction polls as [|polls IH]; intros calls.
  - rewrite Nat.add_0_r. reflexivity.
  - cbn [wait_loop truthy]. rewrite try_receive_response_closed, IH.
    rewrite Nat.add_succ_comm. reflexivity.
Qed.

(** The other draining loop of the same file leaves at the first read of
    zero bytes. *)
Lemma check_for_additional_responses_closed (calls : nat) (out : list bytes)
    (faults : list (option nat)) (r : pending) (q : list pending) :
  check_for_additional_responses (closed_socket calls out faults) (r :: q)
  = (closed_socket (S calls) out faults, r :: q, []).
Proof. destruct r. reflexivity. Qed.

(** ** What is sent does not depend on what is received *)

Lemma try_receive_response_sent (s : socket) (q : list pending) :
  sent (fst (fst (try_receive_response s q))) = sent s.
Proof.
  unfold try_receive_response. destruct q as [|r q]; [reflexivity|].
  cbn [truthy negb]. unfold select, recv.
  destruct (incoming s) as [|[|response|] rest] eqn:Hs; cbn [incoming];
    rewrite ?Hs; try reflexivity.
  destruct (nonempty response); [|reflexivity].
  destruct (for_messages _ _). reflexivity.
Qed.

Lemma sleep_loop_sent (polls : nat) :
  forall s q, sent (fst (fst (sleep_loop polls s q))) = sent s.
Proof.
  induction polls as [|polls IH]; intros s q; [reflexivity|].
  cbn [sleep_loop].
  destruct (try_receive_response s q) as [[s1 q1] log1] eqn:H1.
  pose proof (try_receive_response_sent s q) as Hs1. rewrite H1 in Hs1.
  destruct (sleep_loop polls s1 q1) as [[s2 q2] log2] eqn:H2.
  pose proof (IH s1 q1) as Hs2. rewrite H2 in Hs2.
  cbn [fst] in *. congruence.
Qed.

(** ** The size of a chunk *)

Lemma int_le (q : Q) : 0 < int q -> (inject_Z (int q) <= q)%Q.
Proof.
  unfold int. intros Hpos.
  destruct (Z.le_gt_cases 0 (Qnum q)) as [Hnum|Hnum].
  - rewrite Z.quot_div_nonneg by lia.
    destruct q as [n d]. apply (Qfloor_le (n # d)).
  - exfalso.
    assert (0 <= Z.quot (- Qnum q) (Z.pos (Qden q))) by (apply Z.quot_pos; lia).
    rewrite Z.quot_opp_l in H by lia. lia.
Qed.

Lemma chunk_duration_lt (n bytes_per_second : Z) (chunk_seconds : Q) :
  0 < bytes_per_second ->
  0 <= n < int (inject_Z bytes_per_second * chunk_seconds) ->
  Qlt_bool (inject_Z n / inject_Z bytes_per_second) chunk_seconds = true.
Proof.
  intros Hbps [Hn Hlt]. apply ServerProofs.Qlt_bool_iff.
  apply Qlt_shift_div_r.
  - change 0%Q with (inject_Z 0). rewrite <- Zlt_Qlt. exact Hbps.
  - rewrite Qmult_comm.
    apply Qlt_le_trans
      with (inject_Z (int (inject_Z bytes_per_second * chunk_seconds))).
    + rewrite <- Zlt_Qlt. exact Hlt.
    + apply int_le. lia.
Qed.

Local Open Scope list_scope.
Local Open Scope Z_scope.

(** ** Calls of [sendall] that return *)

Lemma sendall_accepts (n : nat) (s : socket) (data : bytes) :
  accepts (S n) s ->
  sendall s data = (true, after_send s data) /\ accepts n (after_send s data).
Proof.
  unfold accepts, sendall, after_send. cbn [send_faults].
  destruct (send_faults s) as [|[k|] faults]; cbn [firstn tl]; intros Hacc.
  - split; [reflexivity|]. rewrite firstn_nil. constructor.
  - inversion Hacc as [|? ? Hk _]. discriminate Hk.
  - split; [reflexivity|]. inversion Hacc. assumption.
Qed.

Lemma reliable_accepts (n : nat) (s : socket) : reliable s -> accepts n s.
Proof.
  unfold reliable, accepts. intros Hrel. revert n.
  induction Hrel as [|f faults Hf _ IH]; intros [|n]; cbn [firstn];
    constructor; auto.
Qed.

Lemma sendall_reliable (s : socket) (data : bytes) :
  reliable s ->
  sendall s data = (true, after_send s data) /\ reliable (after_send s data).
Proof.
  intros Hrel.
  split; [exact (proj1 (sendall_accepts O s data (reliable_accepts 1 s Hrel)))|].
  unfold reliable, after_send in *. cbn [send_faults].
  destruct (send_faults s); [constructor|]. inversion Hrel. assumption.
Qed.

Lemma read_short_slice (slice : bytes) (chunk_size : Z) :
  len slice < chunk_size -> read slice chunk_size = Some (slice, []).
Proof.
  intros Hlt. pose proof (ServerProofs.len_nonneg slice) as Hn.
  unfold read, len in *.
  destruct (chunk_size <? -1) eqn:H1; [apply Z.ltb_lt in H1; lia|].
  destruct (chunk_size =? -1) eqn:H2; [apply Z.eqb_eq in H2; lia|].
  rewrite firstn_all2, skipn_all2 by lia. reflexivity.
Qed.

Lemma read_nothing (chunk_size : Z) :
  0 <= chunk_size -> read [] chunk_size = Some ([], []).
Proof.
  intros Hle. unfold read.
  destruct (chunk_size <? -1) eqn:H1; [apply Z.ltb_lt in H1; lia|].
  destruct (chunk_size =? -1) eqn:H2; [apply Z.eqb_eq in H2; lia|].
  rewrite firstn_nil, skipn_nil. reflexivity.
Qed.

(** When the pipe is at its end the iteration leaves the loop and nothing
    is sent. *)
Lemma send_chunk_end_of_pipe (clock : timing) (chunk_seconds : Q)
    (bytes_per_second chunk_size : Z) (l : locals) :
  stdout l = [] -> 0 <= chunk_size ->
  exists l',
    send_chunk clock chunk_seconds bytes_per_second chunk_size l = Stop l'
    /\ sock l' = sock l
    /\ chunk_timestamps l' = chunk_timestamps l.
Proof.
  intros Hout Hle. unfold send_chunk.
  rewrite Hout, read_nothing by exact Hle.
  eexists. split; [reflexivity|]. split; reflexivity.
Qed.

(** The frame on the wire for a short slice. *)
Lemma padded_frame (slice : bytes) (chunk_size : Z) :
  len slice < chunk_size ->
  let frame := slice ++ repeat x00 (Z.to_nat (chunk_size - len slice)) in
  len frame = chunk_size
  /\ firstn (List.length slice) frame = slice
  /\ Forall (fun b => b = x00) (skipn (List.length slice) frame).
Proof.
  intros Hlt frame. unfold frame. split; [|split].
  - unfold len in *. rewrite length_app, repeat_length. lia.
  - rewrite firstn_app, firstn_all, Nat.sub_diag, firstn_O. apply app_nil_r.
  - rewrite skipn_app, skipn_all, Nat.sub_diag, skipn_O. cbn [app].
    apply Forall_forall. intros b Hb. apply repeat_spec in Hb. exact Hb.
Qed.

(** ** The send loop returns *)

Lemma read_progress (pipe data rest : bytes) (size : Z) :
  read pipe size = Some (data, rest) -> data <> [] ->
  (List.length rest < List.length pipe)%nat.
Proof.
  unfold read. destruct (size <? -1); [discriminate|].
  destruct (size =? -1).
  - intros [= <- <-] Hne. destruct pipe; [congruence|simpl; lia].
  - intros [= <- <-] Hne. rewrite length_skipn.
    destruct (Z.to_nat size); [simpl in Hne; congruence|].
    destruct pipe; [simpl in Hne; congruence|simpl; lia].
Qed.

Lemma send_chunk_progress (clock : timing) (chunk_seconds : Q)
    (bytes_per_second chunk_size : Z) (l l' : locals) :
  send_chunk clock chunk_seconds bytes_per_second chunk_size l = Next l' ->
  (List.length (stdout l') < List.length (stdout l))%nat.
Proof.
  unfold send_chunk.
  destruct (read (stdout l) chunk_size) as [[data rest]|] eqn:Hread;
    [|discriminate].
  destruct (truthy data) eqn:Hdata; cbn [negb]; [|discriminate].
  apply ServerProofs.truthy_true in Hdata.
  pose proof (read_progress _ _ _ _ Hread Hdata) as Hlt.
  destruct (sendall (sock l) data) as [[|] s1]; [|discriminate].
  destruct (_ && _); [destruct (sendall s1 _) as [[|] s2]|];
    try discriminate;
    destruct (try_receive_response _ _) as [[s3 q3] log3];
    destruct (truthy rest);
    try destruct (sleep_loop _ _ _) as [[s4 q4] log4];
    intros [= <-]; exact Hlt.
Qed.

Lemma send_loop_total (fuel : nat) (clock : timing) (chunk_seconds : Q)
    (bytes_per_second chunk_size : Z) :
  forall l : locals,
    (List.length (stdout l) < fuel)%nat ->
    send_loop fuel clock chunk_seconds bytes_per_second chunk_size l <> None
    /\ forall l',
        send_loop fuel clock chunk_seconds bytes_per_second chunk_size l
        <> Some (Next l').
Proof.
  induction fuel as [|fuel IH]; intros l Hfuel; [lia|].
  cbn [send_loop].
  destruct (send_chunk clock chunk_seconds bytes_per_second chunk_size l)
    as [l1|l1|l1] eqn:Hstep.
  - apply send_chunk_progress in Hstep. apply IH. lia.
  - split; [discriminate|]. intros l'. discriminate.
  - split; [discriminate|]. intros l'. discriminate.
Qed.

(** The bound in [send_audio_in_chunks] is never reached. *)
Lemma send_audio_in_chunks_fuel (clock : timing) (chunk_seconds : Q)
    (bytes_per_second chunk_size : Z) (l : locals) :
  send_loop (S (List.length (stdout l))) clock chunk_seconds
    bytes_per_second chunk_size l <> None.
Proof. apply send_loop_total. lia. Qed.

(** C5. Padding of the last chunk: when the transcoder's pipe holds a last
    slice of k bytes, 0 < k < chunk_size, and the two calls of [sendall]
    return, the iteration of the send loop sends the slice and then
    chunk_size - k zero bytes, which together are chunk_size bytes that
    start with the slice and are zero from position k on; the next read
    returns zero bytes, on which the loop ends and nothing more is sent. *)
Theorem padding_correctness (clock : timing) (chunk_seconds : Q) (l : locals) :
  let bytes_per_second := 16000 * 2 in
  let chunk_size := int (inject_Z bytes_per_second * chunk_seconds) in
  let slice := stdout l in
  let padding := repeat x00 (Z.to_nat (chunk_size - len slice)) in
  0 < len slice < chunk_size ->
  accepts 2 (sock l) ->
  exists l1 l2,
    send_chunk clock chunk_seconds bytes_per_second chunk_size l = Next l1
    /\ stdout l1 = []
    /\ sent (sock l1) = sent (sock l) ++ [slice; padding]
    /\ len (slice ++ padding) = chunk_size
    /\ firstn (List.length slice) (slice ++ padding) = slice
    /\ Forall (fun b => b = x00) (skipn (List.length slice) (slice ++ padding))
    /\ send_chunk clock chunk_seconds bytes_per_second chunk_size l1 = Stop l2
    /\ sent (sock l2) = sent (sock l1)
    /\ send_loop 2 clock chunk_seconds bytes_per_second chunk_size l
       = Some (Stop l2).
Proof.
  intros bytes_per_second chunk_size slice padding [Hpos Hlt] Hacc.
  destruct (padded_frame slice chunk_size Hlt) as (Hlen & Hfirst & Hzero).
  fold padding in Hlen, Hfirst, Hzero.
  assert (Hdur : Qlt_bool (inject_Z (len slice) / inject_Z bytes_per_second)
                   chunk_seconds = true).
  { apply chunk_duration_lt; [reflexivity|]. fold chunk_size. lia. }
  assert (Hstep : exists l1,
             send_chunk clock chunk_seconds bytes_per_second chunk_size l = Next l1
             /\ stdout l1 = []
             /\ sent (sock l1) = sent (sock l) ++ [slice; padding]).
  { unfold send_chunk. fold slice. rewrite read_short_slice by exact Hlt.
    apply ServerProofs.truthy_len in Hpos. rewrite Hpos. cbn [negb].
    destruct (sendall_accepts 1 (sock l) slice Hacc) as [-> Hacc1].
    apply Z.ltb_lt in Hlt. rewrite Hlt, Hdur. cbn [andb truthy].
    fold padding.
    destruct (sendall_accepts 0 (after_send (sock l) slice) padding Hacc1)
      as [-> _].
    set (s1 := after_send (after_send (sock l) slice) padding).
    set (q1 := chunk_timestamps l
               ++ [(chunk_count l + 1, time_of_send clock (chunk_count l + 1))]).
    pose proof (try_receive_response_sent s1 q1) as Hsent.
    destruct (try_receive_response s1 q1) as [[s2 q2] log2].
    eexists. split; [reflexivity|]. split; [reflexivity|].
    cbn [sock fst] in *. rewrite Hsent. unfold s1, after_send. cbn [sent].
    rewrite <- app_assoc. reflexivity. }
  destruct Hstep as (l1 & Hstep & Hout & Hsent).
  destruct (send_chunk_end_of_pipe clock chunk_seconds bytes_per_second
              chunk_size l1 Hout) as (l2 & Hstop & Hsock & _); [lia|].
  exists l1, l2. repeat (split; [assumption|]).
  split; [rewrite Hsock; reflexivity|].
  cbn [send_loop]. rewrite Hstep, Hstop. reflexivity.
Qed.

Lemma padding_correctness_witness :
  let chunk_seconds := (1 # 4000)%Q in
  let bytes_per_second := 16000 * 2 in
  let chunk_size := int (inject_Z bytes_per_second * chunk_seconds) in
  let slice := stdout last_slice in
  let padding := repeat x00 (Z.to_nat (chunk_size - len slice)) in
  0 < len slice < chunk_size
  /\ accepts 2 (sock last_slice)
  /\ exists l1 l2,
      send_chunk steady_clock chunk_seconds bytes_per_second chunk_size last_slice
      = Next l1
      /\ stdout l1 = []
      /\ sent (sock l1) = sent (sock last_slice) ++ [slice; padding]
      /\ len (slice ++ padding) = chunk_size
      /\ firstn (List.length slice) (slice ++ padding) = slice
      /\ Forall (fun b => b = x00) (skipn (List.length slice) (slice ++ padding))
      /\ send_chunk steady_clock chunk_seconds bytes_per_second chunk_size l1
         = Stop l2
      /\ sent (sock l2) = sent (sock l1)
      /\ send_loop 2 steady_clock chunk_seconds bytes_per_second chunk_size
           last_slice
         = Some (Stop l2).
Proof.
  assert (Hk : 0 < len (stdout last_slice)
               < int (inject_Z (16000 * 2) * (1 # 4000))).
  { split; reflexivity. }
  assert (Hacc : accepts 2 (sock last_slice)) by constructor.
  split; [exact Hk|]. split; [exact Hacc|].
  apply (padding_correctness steady_clock (1 # 4000)%Q last_slice Hk Hacc).
Defined.

(** When the send of the padding raises, the slice is on the wire without
    its padding: the chunk is counted and stays in the queue, the handler
    prints the error, and the run ends without the final wait and without
    the report of the chunks that have no response. *)
Example padding_send_raises :
  let l := send_audio_in_chunks steady_clock [x01; x02; x03] full_after_one
             (1 # 4000) in
  sent (sock l) = [[x01; x02; x03]; []]
  /\ chunk_count l = 1
  /\ total_bytes_sent l = 3
  /\ chunk_timestamps l = [(1, 2%Q)]
  /\ log l = [Error].
Proof. vm_compute. repeat split; reflexivity. Qed.

(** A recording of five seconds in chunks of two: the third chunk is the
    second of audio that is left and a second of silence. *)
Example five_seconds_in_chunks_of_two :
  let pcm := repeat x01 (Z.to_nat 160000) in
  let l := send_audio_in_chunks steady_clock pcm (example_socket []) 2 in
  map (@len byte) (sent (sock l)) = [64000; 64000; 32000; 32000]
  /\ total_bytes_sent l = 192000
  /\ chunk_count l = 3
  /\ forallb (Byte.eqb x00) (List.concat (skipn 3 (sent (sock l)))) = true.
Proof. vm_compute. repeat split; reflexivity. Qed.

(** * Further properties of the client *)

(** ** Any payload *)

Lemma for_messages_spec (messages : list string) :
  forall q : list pending,
    for_messages messages q
    = (skipn (List.length (filter nonempty messages)) q,
       map (fun p => report (fst p) (snd p))
         (combine q (filter nonempty messages))).
Proof.
  induction messages as [|m messages IH]; intros q;
    [destruct q; reflexivity|].
  cbn [for_messages filter]. destruct (nonempty m) eqn:Hm.
  - destruct q as [|[n t] q].
    + rewrite IH. rewrite skipn_nil. reflexivity.
    + rewrite IH. reflexivity.
  - apply IH.
Qed.

(** X7. What one receive does to the queue, for any payload: the payload is
    stripped and split at the newlines, the pieces that are not empty are
    matched in order with the oldest records, one record each; lines beyond
    the last record are dropped and records beyond the last line stay in the
    queue, in their order. *)
Theorem receive_matches_in_order (s : socket) (rest : list readiness)
    (response : string) (r : pending) (q : list pending) :
  incoming s = Data response :: rest ->
  nonempty response = true ->
  try_receive_response s (r :: q)
  = (received s rest,
     skipn (List.length (messages_of response)) (r :: q),
     map (fun p => report (fst p) (snd p))
       (combine (r :: q) (messages_of response))).
Proof.
  intros Hs Hne. rewrite (try_receive_response_payload s rest response r q Hs).
  rewrite Hne, for_messages_spec. reflexivity.
Qed.

Lemma receive_matches_in_order_witness :
  let s := example_socket [("a" ++ newline ++ newline ++ "b" ++ newline ++ "c")%string] in
  incoming s = Data ("a" ++ newline ++ newline ++ "b" ++ newline ++ "c")%string :: []
  /\ nonempty ("a" ++ newline ++ newline ++ "b" ++ newline ++ "c")%string = true
  /\ try_receive_response s ((1, 10%Q) :: [(2, 12%Q)])
     = (received s [],
        skipn (List.length
                 (messages_of ("a" ++ newline ++ newline ++ "b" ++ newline ++ "c")%string))
          ((1, 10%Q) :: [(2, 12%Q)]),
        map (fun p => report (fst p) (snd p))
          (combine ((1, 10%Q) :: [(2, 12%Q)])
             (messages_of ("a" ++ newline ++ newline ++ "b" ++ newline ++ "c")%string))).
Proof.
  split; [reflexivity|]. split; [reflexivity|].
  apply (receive_matches_in_order
           (example_socket [("a" ++ newline ++ newline ++ "b" ++ newline ++ "c")%string])
           [] _ (1, 10%Q) [(2, 12%Q)] eq_refl eq_refl).
Defined.

(** An empty line is skipped and the line after the last record is dropped. *)
Example surplus_line_is_dropped :
  try_receive_response
    (example_socket [("a" ++ newline ++ newline ++ "b" ++ newline ++ "c")%string])
    [(1, 10%Q); (2, 12%Q)]
  = (received (example_socket [EmptyString]) [], [],
     [ResponseFor 1 10 "a"; ResponseFor 2 12 "b"]).
Proof. vm_compute. reflexivity. Qed.

(** ** The queue is only ever taken from the front *)

Lemma answered_app (l1 l2 : list printed) :
  answered (l1 ++ l2) = answered l1 ++ answered l2.
Proof.
  induction l1 as [|e l1 IH]; [reflexivity|].
  destruct e; cbn [app answered]; rewrite IH; reflexivity.
Qed.

Lemma unanswered_app (l1 l2 : list printed) :
  unanswered (l1 ++ l2) = unanswered l1 ++ unanswered l2.
Proof.
  induction l1 as [|e l1 IH]; [reflexivity|].
  destruct e; cbn [app unanswered]; rewrite IH; reflexivity.
Qed.

Lemma for_messages_drains (messages : list string) :
  forall q : list pending,
    answered (snd (for_messages messages q)) ++ fst (for_messages messages q) = q
    /\ unanswered (snd (for_messages messages q)) = [].
Proof.
  induction messages as [|m messages IH]; intros q; [split; reflexivity|].
  cbn [for_messages]. destruct (nonempty m); [|apply IH].
  destruct q as [|[n t] q]; [apply IH|].
  destruct (IH q) as [Ha Hu].
  destruct (for_messages messages q) as [q' log]. cbn [fst snd] in *.
  cbn [answered unanswered app]. split; congruence.
Qed.

Lemma try_receive_response_drains (s : socket) (q : list pending) :
  drains 1 s q (try_receive_response s q).
Proof.
  unfold try_receive_response. destruct q as [|r q].
  { cbn. repeat split; lia. }
  cbn [truthy negb]. unfold select, recv.
  destruct (incoming s) as [|[|response|] rest] eqn:Hs; cbn [incoming];
    rewrite ?Hs; try (cbn; repeat split; lia).
  destruct (nonempty response); [|cbn; repeat split; lia].
  destruct (for_messages_drains (split LF (strip response)) (r :: q)) as [Ha Hu].
  destruct (for_messages _ _) as [q' log]. cbn [fst snd] in *.
  cbn. repeat split; try assumption; lia.
Qed.

Lemma drains_reliable (n : nat) (s s' : socket) (q q' : list pending)
    (log : list printed) :
  drains n s q (s', q', log) -> reliable s -> reliable s'.
Proof.
  intros (_ & _ & _ & _ & Hf) Hrel. unfold reliable in *. rewrite Hf.
  exact Hrel.
Qed.

Lemma drains_then (n m : nat) (s s1 : socket) (q q1 : list pending)
    (log1 : list printed) (r : socket * list pending * list printed) :
  drains n s q (s1, q1, log1) ->
  drains m s1 q1 r ->
  let '(s2, q2, log2) := r in drains (n + m) s q (s2, q2, log1 ++ log2).
Proof.
  destruct r as [[s2 q2] log2]. cbn [drains].
  intros (Ha1 & Hu1 & Hs1 & Hc1 & Hf1) (Ha2 & Hu2 & Hs2 & Hc2 & Hf2).
  rewrite answered_app, unanswered_app, Hu1, Hu2, <- app_assoc, Ha2, Ha1.
  repeat split; try congruence; lia.
Qed.

Lemma sleep_loop_drains (polls : nat) :
  forall s q, drains polls s q (sleep_loop polls s q).
Proof.
  induction polls as [|polls IH]; intros s q.
  - cbn. repeat split; lia.
  - cbn [sleep_loop].
    pose proof (try_receive_response_drains s q) as H1.
    destruct (try_receive_response s q) as [[s1 q1] log1].
    pose proof (drains_then 1 polls s s1 q q1 log1 _ H1 (IH s1 q1)) as H2.
    destruct (sleep_loop polls s1 q1) as [[s2 q2] log2]. exact H2.
Qed.

Lemma wait_loop_drains (polls : nat) :
  forall s q, drains polls s q (wait_loop polls s q).
Proof.
  induction polls as [|polls IH]; intros s q.
  - cbn. repeat split; lia.
  - cbn [wait_loop]. destruct (truthy q); [|cbn; repeat split; lia].
    pose proof (try_receive_response_drains s q) as H1.
    destruct (try_receive_response s q) as [[s1 q1] log1].
    pose proof (drains_then 1 polls s s1 q q1 log1 _ H1 (IH s1 q1)) as H2.
    destruct (wait_loop polls s1 q1) as [[s2 q2] log2]. exact H2.
Qed.

(** X8. The final wait takes records from the front of the queue only: the
    records it prints a response for, in the order of printing, followed by
    the queue it leaves, are the queue it was given; it prints no record as
    unanswered, sends nothing, and calls [recv] at most once per poll. *)
Theorem final_wait_keeps_order (polls : nat) (s : socket) (q : list pending) :
  let '(s', q', log) := wait_for_final_responses polls s q in
  answered log ++ q' = q
  /\ unanswered log = []
  /\ sent s' = sent s
  /\ (recv_calls s <= recv_calls s' <= recv_calls s + polls)%nat.
Proof.
  unfold wait_for_final_responses. destruct (truthy q) eqn:Hq; cbn [negb].
  - pose proof (wait_loop_drains polls s q) as Hd.
    destruct (wait_loop polls s q) as [[s' q'] log].
    destruct Hd as (Ha & Hu & Hs & Hc & _). auto.
  - apply ServerProofs.truthy_false in Hq. subst q. cbn. repeat split; lia.
Qed.

(** ** [check_for_additional_responses] *)

Lemma additional_responses_spec (payloads : list string) :
  forall (records : list pending) (s : socket) (rest : list readiness),
    incoming s = map Data payloads ++ Idle :: rest ->
    Forall (fun p => nonempty p = true) payloads ->
    (List.length payloads < List.length records)%nat ->
    check_for_additional_responses s records
    = (after_recvs s (List.length payloads) rest,
       skipn (List.length payloads) records,
       map (fun p => report (fst p) (snd p)) (combine records payloads)).
Proof.
  induction payloads as [|p payloads IH]; intros records s rest Hs Hne Hlen;
    destruct records as [|[n t] records]; try (simpl in Hlen; lia).
  - cbn [check_for_additional_responses]. unfold select. rewrite Hs.
    cbn [map app negb List.length skipn combine]. unfold after_recvs, with_incoming.
    rewrite Nat.add_0_r. reflexivity.
  - inversion Hne as [|? ? Hp Hrest]; subst.
    cbn [check_for_additional_responses]. unfold select. rewrite Hs.
    cbn [map app negb]. unfold recv. cbn [incoming]. rewrite Hs.
    cbn [map app]. rewrite Hp. cbn [negb].
    rewrite (IH records _ rest); [|reflexivity|exact Hrest|simpl in Hlen; lia].
    cbn [List.length skipn combine map fst snd report].
    unfold after_recvs, with_incoming. cbn [recv_calls sent].
    rewrite Nat.add_succ_comm. reflexivity.
Qed.

(** X9. [check_for_additional_responses] takes one record for every receive:
    with k payloads waiting and more than k records pending, it pops the k
    oldest records and reports the i-th with the whole i-th payload, neither
    stripped nor split into lines, then stops at the poll that finds nothing
    to read, after k calls of [recv]. *)
Theorem additional_responses_one_per_receive (payloads : list string)
    (records : list pending) (s : socket) (rest : list readiness) :
  incoming s = map Data payloads ++ Idle :: rest ->
  Forall (fun p => nonempty p = true) payloads ->
  (List.length payloads < List.length records)%nat ->
  check_for_additional_responses s records
  = (after_recvs s (List.length payloads) rest,
     skipn (List.length payloads) records,
     map (fun p => report (fst p) (snd p)) (combine records payloads)).
Proof. apply additional_responses_spec. Qed.

Lemma additional_responses_one_per_receive_witness :
  incoming idle_after_two = map Data two_payloads ++ Idle :: []
  /\ Forall (fun p => nonempty p = true) two_payloads
  /\ (List.length two_payloads < List.length three_records)%nat
  /\ check_for_additional_responses idle_after_two three_records
     = (after_recvs idle_after_two (List.length two_payloads) [],
        skipn (List.length two_payloads) three_records,
        map (fun p => report (fst p) (snd p))
          (combine three_records two_payloads)).
Proof.
  assert (Hne : Forall (fun p => nonempty p = true) two_payloads)
    by (repeat constructor).
  split; [reflexivity|]. split; [exact Hne|]. split; [cbn; lia|].
  apply (additional_responses_one_per_receive two_payloads three_records
           idle_after_two [] eq_refl Hne).
  cbn. lia.
Defined.

(** A payload of two lines is one response there. *)
Example two_lines_one_record :
  check_for_additional_responses idle_after_two three_records
  = (after_recvs idle_after_two 2 [], [(3, 14%Q)],
     [ResponseFor 1 10 ("0 1720 Takhle" ++ newline ++ "No input" ++ newline)%string;
      ResponseFor 2 12 " 1720 2400 dobre"]).
Proof. vm_compute. reflexivity. Qed.

(** ** One iteration of the send loop, in general *)

Lemma with_stdout_same (l : locals) :
  {| stdout := stdout l; sock := sock l; chunk_timestamps := chunk_timestamps l;
     total_bytes_sent := total_bytes_sent l; chunk_count := chunk_count l;
     log := log l |} = l.
Proof. destruct l; reflexivity. Qed.

Lemma send_chunk_cases (clock : timing) (chunk_seconds : Q)
    (bytes_per_second chunk_size : Z) (l : locals) :
  reliable (sock l) ->
  (chunk_size < -1
   /\ send_chunk clock chunk_seconds bytes_per_second chunk_size l = Raised l)
  \/ (exists rest,
        read (stdout l) chunk_size = Some ([], rest)
        /\ send_chunk clock chunk_seconds bytes_per_second chunk_size l
           = Stop {| stdout := rest; sock := sock l;
                     chunk_timestamps := chunk_timestamps l;
                     total_bytes_sent := total_bytes_sent l;
                     chunk_count := chunk_count l; log := log l |})
  \/ (exists data rest l1,
        read (stdout l) chunk_size = Some (data, rest)
        /\ data <> []
        /\ send_chunk clock chunk_seconds bytes_per_second chunk_size l = Next l1
        /\ sent_chunk clock chunk_seconds bytes_per_second chunk_size l
             data rest l1).
Proof.
  intros Hrel. unfold send_chunk.
  destruct (read (stdout l) chunk_size) as [[data rest]|] eqn:Hread.
  - destruct (truthy data) eqn:Hdata; cbn [negb].
    + right. right. exists data, rest.
      apply ServerProofs.truthy_true in Hdata.
      destruct (sendall_reliable (sock l) data Hrel) as [-> Hrel1].
      set (q1 := chunk_timestamps l
                 ++ [(chunk_count l + 1, time_of_send clock (chunk_count l + 1))]).
      unfold sent_chunk, padding_of.
      set (cond := (len data <? chunk_size)
                   && Qlt_bool (inject_Z (len data) / inject_Z bytes_per_second)
                        chunk_seconds).
      set (padding := repeat x00 (Z.to_nat (chunk_size - len data))).
      assert (Hs1 : exists s1 t1,
                 (if cond
                  then match sendall (after_send (sock l) data) padding with
                       | (true, sock) =>
                           (true, sock,
                            total_bytes_sent l + len data + (chunk_size - len data))
                       | (false, sock) =>
                           (false, sock, total_bytes_sent l + len data)
                       end
                  else (true, after_send (sock l) data,
                        total_bytes_sent l + len data))
                 = (true, s1, t1)
                 /\ reliable s1
                 /\ sent s1 = sent (sock l)
                              ++ data :: (if cond then [padding] else [])
                 /\ t1 = total_bytes_sent l
                         + len (List.concat
                                  (data :: (if cond then [padding] else [])))).
      { destruct cond eqn:Hc.
        - destruct (sendall_reliable (after_send (sock l) data) padding Hrel1)
            as [-> Hrel2].
          eexists. eexists. split; [reflexivity|]. split; [exact Hrel2|].
          unfold after_send. cbn [sent List.concat].
          rewrite <- app_assoc, app_nil_r, ServerProofs.len_app.
          split; [reflexivity|].
          unfold cond in Hc. apply andb_prop in Hc. destruct Hc as [Hlt _].
          apply Z.ltb_lt in Hlt. unfold padding, len in *.
          rewrite repeat_length. lia.
        - eexists. eexists. split; [reflexivity|]. split; [exact Hrel1|].
          unfold after_send. cbn [sent List.concat]. rewrite app_nil_r.
          split; reflexivity. }
      destruct Hs1 as (s1 & t1 & -> & Hrel2 & Hsent1 & Ht1).
      pose proof (try_receive_response_drains s1 q1) as H1.
      destruct (try_receive_response s1 q1) as [[s2 q2] log2].
      assert (H2 : exists s3 q3 log3,
                 (if truthy rest
                  then sleep_loop (polls_after clock (chunk_count l + 1)) s2 q2
                  else (s2, q2, [])) = (s3, q3, log3)
                 /\ answered log3 ++ q3 = q2 /\ unanswered log3 = []
                 /\ sent s3 = sent s2 /\ send_faults s3 = send_faults s2).
      { destruct (truthy rest).
        - pose proof (sleep_loop_drains (polls_after clock (chunk_count l + 1))
                        s2 q2) as Hd.
          destruct (sleep_loop _ s2 q2) as [[s3 q3] log3].
          destruct Hd as (Ha & Hu & Hs & _ & Hf).
          exists s3, q3, log3. auto.
        - exists s2, q2, []. auto. }
      destruct H2 as (s3 & q3 & log3 & Heq & Ha3 & Hu3 & Hs3 & Hf3).
      rewrite Heq. destruct H1 as (Ha2 & Hu2 & Hs2 & _ & Hf2).
      eexists. split; [reflexivity|]. split; [exact Hdata|].
      split; [reflexivity|].
      cbn [stdout chunk_count sock total_bytes_sent log chunk_timestamps].
      split; [reflexivity|].
      split; [unfold reliable in *; rewrite Hf3, Hf2; exact Hrel2|].
      split; [reflexivity|].
      split; [congruence|]. split; [exact Ht1|].
      exists (log2 ++ log3). split; [reflexivity|].
      rewrite answered_app, unanswered_app, Hu2, Hu3, <- app_assoc, Ha3, Ha2.
      split; reflexivity.
    + right. left. exists rest.
      apply ServerProofs.truthy_false in Hdata. subst data.
      split; reflexivity.
  - left. split; [|reflexivity]. unfold read in Hread.
    destruct (chunk_size <? -1) eqn:Hlt; [apply Z.ltb_lt; exact Hlt|].
    destruct (chunk_size =? -1); discriminate.
Qed.

Lemma read_some (pipe data rest : bytes) (size : Z) :
  read pipe size = Some (data, rest) -> -1 <= size /\ data ++ rest = pipe.
Proof.
  unfold read. destruct (size <? -1) eqn:Hlt; [discriminate|].
  apply Z.ltb_ge in Hlt. destruct (size =? -1); intros [= <- <-].
  - split; [exact Hlt|apply app_nil_r].
  - split; [exact Hlt|apply firstn_skipn].
Qed.

(** ** The bookkeeping of the send loop *)

Lemma records_succ (clock : timing) (k : nat) :
  records clock (S k)
  = records clock k
    ++ [(Z.of_nat k + 1, time_of_send clock (Z.of_nat k + 1))].
Proof.
  unfold records. rewrite seq_S, map_app. cbn [map Nat.add].
  rewrite Nat2Z.inj_succ. reflexivity.
Qed.

Lemma send_chunk_accounts (clock : timing) (chunk_seconds : Q)
    (bytes_per_second chunk_size : Z) (s0 : socket) (l : locals) :
  accounts clock s0 l ->
  accounts clock s0
    (locals_of (send_chunk clock chunk_seconds bytes_per_second chunk_size l)).
Proof.
  intros Hacc.
  assert (Hrel : reliable (sock l)) by (destruct Hacc as (k & H); apply H).
  destruct (send_chunk_cases clock chunk_seconds bytes_per_second chunk_size l
              Hrel)
    as [[_ ->] | [(rest & _ & ->) | (data & rest & l1 & _ & _ & -> & Hsc)]];
    cbn [locals_of]; [exact Hacc|exact Hacc|].
  destruct Hacc as (k & Hc & Ha & Hu & Ht & _).
  destruct Hsc as (_ & Hrel1 & Hc1 & Hs1 & Ht1 & log1 & Hlog & Ha1 & Hu1).
  exists (S k). split; [rewrite Hc1, Hc; lia|].
  split; [|split; [|split]].
  - rewrite Hlog, answered_app, <- app_assoc, Ha1, app_assoc, Ha.
    rewrite records_succ, Hc. reflexivity.
  - rewrite Hlog, unanswered_app, Hu, Hu1. reflexivity.
  - rewrite Ht1, Hs1, concat_app, ServerProofs.len_app. lia.
  - exact Hrel1.
Qed.

Lemma send_loop_accounts (fuel : nat) (clock : timing) (chunk_seconds : Q)
    (bytes_per_second chunk_size : Z) (s0 : socket) :
  forall (l : locals) (f : flow),
    accounts clock s0 l ->
    send_loop fuel clock chunk_seconds bytes_per_second chunk_size l = Some f ->
    accounts clock s0 (locals_of f).
Proof.
  induction fuel as [|fuel IH]; intros l f Hacc Hrun; [discriminate|].
  cbn [send_loop] in Hrun.
  pose proof (send_chunk_accounts clock chunk_seconds bytes_per_second
                chunk_size s0 l Hacc) as Hstep.
  destruct (send_chunk clock chunk_seconds bytes_per_second chunk_size l)
    as [l1|l1|l1]; cbn [locals_of] in Hstep.
  - exact (IH l1 f Hstep Hrun).
  - injection Hrun as <-. exact Hstep.
  - injection Hrun as <-. exact Hstep.
Qed.

Lemma send_loop_no_raise (fuel : nat) (clock : timing) (chunk_seconds : Q)
    (bytes_per_second chunk_size : Z) :
  -1 <= chunk_size ->
  forall l l',
    reliable (sock l) ->
    send_loop fuel clock chunk_seconds bytes_per_second chunk_size l
    <> Some (Raised l').
Proof.
  intros Hcs. induction fuel as [|fuel IH]; intros l l' Hrel; [discriminate|].
  cbn [send_loop].
  destruct (send_chunk_cases clock chunk_seconds bytes_per_second chunk_size l
              Hrel)
    as [[Hlt _] | [(rest & _ & ->) | (data & rest & l1 & _ & _ & -> & Hsc)]];
    [lia|discriminate|apply IH; apply Hsc].
Qed.

Lemma send_loop_raised (fuel : nat) (clock : timing) (chunk_seconds : Q)
    (bytes_per_second chunk_size : Z) (l l' : locals) :
  reliable (sock l) ->
  send_loop fuel clock chunk_seconds bytes_per_second chunk_size l
  = Some (Raised l') ->
  l' = l.
Proof.
  intros Hrel. destruct fuel as [|fuel]; [discriminate|]. cbn [send_loop].
  destruct (send_chunk_cases clock chunk_seconds bytes_per_second chunk_size l
              Hrel)
    as [[_ ->] | [(rest & _ & ->) | (data & rest & l1 & Hread & _ & -> & Hsc)]].
  - intros [= <-]. reflexivity.
  - discriminate.
  - intros Hrun. exfalso. apply read_some in Hread.
    exact (send_loop_no_raise fuel clock chunk_seconds bytes_per_second
             chunk_size (proj1 Hread) l1 l' (proj1 (proj2 Hsc)) Hrun).
Qed.

Lemma wait_for_final_responses_drains (polls : nat) (s : socket)
    (q : list pending) :
  drains polls s q (wait_for_final_responses polls s q).
Proof.
  unfold wait_for_final_responses. destruct (truthy q) eqn:Hq; cbn [negb].
  - exact (wait_loop_drains polls s q).
  - apply ServerProofs.truthy_false in Hq. subst q. cbn. repeat split; lia.
Qed.

Lemma answered_no_response (q : list pending) :
  answered (map (fun r => NoResponse (fst r) (snd r)) q) = []
  /\ unanswered (map (fun r => NoResponse (fst r) (snd r)) q) = q.
Proof.
  induction q as [|[n t] q [IHa IHu]]; [split; reflexivity|].
  cbn [map answered unanswered fst snd].
  split; [exact IHa|rewrite IHu; reflexivity].
Qed.

(** The state of the whole run when no send raises: every chunk counted is
    printed once, with its response or as unanswered, and the byte count is
    exact. *)
Lemma send_audio_in_chunks_accounts (clock : timing) (pcm : bytes)
    (s : socket) (chunk_seconds : Q) :
  reliable s ->
  let l := send_audio_in_chunks clock pcm s chunk_seconds in
  exists k : nat,
    chunk_count l = Z.of_nat k
    /\ answered (log l) ++ unanswered (log l) = records clock k
    /\ unanswered (log l) = chunk_timestamps l
    /\ total_bytes_sent l + len (List.concat (sent s))
       = len (List.concat (sent (sock l))).
Proof.
  intros Hrel. unfold send_audio_in_chunks.
  set (bytes_per_second := 16000 * 2).
  set (chunk_size := int (inject_Z bytes_per_second * chunk_seconds)).
  set (l0 := {| stdout := pcm; sock := s; chunk_timestamps := [];
                total_bytes_sent := 0; chunk_count := 0; log := [] |}).
  assert (H0 : accounts clock s l0).
  { exists O. cbn. repeat split. exact Hrel. }
  pose proof (send_loop_accounts (S (List.length pcm)) clock chunk_seconds
                bytes_per_second chunk_size s l0) as Hinv.
  pose proof (send_loop_total (S (List.length pcm)) clock chunk_seconds
                bytes_per_second chunk_size l0 (Nat.lt_succ_diag_r _))
    as [Hsome Hnext].
  destruct (send_loop (S (List.length pcm)) clock chunk_seconds
              bytes_per_second chunk_size l0) as [[l|l|l]|] eqn:Hrun.
  - exfalso. exact (Hnext l eq_refl).
  - destruct (Hinv _ H0 eq_refl) as (k & Hc & Ha & Hu & Ht & _).
    cbn [locals_of] in *.
    pose proof (wait_for_final_responses_drains (polls_at_end clock) (sock l)
                  (chunk_timestamps l)) as Hd.
    destruct (wait_for_final_responses (polls_at_end clock) (sock l)
                (chunk_timestamps l)) as [[s' q] log1].
    destruct Hd as (Ha1 & Hu1 & Hs1 & _).
    destruct (answered_no_response q) as [Hna Hnu].
    exists k. cbn [chunk_count log chunk_timestamps total_bytes_sent sock].
    rewrite !answered_app, !unanswered_app, Hu, Hu1, Hna, Hnu, app_nil_r.
    cbn [app]. repeat split; try assumption.
    + rewrite <- app_assoc, Ha1. exact Ha.
    + rewrite Hs1. exact Ht.
  - apply send_loop_raised in Hrun; [|exact Hrel]. subst l.
    exists O. cbn. repeat split.
  - exfalso. exact (Hsome eq_refl).
Qed.

(** X10. Every chunk is accounted for once, as long as no call of
    [sendall] raises: when [send_audio_in_chunks] returns, the records
    printed with a response followed by the records printed as unanswered
    are the records of the chunks 1 to [chunk_count], in the order they were
    sent; the unanswered ones are those left in the queue. *)
Theorem every_chunk_accounted_once (clock : timing) (pcm : bytes)
    (s : socket) (chunk_seconds : Q) :
  reliable s ->
  let l := send_audio_in_chunks clock pcm s chunk_seconds in
  exists k : nat,
    chunk_count l = Z.of_nat k
    /\ answered (log l) ++ unanswered (log l) = records clock k
    /\ unanswered (log l) = chunk_timestamps l.
Proof.
  intros Hrel.
  destruct (send_audio_in_chunks_accounts clock pcm s chunk_seconds Hrel)
    as (k & Hc & Ha & Hu & _).
  exists k. auto.
Qed.

Lemma every_chunk_accounted_once_witness :
  reliable (example_socket ["No input"])
  /\ let l := send_audio_in_chunks steady_clock [x01; x02; x03]
                (example_socket ["No input"]) (1 # 32000) in
     exists k : nat,
       chunk_count l = Z.of_nat k
       /\ answered (log l) ++ unanswered (log l) = records steady_clock k
       /\ unanswered (log l) = chunk_timestamps l.
Proof.
  assert (Hrel : reliable (example_socket ["No input"])) by constructor.
  split; [exact Hrel|].
  apply (every_chunk_accounted_once steady_clock [x01; x02; x03]
           (example_socket ["No input"]) (1 # 32000) Hrel).
Defined.

(** Three chunks of one byte and one response: the first chunk is printed
    with it, the other two as unanswered. *)
Example one_response_for_three_chunks :
  let l := send_audio_in_chunks steady_clock [x01; x02; x03]
             (example_socket ["No input"]) (1 # 32000) in
  log l = [ResponseFor 1 2 "No input"; NoResponse 2 4; NoResponse 3 6]
  /\ chunk_timestamps l = [(2, 4%Q); (3, 6%Q)].
Proof. vm_compute. split; reflexivity. Qed.

(** X11. The byte count is exact as long as no call of [sendall] raises:
    [total_bytes_sent] is then the number of bytes that went through
    [sendall], padding included. *)
Theorem total_bytes_sent_is_exact (clock : timing) (pcm : bytes)
    (s : socket) (chunk_seconds : Q) :
  reliable s ->
  let l := send_audio_in_chunks clock pcm s chunk_seconds in
  total_bytes_sent l
  = len (List.concat (sent (sock l))) - len (List.concat (sent s)).
Proof.
  intros Hrel.
  destruct (send_audio_in_chunks_accounts clock pcm s chunk_seconds Hrel)
    as (k & _ & _ & _ & Ht).
  cbv zeta. lia.
Qed.

Lemma total_bytes_sent_is_exact_witness :
  reliable (example_socket [])
  /\ let l := send_audio_in_chunks steady_clock [x01; x02; x03]
                (example_socket []) (1 # 16000) in
     total_bytes_sent l
     = len (List.concat (sent (sock l)))
       - len (List.concat (sent (example_socket []))).
Proof.
  assert (Hrel : reliable (example_socket [])) by constructor.
  split; [exact Hrel|].
  apply (total_bytes_sent_is_exact steady_clock [x01; x02; x03]
           (example_socket []) (1 # 16000) Hrel).
Defined.

(** A send that raises leaves its bytes out of the count: here the second
    call raises after one of its two bytes is out. *)
Example raising_send_is_not_counted :
  let s := {| incoming := []; recv_calls := 0; sent := [];
              send_faults := [None; Some 1%nat] |} in
  let l := send_audio_in_chunks steady_clock [x01; x02; x03; x04] s (1 # 16000) in
  sent (sock l) = [[x01; x02]; [x03]]
  /\ total_bytes_sent l = 2
  /\ chunk_count l = 1
  /\ stdout l = []
  /\ log l = [Error].
Proof. vm_compute. repeat split; reflexivity. Qed.

(** ** The bookkeeping when a send raises *)

Lemma sendall_wire (s : socket) (data : bytes) :
  exists wire,
    snd (sendall s data) = after_send s wire
    /\ (fst (sendall s data) = true -> wire = data).
Proof.
  unfold sendall. destruct (send_faults s) as [|[n|] faults]; eexists;
    (split; [reflexivity|]); cbn [fst]; intros Hok;
    reflexivity || discriminate Hok.
Qed.

Lemma len_after_send (s : socket) (wire : bytes) :
  len (List.concat (sent (after_send s wire)))
  = len (List.concat (sent s)) + len wire.
Proof.
  unfold after_send. cbn [sent].
  rewrite concat_app, ServerProofs.len_app. cbn [List.concat].
  rewrite app_nil_r. reflexivity.
Qed.

Lemma pacing_tallies (clock : timing) (s0 s1 : socket) (l : locals)
    (rest : bytes) (k : nat) (t1 : Z) :
  chunk_count l = Z.of_nat k ->
  answered (log l) ++ chunk_timestamps l = records clock k ->
  unanswered (log l) = [] ->
  t1 + len (List.concat (sent s0)) <= len (List.concat (sent s1)) ->
  tallies clock s0
    (locals_of
       (let '(sock, chunk_timestamps, log1) :=
          try_receive_response s1
            (chunk_timestamps l
             ++ [(chunk_count l + 1, time_of_send clock (chunk_count l + 1))]) in
        let '(sock, chunk_timestamps, log2) :=
          if truthy rest
          then sleep_loop (polls_after clock (chunk_count l + 1)) sock
                 chunk_timestamps
          else (sock, chunk_timestamps, []) in
        Next {| stdout := rest; sock := sock;
                chunk_timestamps := chunk_timestamps;
                total_bytes_sent := t1; chunk_count := chunk_count l + 1;
                log := log l ++ log1 ++ log2 |})).
Proof.
  intros Hc Ha Hu Ht.
  set (q1 := chunk_timestamps l
             ++ [(chunk_count l + 1, time_of_send clock (chunk_count l + 1))]).
  pose proof (try_receive_response_drains s1 q1) as H1.
  destruct (try_receive_response s1 q1) as [[s2 q2] log2].
  assert (H2 : drains (polls_after clock (chunk_count l + 1)) s2 q2
                 (if truthy rest
                  then sleep_loop (polls_after clock (chunk_count l + 1)) s2 q2
                  else (s2, q2, []))).
  { destruct (truthy rest); [apply sleep_loop_drains|].
    cbn. repeat split; lia. }
  destruct (if truthy rest then _ else _) as [[s3 q3] log3].
  destruct H1 as (Ha2 & Hu2 & Hs2 & _). destruct H2 as (Ha3 & Hu3 & Hs3 & _).
  exists (S k).
  cbn [locals_of chunk_count log chunk_timestamps total_bytes_sent sock].
  split; [rewrite Hc; lia|]. split; [|split].
  - rewrite !answered_app, <- !app_assoc, Ha3, Ha2. unfold q1.
    rewrite app_assoc, Ha, records_succ, Hc. reflexivity.
  - rewrite !unanswered_app, Hu, Hu2, Hu3. reflexivity.
  - rewrite Hs3, Hs2. exact Ht.
Qed.

Lemma send_chunk_tallies (clock : timing) (chunk_seconds : Q)
    (bytes_per_second chunk_size : Z) (s0 : socket) (l : locals) :
  tallies clock s0 l ->
  tallies clock s0
    (locals_of (send_chunk clock chunk_seconds bytes_per_second chunk_size l)).
Proof.
  intros Htal. pose proof Htal as (k & Hc & Ha & Hu & Ht). unfold send_chunk.
  destruct (read (stdout l) chunk_size) as [[data rest]|]; [|exact Htal].
  destruct (truthy data); cbn [negb];
    [|exists k; cbn; repeat split; assumption].
  destruct (sendall_wire (sock l) data) as (w1 & Hw1 & Hok1).
  pose proof (ServerProofs.len_nonneg w1) as Hn1.
  destruct (sendall (sock l) data) as [[|] s1]; cbn [fst snd] in *; subst s1.
  2:{ exists k. cbn [locals_of chunk_count log chunk_timestamps
                      total_bytes_sent sock].
      rewrite len_after_send. repeat split; try assumption. lia. }
  rewrite (Hok1 eq_refl) in *. clear Hok1.
  destruct (_ && _).
  - set (padding := repeat x00 (Z.to_nat (chunk_size - len data))).
    destruct (sendall_wire (after_send (sock l) data) padding)
      as (w2 & Hw2 & Hok2).
    pose proof (ServerProofs.len_nonneg w2) as Hn2.
    destruct (sendall (after_send (sock l) data) padding) as [[|] s2];
      cbn [fst snd] in *; subst s2.
    + apply (pacing_tallies clock s0 _ l rest k); try assumption.
      rewrite (Hok2 eq_refl), !len_after_send.
      assert (Hpad : chunk_size - len data <= len padding).
      { unfold padding, len. rewrite repeat_length. lia. }
      assert (Hpad' : len padding <= Z.max 0 (chunk_size - len data)).
      { unfold padding, len. rewrite repeat_length. lia. }
      lia.
    + exists (S k).
      cbn [locals_of chunk_count log chunk_timestamps total_bytes_sent sock].
      rewrite !len_after_send.
      split; [rewrite Hc; lia|]. split; [|split; [exact Hu|lia]].
      rewrite app_assoc, Ha, records_succ, Hc. reflexivity.
  - apply (pacing_tallies clock s0 _ l rest k); try assumption.
    rewrite len_after_send. lia.
Qed.

Lemma send_loop_tallies (fuel : nat) (clock : timing) (chunk_seconds : Q)
    (bytes_per_second chunk_size : Z) (s0 : socket) :
  forall (l : locals) (f : flow),
    tallies clock s0 l ->
    send_loop fuel clock chunk_seconds bytes_per_second chunk_size l = Some f ->
    tallies clock s0 (locals_of f).
Proof.
  induction fuel as [|fuel IH]; intros l f Htal Hrun; [discriminate|].
  cbn [send_loop] in Hrun.
  pose proof (send_chunk_tallies clock chunk_seconds bytes_per_second
                chunk_size s0 l Htal) as Hstep.
  destruct (send_chunk clock chunk_seconds bytes_per_second chunk_size l)
    as [l1|l1|l1]; cbn [locals_of] in Hstep.
  - exact (IH l1 f Hstep Hrun).
  - injection Hrun as <-. exact Hstep.
  - injection Hrun as <-. exact Hstep.
Qed.

(** X17. Whatever becomes of the sends, no chunk is lost from the books or
    counted twice: when [send_audio_in_chunks] returns, the records printed
    with a response followed by those still in the queue are the records of
    the chunks 1 to [chunk_count], and the bytes counted in
    [total_bytes_sent] have all gone out.  Either every record left in the
    queue is printed as unanswered, or the run has ended in the exception
    handler, whose message is the last thing printed, and none of them
    is. *)
Theorem books_survive_a_raising_send (clock : timing) (pcm : bytes)
    (s : socket) (chunk_seconds : Q) :
  let l := send_audio_in_chunks clock pcm s chunk_seconds in
  exists k : nat,
    chunk_count l = Z.of_nat k
    /\ answered (log l) ++ chunk_timestamps l = records clock k
    /\ total_bytes_sent l
       <= len (List.concat (sent (sock l))) - len (List.concat (sent s))
    /\ (unanswered (log l) = chunk_timestamps l
        \/ (unanswered (log l) = []
            /\ exists log', log l = log' ++ [Error])).
Proof.
  unfold send_audio_in_chunks.
  set (bytes_per_second := 16000 * 2).
  set (chunk_size := int (inject_Z bytes_per_second * chunk_seconds)).
  set (l0 := {| stdout := pcm; sock := s; chunk_timestamps := [];
                total_bytes_sent := 0; chunk_count := 0; log := [] |}).
  assert (H0 : tallies clock s l0).
  { exists O. cbn. repeat split. lia. }
  pose proof (send_loop_tallies (S (List.length pcm)) clock chunk_seconds
                bytes_per_second chunk_size s l0) as Hinv.
  pose proof (send_loop_total (S (List.length pcm)) clock chunk_seconds
                bytes_per_second chunk_size l0 (Nat.lt_succ_diag_r _))
    as [Hsome Hnext].
  destruct (send_loop (S (List.length pcm)) clock chunk_seconds
              bytes_per_second chunk_size l0) as [[l|l|l]|] eqn:Hrun.
  - exfalso. exact (Hnext l eq_refl).
  - destruct (Hinv _ H0 eq_refl) as (k & Hc & Ha & Hu & Ht).
    cbn [locals_of] in *.
    pose proof (wait_for_final_responses_drains (polls_at_end clock) (sock l)
                  (chunk_timestamps l)) as Hd.
    destruct (wait_for_final_responses (polls_at_end clock) (sock l)
                (chunk_timestamps l)) as [[s' q] log1].
    destruct Hd as (Ha1 & Hu1 & Hs1 & _).
    destruct (answered_no_response q) as [Hna Hnu].
    exists k. cbn [chunk_count log chunk_timestamps total_bytes_sent sock].
    rewrite !answered_app, !unanswered_app, Hu, Hu1, Hna, Hnu, app_nil_r.
    cbn [app]. split; [exact Hc|]. split; [|split].
    + rewrite <- app_assoc, Ha1. exact Ha.
    + rewrite Hs1. lia.
    + left. reflexivity.
  - destruct (Hinv _ H0 eq_refl) as (k & Hc & Ha & Hu & Ht).
    cbn [locals_of] in *.
    exists k. cbn [chunk_count log chunk_timestamps total_bytes_sent sock].
    rewrite answered_app, unanswered_app, Hu. cbn [answered unanswered app].
    rewrite app_nil_r. split; [exact Hc|]. split; [exact Ha|].
    split; [lia|]. right. split; [reflexivity|]. exists (log l). reflexivity.
  - exfalso. exact (Hsome eq_refl).
Qed.

(** ** What goes on the wire *)

Lemma padding_of_short (chunk_seconds : Q) (bytes_per_second : Z)
    (data : bytes) :
  0 < bytes_per_second ->
  len data < int (inject_Z bytes_per_second * chunk_seconds) ->
  padding_of chunk_seconds bytes_per_second
    (int (inject_Z bytes_per_second * chunk_seconds)) data
  = [repeat x00
       (Z.to_nat (int (inject_Z bytes_per_second * chunk_seconds) - len data))].
Proof.
  intros Hbps Hlt. unfold padding_of.
  rewrite (chunk_duration_lt (len data) bytes_per_second chunk_seconds Hbps
             (conj (ServerProofs.len_nonneg data) Hlt)).
  apply Z.ltb_lt in Hlt. rewrite Hlt. reflexivity.
Qed.

Lemma padding_of_full (chunk_seconds : Q) (bytes_per_second chunk_size : Z)
    (data : bytes) :
  chunk_size <= len data ->
  padding_of chunk_seconds bytes_per_second chunk_size data = [].
Proof.
  intros Hle. unfold padding_of. apply Z.ltb_ge in Hle. rewrite Hle.
  reflexivity.
Qed.

Lemma read_positive (pipe : bytes) (size : Z) :
  0 < size ->
  read pipe size
  = Some (firstn (Z.to_nat size) pipe, skipn (Z.to_nat size) pipe).
Proof.
  intros Hpos. unfold read.
  destruct (size <? -1) eqn:H1; [apply Z.ltb_lt in H1; lia|].
  destruct (size =? -1) eqn:H2; [apply Z.eqb_eq in H2; lia|]. reflexivity.
Qed.

Lemma ceil_step (n c : Z) : 0 < c -> (n + c + c - 1) / c = (n + c - 1) / c + 1.
Proof.
  intros Hc. replace (n + c + c - 1) with (n + c - 1 + 1 * c) by lia.
  apply Z.div_add. lia.
Qed.

Lemma ceil_small (n c : Z) : 0 < n <= c -> (n + c - 1) / c = 1.
Proof.
  intros Hn. replace (n + c - 1) with (n - 1 + 1 * c) by lia.
  rewrite Z.div_add by lia. rewrite Z.div_small by lia. reflexivity.
Qed.

Lemma pad_step (n c : Z) : 0 < c -> (- (n + c)) mod c = (- n) mod c.
Proof.
  intros Hc. replace (- (n + c)) with (- n + (-1) * c) by lia.
  apply Z.mod_add. lia.
Qed.

Lemma pad_small (n c : Z) : 0 < n <= c -> (- n) mod c = c - n.
Proof.
  intros Hn. replace (- n) with (c - n + (-1) * c) by lia.
  rewrite Z.mod_add by lia. apply Z.mod_small. lia.
Qed.

Lemma send_loop_wire (clock : timing) (chunk_seconds : Q) (fuel : nat) :
  let bytes_per_second := 16000 * 2 in
  let chunk_size := int (inject_Z bytes_per_second * chunk_seconds) in
  0 < chunk_size ->
  forall l : locals,
    reliable (sock l) ->
    (List.length (stdout l) < fuel)%nat ->
    exists l',
      send_loop fuel clock chunk_seconds bytes_per_second chunk_size l
      = Some (Stop l')
      /\ stdout l' = []
      /\ List.concat (sent (sock l'))
         = List.concat (sent (sock l)) ++ stdout l
           ++ repeat x00 (Z.to_nat ((- len (stdout l)) mod chunk_size))
      /\ chunk_count l'
         = chunk_count l + (len (stdout l) + chunk_size - 1) / chunk_size.
Proof.
  intros bytes_per_second chunk_size Hcs.
  induction fuel as [|fuel IH]; intros l Hrel Hfuel; [lia|].
  cbn [send_loop].
  destruct (send_chunk_cases clock chunk_seconds bytes_per_second chunk_size l
              Hrel)
    as [[Hlt _] | [(rest & Hread & ->) | (data & rest & l1 & Hread & Hne & -> & Hsc)]];
    [lia| |]; rewrite read_positive in Hread by exact Hcs;
    injection Hread as Hdata Hrest.
  - assert (Hnil : stdout l = []).
    { destruct (stdout l); [reflexivity|].
      destruct (Z.to_nat chunk_size) eqn:Hn; [lia|discriminate]. }
    eexists. split; [reflexivity|]. cbn [stdout sock chunk_count].
    rewrite Hnil in *. rewrite skipn_nil in Hrest. subst rest.
    change (len (@nil byte)) with 0. cbn [Z.opp].
    rewrite Z.mod_0_l by lia. rewrite Z.div_small by lia.
    cbn [Z.to_nat repeat app]. rewrite app_nil_r, Z.add_0_r.
    repeat split.
  - destruct Hsc as (Hout1 & Hrel1 & Hc1 & Hs1 & _).
    assert (Hcat : data ++ rest = stdout l)
      by (subst data rest; apply firstn_skipn).
    assert (Hlen1 : (List.length rest < fuel)%nat).
    { apply (f_equal (@List.length byte)) in Hcat. rewrite length_app in Hcat.
      destruct data; [congruence|]. simpl in Hcat. lia. }
    rewrite <- Hout1 in Hlen1.
    destruct (IH l1 Hrel1 Hlen1) as (l' & Hrun & Hend & Hwire & Hcount).
    exists l'. split; [exact Hrun|]. split; [exact Hend|].
    rewrite Hwire, Hcount, Hs1, Hc1, Hout1, concat_app.
    assert (Hld : len data = Z.min chunk_size (len (stdout l))).
    { subst data. unfold len. rewrite length_firstn. lia. }
    assert (Hlr : len (stdout l) = len data + len rest)
      by (rewrite <- Hcat; apply ServerProofs.len_app).
    pose proof (ServerProofs.len_nonneg rest) as Hposr.
    assert (Hposd : 0 < len data)
      by (apply ServerProofs.truthy_len, ServerProofs.truthy_true; exact Hne).
    clear Hdata Hrest.
    destruct (Z.lt_ge_cases (len (stdout l)) chunk_size) as [Hshort|Hlong].
    + assert (Hr : rest = []).
      { assert (len rest = 0) by lia.
        destruct rest; [reflexivity|]. unfold len in *. simpl in *. lia. }
      clear Hout1. subst rest. rewrite app_nil_r in Hcat. subst data.
      unfold chunk_size at 1 2. unfold bytes_per_second at 1 2.
      rewrite padding_of_short by (reflexivity || exact Hshort).
      fold bytes_per_second. fold chunk_size.
      change (len (@nil byte)) with 0. cbn [Z.opp].
      rewrite Z.mod_0_l by lia. rewrite (Z.div_small (0 + chunk_size - 1)) by lia.
      rewrite pad_small, ceil_small by lia.
      cbn [Z.to_nat repeat List.concat app].
      rewrite !app_nil_r. split; [reflexivity|lia].
    + rewrite padding_of_full by lia.
      assert (Hfull : len data = chunk_size) by lia.
      replace (len (stdout l)) with (len rest + chunk_size) by lia.
      rewrite pad_step, ceil_step by lia.
      cbn [List.concat]. rewrite app_nil_r, <- Hcat, <- !app_assoc.
      split; [reflexivity|lia].
Qed.

Lemma send_audio_in_chunks_wire (clock : timing) (pcm : bytes) (s : socket)
    (chunk_seconds : Q) :
  let chunk_size := int (inject_Z (16000 * 2) * chunk_seconds) in
  reliable s ->
  0 < chunk_size ->
  let l := send_audio_in_chunks clock pcm s chunk_seconds in
  List.concat (sent (sock l))
  = List.concat (sent s) ++ pcm
    ++ repeat x00 (Z.to_nat ((- len pcm) mod chunk_size))
  /\ chunk_count l = (len pcm + chunk_size - 1) / chunk_size
  /\ stdout l = [].
Proof.
  intros chunk_size Hrel Hcs. unfold send_audio_in_chunks. cbv zeta.
  set (l0 := {| stdout := pcm; sock := s; chunk_timestamps := [];
                total_bytes_sent := 0; chunk_count := 0; log := [] |}).
  destruct (send_loop_wire clock chunk_seconds (S (List.length pcm)) Hcs l0)
    as (l' & Hrun & Hend & Hwire & Hcount); [exact Hrel|cbn; lia|].
  unfold chunk_size in *. rewrite Hrun.
  pose proof (wait_for_final_responses_drains (polls_at_end clock) (sock l')
                (chunk_timestamps l')) as Hd.
  destruct (wait_for_final_responses (polls_at_end clock) (sock l')
              (chunk_timestamps l')) as [[s' q] log1].
  destruct Hd as (_ & _ & Hs & _).
  cbn [sock chunk_count stdout]. rewrite Hs.
  split; [exact Hwire|]. split; [exact Hcount|exact Hend].
Qed.

(** X12. What goes on the wire: for a chunk size of at least one byte, and
    as long as no call of [sendall] raises, the bytes given to [sendall], in
    order, are the transcoder's output followed by as many zero bytes as it
    takes to reach a multiple of the chunk size; the pipe is read to its end
    and [chunk_count] is the length of the output over the chunk size,
    rounded up. *)
Theorem wire_is_padded_stream (clock : timing) (pcm : bytes) (s : socket)
    (chunk_seconds : Q) :
  let chunk_size := int (inject_Z (16000 * 2) * chunk_seconds) in
  reliable s ->
  0 < chunk_size ->
  let l := send_audio_in_chunks clock pcm s chunk_seconds in
  List.concat (sent (sock l))
  = List.concat (sent s) ++ pcm
    ++ repeat x00 (Z.to_nat ((- len pcm) mod chunk_size))
  /\ chunk_count l = (len pcm + chunk_size - 1) / chunk_size
  /\ stdout l = [].
Proof. exact (send_audio_in_chunks_wire clock pcm s chunk_seconds). Qed.

Lemma wire_is_padded_stream_witness :
  let chunk_size := int (inject_Z (16000 * 2) * (1 # 16000)) in
  reliable (example_socket [])
  /\ 0 < chunk_size
  /\ let l := send_audio_in_chunks steady_clock [x01; x02; x03]
                (example_socket []) (1 # 16000) in
     List.concat (sent (sock l))
     = List.concat (sent (example_socket [])) ++ [x01; x02; x03]
       ++ repeat x00 (Z.to_nat ((- len [x01; x02; x03]) mod chunk_size))
     /\ chunk_count l = (len [x01; x02; x03] + chunk_size - 1) / chunk_size
     /\ stdout l = [].
Proof.
  assert (Hcs : 0 < int (inject_Z (16000 * 2) * (1 # 16000))) by reflexivity.
  assert (Hrel : reliable (example_socket [])) by constructor.
  split; [exact Hrel|]. split; [exact Hcs|].
  apply (wire_is_padded_stream steady_clock [x01; x02; x03] (example_socket [])
           (1 # 16000) Hrel Hcs).
Defined.

(** X13. A chunk size that is not positive: when the chunk duration gives a
    size of zero bytes the first read returns nothing, so the program ends
    without having sent a byte although the transcoder's output is still in
    the pipe; when it gives a size below -1 the read raises, and the program
    prints the error and has sent nothing either. *)
Theorem no_chunk_without_chunk_size (clock : timing) (pcm : bytes)
    (s : socket) (chunk_seconds : Q) :
  let chunk_size := int (inject_Z (16000 * 2) * chunk_seconds) in
  chunk_size = 0 \/ chunk_size < -1 ->
  let l := send_audio_in_chunks clock pcm s chunk_seconds in
  sock l = s /\ stdout l = pcm /\ chunk_count l = 0
  /\ total_bytes_sent l = 0 /\ chunk_timestamps l = []
  /\ log l = if chunk_size =? 0 then [] else [Error].
Proof.
  intros chunk_size Hcs. unfold send_audio_in_chunks. fold chunk_size.
  cbn [send_loop]. unfold send_chunk, read. cbn [stdout].
  destruct Hcs as [Hzero | Hneg].
  - rewrite Hzero. cbn. repeat split.
  - assert (Hlt : (chunk_size <? -1) = true) by (apply Z.ltb_lt; exact Hneg).
    assert (Hne : (chunk_size =? 0) = false) by (apply Z.eqb_neq; lia).
    rewrite Hlt, Hne. cbn. repeat split.
Qed.

Lemma no_chunk_without_chunk_size_witness :
  (let chunk_size := int (inject_Z (16000 * 2) * 0) in
   (chunk_size = 0 \/ chunk_size < -1)
   /\ let l := send_audio_in_chunks steady_clock [x01; x02; x03]
                 (example_socket []) 0 in
      sock l = example_socket [] /\ stdout l = [x01; x02; x03]
      /\ chunk_count l = 0
      /\ total_bytes_sent l = 0 /\ chunk_timestamps l = []
      /\ log l = if chunk_size =? 0 then [] else [Error])
  /\ (let chunk_size := int (inject_Z (16000 * 2) * (- (1))) in
      (chunk_size = 0 \/ chunk_size < -1)
      /\ let l := send_audio_in_chunks steady_clock [x01; x02; x03]
                    (example_socket []) (- (1)) in
         sock l = example_socket [] /\ stdout l = [x01; x02; x03]
         /\ chunk_count l = 0
         /\ total_bytes_sent l = 0 /\ chunk_timestamps l = []
         /\ log l = if chunk_size =? 0 then [] else [Error]).
Proof.
  split.
  - assert (Hcs : int (inject_Z (16000 * 2) * 0) = 0
                  \/ int (inject_Z (16000 * 2) * 0) < -1)
      by (left; reflexivity).
    split; [exact Hcs|].
    apply (no_chunk_without_chunk_size steady_clock [x01; x02; x03]
             (example_socket []) 0 Hcs).
  - assert (Hcs : int (inject_Z (16000 * 2) * (- (1))) = 0
                  \/ int (inject_Z (16000 * 2) * (- (1))) < -1)
      by (right; reflexivity).
    split; [exact Hcs|].
    apply (no_chunk_without_chunk_size steady_clock [x01; x02; x03]
             (example_socket []) (- (1)) Hcs).
Defined.

End ClientProofs.

(** * The client against the server *)

Module EndToEnd.

Import Server.

Lemma padded_length (n : Z) :
  0 <= n ->
  n + (- n) mod 64000 = ((n + 64000 - 1) / 64000) * 64000
  /\ 0 <= (n + 64000 - 1) / 64000.
Proof. intros Hn. Z.div_mod_to_equations. lia. Qed.

Section OneLinePerChunk.

Context {R : Type} `{OnlineASRProcessor R}.

(** X14. The client against the server, with the client's chunks of two
    seconds, when no call of the client's [sendall] raises: whatever the
    length of the recording and however TCP cuts what the client has sent
    into non-empty segments, the server receives whole frames only, as many
    as the client has counted chunks; and when no write of the server fails
    and [min_chunk] is at most two seconds, [process] sends one line for
    each of these chunks and reads the stream to its end. *)
Theorem one_line_per_chunk_sent (clock : Client.timing) (pcm : bytes)
    (s : Client.socket) (segs : list bytes) (self : ServerProcessor R) :
  let l := Client.send_audio_in_chunks clock pcm s 2 in
  Client.reliable s ->
  Client.sent s = [] ->
  inbound (conn (connection self)) = map Segment segs ->
  Forall (fun d => d <> []) segs ->
  List.concat segs = List.concat (Client.sent (Client.sock l)) ->
  write_faults (conn (connection self)) = [] ->
  (min_chunk self <= 2)%Q ->
  (exists frames,
      receive_frames (S (List.length (List.concat segs))) (connection self)
      = Some frames
      /\ Forall (fun f => len f = PACKET_SIZE) frames
      /\ len frames = Client.chunk_count l)
  /\ len (outbound (conn (connection (process self))))
     = len (outbound (conn (connection self))) + Client.chunk_count l
  /\ inbound (conn (connection (process self))) = [].
Proof.
  intros l Hrel Hempty Hs Hne Hstream Hw Hmin.
  destruct (ClientProofs.send_audio_in_chunks_wire clock pcm s 2 Hrel)
    as (Hwire & Hcount & _); [reflexivity|].
  fold l in Hwire, Hcount.
  change (int (inject_Z (16000 * 2) * 2)) with 64000 in Hwire, Hcount.
  rewrite Hempty in Hwire. cbn [List.concat app] in Hwire.
  destruct (padded_length (len pcm) (ServerProofs.len_nonneg pcm))
    as [Hpad Hnonneg].
  assert (Hlen : len (List.concat segs)
                 = Client.chunk_count l * PACKET_SIZE).
  { rewrite Hstream, Hwire, Hcount, ServerProofs.len_app.
    unfold len at 2. rewrite repeat_length, ServerProofs.PACKET_SIZE_value.
    rewrite Z2Nat.id by (apply Z.mod_pos_bound; lia). exact Hpad. }
  split; [|].
  - destruct (ServerProofs.receive_frames_whole
                (S (List.length (List.concat segs))) segs (connection self)
                (Client.chunk_count l) Hs Hne Hlen)
      as (frames & Hrun & Hall & Hn & _); [lia|].
    exists frames. auto.
  - pose proof (ServerProofs.process_returns self) as Hret. cbv zeta in Hret.
    set (self0 := with_online_asr_proc self (init (online_asr_proc self))) in *.
    destruct (ServerProofs.process_loop_stream (S (pending_input self0))
                segs self0) as (self' & Hrun & Hout & _ & Hin);
      try assumption.
    + right. split; [exact Hmin|].
      rewrite ServerProofs.PACKET_SIZE_value in *. rewrite Hcount in Hlen.
      destruct (Z.eq_dec ((len pcm + 64000 - 1) / 64000) 0) as [Hz|Hz].
      * left. rewrite Hz in Hlen.
        destruct (List.concat segs); [reflexivity|discriminate Hlen].
      * right. lia.
    + unfold pending_input, self0. cbn [with_online_asr_proc connection].
      rewrite Hs, ServerProofs.backlog_segments. lia.
    + rewrite Hrun in Hret. injection Hret as <-.
      split; [|exact Hin]. rewrite Hout. cbn [self0 with_online_asr_proc connection].
      rewrite Hlen, ServerProofs.PACKET_SIZE_value.
      f_equal. rewrite Hcount in *. Z.div_mod_to_equations. lia.
Qed.

End OneLinePerChunk.

Lemma one_line_per_chunk_sent_witness :
  let l := Client.send_audio_in_chunks Client.steady_clock [x01; x02; x03]
             (Client.example_socket []) 2 in
  let segs := Client.sent (Client.sock l) in
  let self := example_session segs [Text 0 1 "a"] 1 in
  Client.reliable (Client.example_socket [])
  /\ Client.sent (Client.example_socket []) = []
  /\ inbound (conn (connection self)) = map Segment segs
  /\ Forall (fun d => d <> []) segs
  /\ List.concat segs = List.concat (Client.sent (Client.sock l))
  /\ write_faults (conn (connection self)) = []
  /\ (min_chunk self <= 2)%Q
  /\ (exists frames,
        receive_frames (S (List.length (List.concat segs))) (connection self)
        = Some frames
        /\ Forall (fun f => len f = PACKET_SIZE) frames
        /\ len frames = Client.chunk_count l)
  /\ len (outbound (conn (connection (process self))))
     = len (outbound (conn (connection self))) + Client.chunk_count l
  /\ inbound (conn (connection (process self))) = [].
Proof.
  cbv zeta.
  set (l := Client.send_audio_in_chunks Client.steady_clock [x01; x02; x03]
              (Client.example_socket []) 2).
  assert (Hne : Forall (fun d : bytes => d <> []) (Client.sent (Client.sock l))).
  { apply Forall_forall. intros d Hd Hnil. subst d.
    assert (Hin : existsb (fun d => negb (truthy d)) (Client.sent (Client.sock l))
                  = true)
      by (apply existsb_exists; exists []; split; [exact Hd|reflexivity]).
    vm_compute in Hin. discriminate Hin. }
  assert (Hmin : (1 <= 2)%Q) by discriminate.
  assert (Hrel : Client.reliable (Client.example_socket [])) by constructor.
  split; [exact Hrel|].
  split; [reflexivity|]. split; [reflexivity|]. split; [exact Hne|].
  split; [reflexivity|]. split; [reflexivity|]. split; [exact Hmin|].
  apply (one_line_per_chunk_sent Client.steady_clock [x01; x02; x03]
           (Client.example_socket [])
           (Client.sent (Client.sock l))
           (example_session (Client.sent (Client.sock l)) [Text 0 1 "a"] 1)
           Hrel eq_refl eq_refl Hne eq_refl eq_refl Hmin).
Defined.

End EndToEnd.

(** * Properties of the splitting of a recording *)

Module SplitWavProofs.

Import SplitWav.

Lemma Qceiling_div (a b : Z) :
  0 < b -> Qceiling (inject_Z a / inject_Z b) = - ((- a) / b).
Proof.
  intros Hb. destruct b as [|p|p]; try lia.
  unfold Qceiling, Qfloor, Qdiv, Qmult, Qinv, Qopp, inject_Z.
  cbn [Qnum Qden]. rewrite Z.mul_1_r, Pos.mul_1_l. reflexivity.
Qed.

Section Chunks.

Variable base_filename : string.
Variables total_duration_ms chunk_length_ms : Z.
Hypothesis chunk_length_positive : 0 < chunk_length_ms.

(** The chunk of index [i], as the loop builds it. *)
Let chunk (i : Z) : export :=
  {| output_filename :=
       (base_filename ++ "_chunk_" ++ format_03d (i + 1) ++ ".wav")%string;
     start_ms := i * chunk_length_ms;
     end_ms := Z.min ((i + 1) * chunk_length_ms) total_duration_ms |}.

Lemma chunks_tile (m : nat) :
  forall k : nat,
    (m = O -> total_duration_ms = Z.of_nat k * chunk_length_ms) ->
    (m <> O ->
     (Z.of_nat k + Z.of_nat m - 1) * chunk_length_ms < total_duration_ms
     <= (Z.of_nat k + Z.of_nat m) * chunk_length_ms) ->
    let chunks := map chunk (map Z.of_nat (seq k m)) in
    tiling (Z.of_nat k * chunk_length_ms) chunks total_duration_ms
    /\ Forall (fun c => 0 < end_ms c - start_ms c <= chunk_length_ms) chunks
    /\ (forall pre c post,
          chunks = pre ++ c :: post -> post <> [] ->
          end_ms c - start_ms c = chunk_length_ms).
Proof.
  induction m as [|m IH]; intros k Hzero Hpos chunks.
  - split; [exact (eq_sym (Hzero eq_refl))|]. split; [constructor|].
    intros [|a pre] c post Heq; discriminate.
  - specialize (Hpos (Nat.neq_succ_0 m)).
    unfold chunks. cbn [seq map]. fold chunk.
    destruct m as [|m'].
    + cbn [seq map tiling chunk start_ms end_ms].
      assert (Hmin : Z.min ((Z.of_nat k + 1) * chunk_length_ms) total_duration_ms
                     = total_duration_ms) by nia.
      rewrite Hmin. split; [split; reflexivity|]. split.
      * constructor; [|constructor]. unfold chunk. cbn [start_ms end_ms].
        rewrite Hmin. clear IH Hzero. nia.
      * intros [|a [|b pre]] c post Heq Hpost; cbn [app] in Heq;
          try discriminate.
        injection Heq as _ <-. elim Hpost. reflexivity.
    + destruct (IH (S k)) as (Htile & Hdur & Hfull); [discriminate|nia|].
      assert (Hmin : Z.min ((Z.of_nat k + 1) * chunk_length_ms) total_duration_ms
                     = (Z.of_nat k + 1) * chunk_length_ms) by nia.
      split; [|split].
      * cbn [tiling chunk start_ms end_ms]. rewrite Hmin.
        split; [reflexivity|].
        replace ((Z.of_nat k + 1) * chunk_length_ms)
          with (Z.of_nat (S k) * chunk_length_ms) by nia.
        exact Htile.
      * constructor; [|exact Hdur]. unfold chunk. cbn [start_ms end_ms].
        rewrite Hmin. nia.
      * intros [|a pre] c post Heq Hpost; cbn [app] in Heq.
        -- injection Heq as <- _. unfold chunk. cbn [start_ms end_ms].
           rewrite Hmin. nia.
        -- injection Heq as _ Heq. exact (Hfull pre c post Heq Hpost).
Qed.

End Chunks.

(** X15. The chunks of [split_wav_file] tile the recording: for a chunk
    length of at least one second, the function exports as many chunks as
    the duration over the chunk length, rounded up; the first starts at 0,
    each starts where the one before ends, the last ends at the end of the
    recording; every chunk but the last has the full chunk length and the
    last is between one millisecond and the chunk length long. *)
Theorem split_wav_file_tiles (base_filename : string)
    (total_duration_ms chunk_length : Z) :
  0 < chunk_length ->
  0 <= total_duration_ms ->
  let chunk_length_ms := chunk_length * 1000 in
  exists chunks,
    split_wav_file base_filename total_duration_ms chunk_length = Some chunks
    /\ len chunks = (total_duration_ms + chunk_length_ms - 1) / chunk_length_ms
    /\ tiling 0 chunks total_duration_ms
    /\ Forall (fun c => 0 < end_ms c - start_ms c <= chunk_length_ms) chunks
    /\ (forall pre c post,
          chunks = pre ++ c :: post -> post <> [] ->
          end_ms c - start_ms c = chunk_length_ms).
Proof.
  intros Hlen Htotal chunk_length_ms.
  assert (Hms : 0 < chunk_length_ms) by (unfold chunk_length_ms; lia).
  unfold split_wav_file. fold chunk_length_ms.
  destruct (chunk_length_ms =? 0) eqn:Hz; [apply Z.eqb_eq in Hz; lia|].
  rewrite Qceiling_div by exact Hms.
  set (n := - (- total_duration_ms / chunk_length_ms)).
  assert (Hn : n = (total_duration_ms + chunk_length_ms - 1) / chunk_length_ms
               /\ 0 <= n
               /\ (n = 0 -> total_duration_ms = 0)
               /\ (n <> 0 ->
                   (n - 1) * chunk_length_ms < total_duration_ms
                   <= n * chunk_length_ms)).
  { unfold n. Z.div_mod_to_equations. nia. }
  destruct Hn as (Hceil & Hnonneg & Hnone & Hsome).
  eexists. split; [reflexivity|]. unfold range.
  split.
  - unfold len. rewrite !length_map, length_seq. lia.
  - apply (chunks_tile base_filename total_duration_ms chunk_length_ms Hms
             (Z.to_nat n) O).
    + intros Hm. cbn. apply Hnone. lia.
    + intros Hm. cbn [Z.of_nat Z.add]. rewrite Z2Nat.id by lia.
      apply Hsome. lia.
Qed.

Lemma split_wav_file_tiles_witness :
  0 < 60
  /\ 0 <= 150000
  /\ let chunk_length_ms := 60 * 1000 in
     exists chunks,
       split_wav_file "rec" 150000 60 = Some chunks
       /\ len chunks = (150000 + chunk_length_ms - 1) / chunk_length_ms
       /\ tiling 0 chunks 150000
       /\ Forall (fun c => 0 < end_ms c - start_ms c <= chunk_length_ms) chunks
       /\ (forall pre c post,
             chunks = pre ++ c :: post -> post <> [] ->
             end_ms c - start_ms c = chunk_length_ms).
Proof.
  assert (H1 : 0 < 60) by lia. assert (H2 : 0 <= 150000) by lia.
  split; [exact H1|]. split; [exact H2|].
  apply (split_wav_file_tiles "rec" 150000 60 H1 H2).
Defined.

Lemma append_cancel_l (s a b : string) :
  (s ++ a)%string = (s ++ b)%string -> a = b.
Proof.
  induction s as [|c s IH]; cbn [append]; intros H; [exact H|].
  injection H as H. exact (IH H).
Qed.

Lemma length_append (s t : string) :
  String.length (s ++ t) = (String.length s + String.length t)%nat.
Proof.
  induction s as [|c s IH]; cbn [append String.length]; [reflexivity|].
  rewrite IH. reflexivity.
Qed.

Lemma append_cancel_r (t : string) :
  forall a b : string, (a ++ t)%string = (b ++ t)%string -> a = b.
Proof.
  induction a as [|c a IH]; intros [|d b] H; cbn [append] in H.
  - reflexivity.
  - apply (f_equal String.length) in H. cbn [String.length] in H.
    rewrite length_append in H. lia.
  - apply (f_equal String.length) in H. cbn [String.length] in H.
    rewrite length_append in H. lia.
  - injection H as -> H. rewrite (IH b H). reflexivity.
Qed.

Lemma number_of_zeros (n : nat) (s : string) :
  number_of (zeros n ++ s) = number_of s.
Proof.
  unfold number_of. induction n as [|n IH]; [reflexivity|].
  cbn [zeros append NilEmpty.uint_of_string].
  destruct (NilEmpty.uint_of_string (zeros n ++ s)) as [d|];
    destruct (NilEmpty.uint_of_string s) as [e|];
    cbn [option_map] in IH; try discriminate; cbn [uint_of_char option_map].
  - injection IH as IH. cbn [N.of_uint Pos.of_uint].
    f_equal. exact IH.
  - reflexivity.
Qed.

Lemma number_of_digits (z : Z) : number_of (digits z) = Some (Z.to_N z).
Proof.
  unfold number_of, digits.
  assert (Hnil : NilZero.string_of_uint (N.to_uint (Z.to_N z))
                 = NilEmpty.string_of_uint (N.to_uint (Z.to_N z))).
  { destruct (Z.to_N z) as [|p]; [reflexivity|]. cbn [N.to_uint].
    pose proof (DecimalPos.Unsigned.to_uint_nonnil p) as Hp.
    destruct (Pos.to_uint p); [elim Hp|..]; reflexivity. }
  rewrite Hnil, NilEmpty.usu. cbn [option_map].
  rewrite DecimalN.Unsigned.of_to. reflexivity.
Qed.

(** The number inside a file name is the chunk's own: [format_03d] pads,
    and reading the padded number gives the number back. *)
Lemma number_of_format_03d (z : Z) :
  0 <= z -> number_of (format_03d z) = Some (Z.to_N z).
Proof.
  intros Hz. unfold format_03d.
  destruct (z <? 0) eqn:Hneg; [apply Z.ltb_lt in Hneg; lia|].
  unfold zfill. rewrite number_of_zeros. apply number_of_digits.
Qed.

Lemma format_03d_inj (a b : Z) :
  0 <= a -> 0 <= b -> format_03d a = format_03d b -> a = b.
Proof.
  intros Ha Hb H. apply (f_equal number_of) in H.
  rewrite !number_of_format_03d in H by assumption.
  injection H as H. lia.
Qed.

(** X16. No two chunks of one call of [split_wav_file] are exported under
    the same file name, however many chunks there are (the number in the
    name is padded to three digits and grows beyond them). *)
Theorem chunk_filenames_distinct (base_filename : string)
    (total_duration_ms chunk_length : Z) (chunks : list export) :
  split_wav_file base_filename total_duration_ms chunk_length = Some chunks ->
  NoDup (map output_filename chunks).
Proof.
  unfold split_wav_file.
  destruct (chunk_length * 1000 =? 0); [discriminate|].
  intros H. injection H as <-. unfold range.
  rewrite !map_map. cbn [output_filename].
  apply NoDup_map_NoDup_ForallPairs; [|apply seq_NoDup].
  intros i j _ _ H.
  apply append_cancel_l in H.
  apply (append_cancel_l "_chunk_") in H.
  apply append_cancel_r in H.
  apply format_03d_inj in H; lia.
Qed.

Lemma chunk_filenames_distinct_witness :
  exists chunks,
    split_wav_file "rec" 150000 60 = Some chunks
    /\ NoDup (map output_filename chunks).
Proof.
  eexists. split; [reflexivity|].
  apply (chunk_filenames_distinct "rec" 150000 60). reflexivity.
Defined.

(** Two and a half minutes in chunks of one minute. *)
Example two_and_a_half_minutes :
  split_wav_file "rec" 150000 60
  = Some [{| output_filename := "rec_chunk_001.wav";
             start_ms := 0; end_ms := 60000 |};
          {| output_filename := "rec_chunk_002.wav";
             start_ms := 60000; end_ms := 120000 |};
          {| output_filename := "rec_chunk_003.wav";
             start_ms := 120000; end_ms := 150000 |}].
Proof. vm_compute. reflexivity. Qed.

End SplitWavProofs.
